(** * smalljson: a shallow embedding of the value model, the escape codec,
      the serializer and the recursive-descent parser of
      [smalljson.h] / [smalljson.cc], with the properties of its
      specification stated against that embedding. *)

From Stdlib Require Import Strings.String Strings.Ascii.
From Stdlib Require Import Lists.List Arith.PeanoNat Arith.Arith.
From Stdlib Require Import NArith.NArith ZArith.ZArith micromega.Lia Bool.Bool.
From Stdlib Require Import Numbers.DecimalString.
Import ListNotations.

Local Open Scope list_scope.
Local Open Scope string_scope.

(* ================================================================== *)
(** * Characters *)
(* ================================================================== *)

(** The characters the source names with a C escape. *)
Module Ch.
Definition nul : ascii := "000"%char.        (* '\0' *)
Definition backspace : ascii := "008"%char.  (* '\b' *)
Definition tab : ascii := "009"%char.        (* '\t' *)
Definition newline : ascii := "010"%char.    (* '\n' *)
Definition formfeed : ascii := "012"%char.   (* '\f' *)
Definition cr : ascii := "013"%char.         (* '\r' *)
Definition dquote : ascii := "034"%char.     (* double quote *)
Definition backslash : ascii := "092"%char.  (* '\\' *)
End Ch.

(** One-character [std::string]. *)
Definition str1 (c : ascii) : string := String c EmptyString.

(** [std::isdigit] on the characters '0' .. '9'. *)
Definition isdigit (c : ascii) : bool :=
  (48 <=? nat_of_ascii c)%nat && (nat_of_ascii c <=? 57)%nat.

(* ================================================================== *)
(** * std::string operations used by the source *)
(* ================================================================== *)

Module StdString.

(** [s[pos]]: for [pos == size()] the standard returns a reference to
    the terminating NUL, which the codec reads at [idx + 1]. *)
Definition at_index (s : string) (pos : nat) : ascii :=
  match String.get pos s with
  | Some c => c
  | None => Ch.nul
  end.

(** The tail of [s] from position [n] on. *)
Fixpoint drop (n : nat) (s : string) : string :=
  match n, s with
  | 0, _ => s
  | S _, EmptyString => EmptyString
  | S n', String _ s' => drop n' s'
  end.

(** The first [n] characters of [s] (all of it when it is shorter). *)
Fixpoint take (n : nat) (s : string) : string :=
  match n, s with
  | 0, _ => EmptyString
  | S _, EmptyString => EmptyString
  | S n', String c s' => String c (take n' s')
  end.

(** [s.replace(pos, count, r)] for [pos <= size()]: the characters
    [pos, pos + count) (clamped to the end of [s]) are replaced by [r]. *)
Definition replace (s : string) (pos count : nat) (r : string) : string :=
  take pos s ++ r ++ drop (pos + count) s.

(** [s.pop_back()]: drops the last character. *)
Fixpoint pop_back (s : string) : string :=
  match s with
  | EmptyString => EmptyString
  | String c EmptyString => EmptyString
  | String c s' => String c (pop_back s')
  end.

End StdString.

(* ================================================================== *)
(** * Escape codec: escapeJson and unescapeJson *)
(* ================================================================== *)

(** [replaceStr] of [escapeJson]: the seven raw literals
    backslash-n, backslash-t, backslash-backslash, backslash-b,
    backslash-r, backslash-quote, backslash-f. *)
Definition escape_replaceStr (replaceIdx : nat) : string :=
  nth replaceIdx
      [ String Ch.backslash "n"; String Ch.backslash "t";
        String Ch.backslash (str1 Ch.backslash); String Ch.backslash "b";
        String Ch.backslash "r"; String Ch.backslash (str1 Ch.dquote);
        String Ch.backslash "f" ]
      EmptyString.

(** The [switch (escapeStr[idx])] of [escapeJson].  [Some i] is a case
    that leaves the switch by [break] with [replaceIdx = i]; [None] is
    [continue].  The case '\f' sets [replaceIdx = 6] and has no [break]:
    it falls through into [default: continue]. *)
Definition escape_switch (c : ascii) : option nat :=
  if Ascii.eqb c Ch.newline then Some 0
  else if Ascii.eqb c Ch.tab then Some 1
  else if Ascii.eqb c Ch.backslash then Some 2
  else if Ascii.eqb c Ch.backspace then Some 3
  else if Ascii.eqb c Ch.cr then Some 4
  else if Ascii.eqb c Ch.dquote then Some 5
  else if Ascii.eqb c Ch.formfeed then None   (* replaceIdx = 6; default *)
  else None.                                  (* default: continue *)

(** The [for] loop of [escapeJson] over the local copy [escapeStr];
    [fuel] bounds the number of iterations. *)
Fixpoint escapeJson_loop (fuel : nat) (escapeStr : string) (idx : nat)
  : string :=
  match fuel with
  | 0 => escapeStr
  | S fuel' =>
      if (idx <? String.length escapeStr)%nat then
        match escape_switch (StdString.at_index escapeStr idx) with
        | None => escapeJson_loop fuel' escapeStr (idx + 1)
        | Some replaceIdx =>
            let escapeStr :=
              StdString.replace escapeStr idx 1 (escape_replaceStr replaceIdx) in
            let idx := idx + 1 in            (* idx++ in the body *)
            escapeJson_loop fuel' escapeStr (idx + 1)
        end
      else escapeStr
  end.

(** Every iteration moves [idx] one step closer to the end of the
    buffer, so [size()] iterations are enough. *)
Definition escapeJson (str : string) : string :=
  escapeJson_loop (String.length str) str 0.

(** [replaceStr] of [unescapeJson]. *)
Definition unescape_replaceStr (replaceIdx : nat) : string :=
  nth replaceIdx
      [ str1 Ch.newline; str1 Ch.tab; str1 Ch.backslash; str1 Ch.backspace;
        str1 Ch.cr; str1 Ch.dquote; str1 Ch.formfeed ]
      EmptyString.

(** The [switch (unescapeStr[idx + 1])] of [unescapeJson], entered with
    [replaceIdx = 0]: in the default case [replaceIdx] is still 0. *)
Definition unescape_switch (c : ascii) : nat :=
  if Ascii.eqb c "n" then 0
  else if Ascii.eqb c "t" then 1
  else if Ascii.eqb c Ch.backslash then 2
  else if Ascii.eqb c "b" then 3
  else if Ascii.eqb c "r" then 4
  else if Ascii.eqb c Ch.dquote then 5
  else if Ascii.eqb c "f" then 6
  else 0.                          (* default: break, replaceIdx unchanged *)

(** The [for] loop of [unescapeJson]. *)
Fixpoint unescapeJson_loop (fuel : nat) (unescapeStr : string) (idx : nat)
  : string :=
  match fuel with
  | 0 => unescapeStr
  | S fuel' =>
      if (idx <? String.length unescapeStr)%nat then
        if negb (Ascii.eqb (StdString.at_index unescapeStr idx) Ch.backslash)
        then unescapeJson_loop fuel' unescapeStr (idx + 1)
        else
          let replaceIdx :=
            unescape_switch (StdString.at_index unescapeStr (idx + 1)) in
          let unescapeStr :=
            StdString.replace unescapeStr idx 2 (unescape_replaceStr replaceIdx) in
          unescapeJson_loop fuel' unescapeStr (idx + 1)
      else unescapeStr
  end.

Definition unescapeJson (str : string) : string :=
  unescapeJson_loop (String.length str) str 0.

(* ================================================================== *)
(** * Outcomes of a call *)
(* ================================================================== *)

(** [Exception::ParseError]. *)
Inductive ParseError : Type :=
| NOT_JSON
| ROOT_NOT_ONE
| MISS_COLON
| MISS_VALUE
| LACK_COMMA_OR_BRACE
| LACK_COMMA_OR_BRACKET
| BAD_KEY
| BAD_VALUE
| JSON_LENGTH
| BAD_ESCAPE
| BAD_BOOLEAN
| BAD_NULL
| BAD_NUMBER
| BAD_TYPE.

(** What a call can throw: the library's own [Exception], and the two
    standard exceptions of the containers it delegates to. *)
Inductive exn : Type :=
| Exception (err_ : ParseError)
| bad_variant_access          (* std::get on an alternative that is not active *)
| out_of_range.               (* std::map::at, std::vector::at *)

(** A call returns, throws, dereferences a null [unique_ptr]
    ([Undefined]), or, in the fuelled functions of the parser, stops for
    lack of fuel. *)
Inductive result (A : Type) : Type :=
| Ok (a : A)
| Throw (e : exn)
| Undefined
| OutOfFuel.

Arguments Ok {A} a.
Arguments Throw {A} e.
Arguments Undefined {A}.
Arguments OutOfFuel {A}.

Definition bind {A B : Type} (r : result A) (k : A -> result B) : result B :=
  match r with
  | Ok a => k a
  | Throw e => Throw e
  | Undefined => Undefined
  | OutOfFuel => OutOfFuel
  end.

Declare Scope result_scope.
Delimit Scope result_scope with result.
Notation "x <- e ;; k" := (bind e (fun x => k))
  (at level 61, e at next level, right associativity) : result_scope.
Notation "' pat <- e ;; k" := (bind e (fun x => match x with pat => k end))
  (at level 61, pat pattern, e at next level, right associativity)
  : result_scope.
Local Open Scope result_scope.

(** [throw Exception(Exception::ParseError::err)]. *)
Definition throw {A : Type} (err : ParseError) : result A :=
  Throw (Exception err).

Section ResultList.
Context {A B : Type} (f : A -> result B).

(** Element-wise copy of a container, left to right, stopping at the
    first element whose copy does not return. *)
Fixpoint mapM (l : list A) : result (list B) :=
  match l with
  | [] => Ok []
  | a :: l' => b <- f a ;; bs <- mapM l' ;; Ok (b :: bs)
  end.
End ResultList.

(* ================================================================== *)
(** * The value model *)
(* ================================================================== *)

Module ValueType.
(** [enum class Value::ValueType]. *)
Inductive t : Type := Array | Object | Null | Boolean | String | Number.

Definition eqb (a b : t) : bool :=
  match a, b with
  | Array, Array | Object, Object | Null, Null
  | Boolean, Boolean | String, String | Number, Number => true
  | _, _ => false
  end.
End ValueType.

(** [Value::value_t = std::variant<std::string, array_ptr, object_ptr>]
    over the element type [V].  A [unique_ptr] is [Some] of what it owns,
    or [None] when it is null (after a move). [Array::array_data_] is a
    [std::vector<Value>], [Object::object_data_] a
    [std::map<std::string, Value>], kept as the list of its entries in
    iteration order. *)
Inductive value_t (V : Type) : Type :=
| v_string (s : string)
| v_array_ptr (p : option (list V))
| v_object_ptr (p : option (list (string * V))).

Arguments v_string {V} s.
Arguments v_array_ptr {V} p.
Arguments v_object_ptr {V} p.

(** [class Value]: the recorded tag and the variant. *)
#[warnings="-register-all"]
Inductive Value : Type :=
  mkValue { type_ : ValueType.t; value_data_ : value_t Value }.

Definition Array : Type := list Value.
Definition Object : Type := list (string * Value).

(** ** std::map<std::string, V> *)

Module StdMap.
Section Map.
Context {V : Type}.

(** [m.emplace(k, v)]: the entry is inserted at its place in key
    order when no entry has key [k]; when one has, the map is left as
    it is. *)
Fixpoint emplace (k : string) (v : V) (m : list (string * V))
  : list (string * V) :=
  match m with
  | [] => [(k, v)]
  | (k', v') :: m' =>
      match String.compare k k' with
      | Lt => (k, v) :: (k', v') :: m'
      | Eq => (k', v') :: m'
      | Gt => (k', v') :: emplace k v m'
      end
  end.

(** [m.find(k)], by the same key order. *)
Fixpoint find (k : string) (m : list (string * V)) : option V :=
  match m with
  | [] => None
  | (k', v') :: m' =>
      match String.compare k k' with
      | Lt => None
      | Eq => Some v'
      | Gt => find k m'
      end
  end.

(** [m.at(k)]. *)
Definition at_ (k : string) (m : list (string * V)) : result V :=
  match find k m with
  | Some v => Ok v
  | None => Throw out_of_range
  end.

(** Keys strictly increasing: the shape of every [std::map]. *)
Fixpoint sorted (m : list (string * V)) : bool :=
  match m with
  | [] => true
  | (k, _) :: m' =>
      match m' with
      | [] => true
      | (k', _) :: _ =>
          match String.compare k k' with Lt => true | _ => false end
      end && sorted m'
  end.
End Map.
End StdMap.

(** ** Constructors *)

(** [Value()]: the variant is default-initialised to its first
    alternative, an empty string. *)
Definition Value_default : Value :=
  mkValue ValueType.Null (v_string EmptyString).

(** [Value(size_t num)], with [std::to_string(num)]. *)
Definition Value_of_size_t (num : N) : Value :=
  mkValue ValueType.Number (v_string (NilZero.string_of_uint (N.to_uint num))).

(** [Value(ssize_t num)]. *)
Definition Value_of_ssize_t (num : Z) : Value :=
  mkValue ValueType.Number (v_string (NilZero.string_of_int (Z.to_int num))).

(** [Value(float num)] and [Value(double num)]: [num_text] stands for
    [std::to_string(num)], whose formatting is not modelled. *)
Definition Value_of_double (num_text : string) : Value :=
  mkValue ValueType.Number (v_string num_text).

(** [Value(bool boolean)]. *)
Definition Value_of_bool (boolean : bool) : Value :=
  mkValue ValueType.Boolean (v_string (if boolean then "true" else "false")).

(** [Value(const std::string &str)] and [Value(const char *str)]. *)
Definition Value_of_string (str : string) : Value :=
  mkValue ValueType.String (v_string str).

(** [Value(Array &&arr)]: the vector is moved into a fresh [Array]. *)
Definition Value_of_Array (arr : Array) : Value :=
  mkValue ValueType.Array (v_array_ptr (Some arr)).

(** [Value(Object &&obj)]. *)
Definition Value_of_Object (obj : Object) : Value :=
  mkValue ValueType.Object (v_object_ptr (Some obj)).

(** The public template [Value(ValueType type, Args &&...args)]: the tag
    is [type] and the variant is built from [args], here given as the
    variant they build.  Nothing relates the two. *)
Definition Value_of_type (type : ValueType.t) (args : value_t Value) : Value :=
  mkValue type args.

(** ** Copy and move *)

Section DeepCopy.
(** The copy constructor the element copies go through. *)
Variable Value_copy : Value -> result Value.

(** Copy constructors of [Array] and [Object] (defaulted): the
    container is copied element by element. *)
Definition Array_copy (arr : Array) : result Array :=
  mapM Value_copy arr.

Definition Object_copy (obj : Object) : result Object :=
  mapM (fun kv => v <- Value_copy (snd kv) ;; Ok (fst kv, v)) obj.

(** [Value::deepCopy(rhs)]: the new [value_data_], by the three
    [get_if] branches in the order of the source.  [**pval] on a null
    pointer is undefined. *)
Definition deepCopy_with (rhs : value_t Value) : result (value_t Value) :=
  match rhs with
  | v_string pval => Ok (v_string pval)
  | v_object_ptr pval =>
      match pval with
      | None => Undefined
      | Some obj => obj' <- Object_copy obj ;; Ok (v_object_ptr (Some obj'))
      end
  | v_array_ptr pval =>
      match pval with
      | None => Undefined
      | Some arr => arr' <- Array_copy arr ;; Ok (v_array_ptr (Some arr'))
      end
  end.
End DeepCopy.

(** [Value(const Value &rhs) : type_(rhs.type_) { deepCopy(rhs.value_data_); }] *)
Fixpoint Value_copy (rhs : Value) : result Value :=
  match rhs with
  | mkValue rhs_type rhs_data =>
      d <- deepCopy_with Value_copy rhs_data ;; Ok (mkValue rhs_type d)
  end.

Definition deepCopy : value_t Value -> result (value_t Value) :=
  deepCopy_with Value_copy.

(** [Value(const Array &arr)] and [Value(const Object &obj)]. *)
Definition Value_of_Array_copy (arr : Array) : result Value :=
  arr' <- Array_copy Value_copy arr ;; Ok (Value_of_Array arr').

Definition Value_of_Object_copy (obj : Object) : result Value :=
  obj' <- Object_copy Value_copy obj ;; Ok (Value_of_Object obj').

(** What a defaulted move leaves in the source variant: the same
    alternative, holding a null pointer or a string of unspecified
    content [leftover]. *)
Definition moved_from (leftover : string) (rhs : Value) : Value :=
  mkValue (type_ rhs)
          (match value_data_ rhs with
           | v_string _ => v_string leftover
           | v_array_ptr _ => v_array_ptr None
           | v_object_ptr _ => v_object_ptr None
           end).

(** [Value(Value &&rhs)] and [operator=(Value &&rhs)], both defaulted:
    the new (or assigned) object, and [rhs] afterwards. *)
Definition Value_move (leftover : string) (rhs : Value) : Value * Value :=
  (mkValue (type_ rhs) (value_data_ rhs), moved_from leftover rhs).

(** ** Type predicates and accessors *)

Definition isNull (v : Value) : bool := ValueType.eqb (type_ v) ValueType.Null.
Definition isNumber (v : Value) : bool := ValueType.eqb (type_ v) ValueType.Number.
Definition isArray (v : Value) : bool := ValueType.eqb (type_ v) ValueType.Array.
Definition isObject (v : Value) : bool := ValueType.eqb (type_ v) ValueType.Object.
Definition isString (v : Value) : bool := ValueType.eqb (type_ v) ValueType.String.
Definition isBoolean (v : Value) : bool := ValueType.eqb (type_ v) ValueType.Boolean.

(** [*std::get<array_ptr>(value_data_)]. *)
Definition get_array (d : value_t Value) : result Array :=
  match d with
  | v_array_ptr (Some arr) => Ok arr
  | v_array_ptr None => Undefined
  | _ => Throw bad_variant_access
  end.

(** [*std::get<object_ptr>(value_data_)]. *)
Definition get_object (d : value_t Value) : result Object :=
  match d with
  | v_object_ptr (Some obj) => Ok obj
  | v_object_ptr None => Undefined
  | _ => Throw bad_variant_access
  end.

(** [Value::to_array()]. *)
Definition to_array (v : Value) : result Array :=
  if isArray v then get_array (value_data_ v) else throw BAD_TYPE.

(** [Value::to_object()]. *)
Definition to_object (v : Value) : result Object :=
  if isObject v then get_object (value_data_ v) else throw BAD_TYPE.

(** [Array::at(idx)] is [array_data_.at(idx)]. *)
Definition Array_at (arr : Array) (idx : nat) : result Value :=
  match nth_error arr idx with
  | Some v => Ok v
  | None => Throw out_of_range
  end.

(** [Object::at(key)] is [object_data_.at(key)]. *)
Definition Object_at (obj : Object) (key : string) : result Value :=
  StdMap.at_ key obj.

(** [Value::at(size_t idx)]. *)
Definition Value_at (v : Value) (idx : nat) : result Value :=
  arr <- to_array v ;; Array_at arr idx.

(** [Value::at(const std::string &key)]. *)
Definition Value_at_key (v : Value) (key : string) : result Value :=
  obj <- to_object v ;; Object_at obj key.

(* ================================================================== *)
(** * Objects in memory and copy assignment *)
(* ================================================================== *)

(** A [Value] lives in a variable of the program, or inside the array
    or the object that another [Value] owns.  A [Value &], such as [at]
    and [operator[]] return, is a variable and the way down from it:
    an index into the array, or a key of the object, at each level. *)
Inductive step : Type :=
| step_idx (idx : nat)
| step_key (key : string).

Record reference : Type := mkRef { ref_var : nat; ref_path : list step }.

(** The [Value] variables of the program. *)
Definition memory : Type := list Value.

(** A reference to the variable itself. *)
Definition var_ref (n : nat) : reference := mkRef n [].

(** A vector with its element [n] replaced. *)
Fixpoint replace_nth {A : Type} (l : list A) (n : nat) (x : A) : list A :=
  match l with
  | [] => []
  | y :: l' =>
      match n with
      | 0 => x :: l'
      | S n' => y :: replace_nth l' n' x
      end
  end.

(** A map with the value of its entry [k] replaced; the entry is looked
    up as [StdMap.find] does. *)
Fixpoint StdMap_replace {V : Type} (k : string) (x : V)
         (m : list (string * V)) : list (string * V) :=
  match m with
  | [] => []
  | (k', v') :: m' =>
      match String.compare k k' with
      | Lt => (k', v') :: m'
      | Eq => (k', x) :: m'
      | Gt => (k', v') :: StdMap_replace k x m'
      end
  end.

(** The object a path leads to inside [v].  A reference is followed
    through the containers as they are, whatever the tags say. *)
Fixpoint Value_get (v : Value) (p : list step) : option Value :=
  match p with
  | [] => Some v
  | step_idx idx :: p' =>
      match value_data_ v with
      | v_array_ptr (Some arr) =>
          match nth_error arr idx with
          | Some x => Value_get x p'
          | None => None
          end
      | _ => None
      end
  | step_key key :: p' =>
      match value_data_ v with
      | v_object_ptr (Some obj) =>
          match StdMap.find key obj with
          | Some x => Value_get x p'
          | None => None
          end
      | _ => None
      end
  end.

(** [v] after a write through a path: the object at its end becomes [f]
    of what it was, and nothing else changes. *)
Fixpoint Value_set (v : Value) (p : list step) (f : Value -> Value)
  : option Value :=
  match p with
  | [] => Some (f v)
  | step_idx idx :: p' =>
      match value_data_ v with
      | v_array_ptr (Some arr) =>
          match nth_error arr idx with
          | Some x =>
              match Value_set x p' f with
              | Some x' =>
                  Some (mkValue (type_ v)
                                (v_array_ptr (Some (replace_nth arr idx x'))))
              | None => None
              end
          | None => None
          end
      | _ => None
      end
  | step_key key :: p' =>
      match value_data_ v with
      | v_object_ptr (Some obj) =>
          match StdMap.find key obj with
          | Some x =>
              match Value_set x p' f with
              | Some x' =>
                  Some (mkValue (type_ v)
                                (v_object_ptr
                                   (Some (StdMap_replace key x' obj))))
              | None => None
              end
          | None => None
          end
      | _ => None
      end
  end.

(** Reading and writing through a reference; a reference to nothing is
    dangling, and its use undefined. *)
Definition load (mem : memory) (r : reference) : result Value :=
  match nth_error mem (ref_var r) with
  | Some v =>
      match Value_get v (ref_path r) with
      | Some x => Ok x
      | None => Undefined
      end
  | None => Undefined
  end.

Definition store (mem : memory) (r : reference) (f : Value -> Value)
  : result memory :=
  match nth_error mem (ref_var r) with
  | Some v =>
      match Value_set v (ref_path r) f with
      | Some v' => Ok (replace_nth mem (ref_var r) v')
      | None => Undefined
      end
  | None => Undefined
  end.

(** [Value::at(size_t idx)] and [Value::at(const std::string &key)] on
    the object [r] refers to, as the [Value &] they return. *)
Definition Value_at_ref (mem : memory) (r : reference) (idx : nat)
  : result reference :=
  v <- load mem r ;;
  _ <- Value_at v idx ;;
  Ok (mkRef (ref_var r) (ref_path r ++ [step_idx idx])%list).

Definition Value_at_key_ref (mem : memory) (r : reference) (key : string)
  : result reference :=
  v <- load mem r ;;
  _ <- Value_at_key v key ;;
  Ok (mkRef (ref_var r) (ref_path r ++ [step_key key])%list).

(** [Value::operator=(const Value &rhs)] on [*this], statement by
    statement.  The tag is written first, and [rhs] is read again by
    [deepCopy] after that write: when [*this] is a part of [rhs], what
    [deepCopy] copies holds the new tag already.  The copy is complete
    before the old variant of [*this] is destroyed. *)
Definition Value_copy_assign (mem : memory) (this rhs : reference)
  : result memory :=
  (* type_ = rhs.type_; *)
  r <- load mem rhs ;;
  let rhs_type := type_ r in
  mem <- store mem this (fun x => mkValue rhs_type (value_data_ x)) ;;
  (* deepCopy(rhs.value_data_); *)
  r <- load mem rhs ;;
  d <- deepCopy (value_data_ r) ;;
  store mem this (fun x => mkValue (type_ x) d).

(** [*this] is strictly inside [rhs]: one of the values [rhs] owns, at
    any depth. *)
Definition step_eqb (s t : step) : bool :=
  match s, t with
  | step_idx i, step_idx j => Nat.eqb i j
  | step_key k, step_key l => String.eqb k l
  | _, _ => false
  end.

Fixpoint proper_prefix (q p : list step) : bool :=
  match q, p with
  | [], [] => false
  | [], _ :: _ => true
  | _ :: _, [] => false
  | s :: q', t :: p' => step_eqb s t && proper_prefix q' p'
  end.

Definition inside (this rhs : reference) : bool :=
  Nat.eqb (ref_var this) (ref_var rhs)
  && proper_prefix (ref_path rhs) (ref_path this).

(* ================================================================== *)
(** * Serializer *)
(* ================================================================== *)

Section ContainerToString.
(** [Value::to_string] of the elements. *)
Variable Value_to_string : Value -> result string.

(** The range-for of [Object::to_string] over [object_data_], appending
    to [str]. *)
Fixpoint Object_to_string_loop (object_data_ : Object) (str : string)
  : result string :=
  match object_data_ with
  | [] => Ok str
  | (key, value) :: rest =>
      s <- Value_to_string value ;;
      Object_to_string_loop rest
        (str ++ (str1 Ch.dquote ++ escapeJson key ++ str1 Ch.dquote ++ ":"
                 ++ s ++ ","))
  end.

(** [Object::to_string()]. *)
Definition Object_to_string_with (object_data_ : Object) : result string :=
  let str := "{" in
  str <- Object_to_string_loop object_data_ str ;;
  let str := StdString.pop_back str in
  let str := str ++ "}" in
  Ok str.

(** The range-for of [Array::to_string]. *)
Fixpoint Array_to_string_loop (array_data_ : Array) (str : string)
  : result string :=
  match array_data_ with
  | [] => Ok str
  | value :: rest =>
      s <- Value_to_string value ;;
      Array_to_string_loop rest (str ++ (s ++ ","))
  end.

(** [Array::to_string()]. *)
Definition Array_to_string_with (array_data_ : Array) : result string :=
  let str := "[" in
  str <- Array_to_string_loop array_data_ str ;;
  let str := StdString.pop_back str in
  let str := str ++ "]" in
  Ok str.
End ContainerToString.

(** [Value::to_string()]: the [switch (type_)]; each [std::get] throws
    [bad_variant_access] when its alternative is not the active one.  The
    six cases cover the enumeration, so the [default:] of the source is
    never taken. *)
Fixpoint Value_to_string (v : Value) : result string :=
  match v with
  | mkValue type_ value_data_ =>
      match type_ with
      | ValueType.Null => Ok "null"
      | ValueType.Boolean
      | ValueType.Number =>
          match value_data_ with
          | v_string s => Ok s
          | _ => Throw bad_variant_access
          end
      | ValueType.String =>
          match value_data_ with
          | v_string s => Ok (str1 Ch.dquote ++ s ++ str1 Ch.dquote)
          | _ => Throw bad_variant_access
          end
      | ValueType.Object =>
          match value_data_ with
          | v_object_ptr (Some obj) => Object_to_string_with Value_to_string obj
          | v_object_ptr None => Undefined
          | _ => Throw bad_variant_access
          end
      | ValueType.Array =>
          match value_data_ with
          | v_array_ptr (Some arr) => Array_to_string_with Value_to_string arr
          | v_array_ptr None => Undefined
          | _ => Throw bad_variant_access
          end
      end
  end.

Definition Object_to_string : Object -> result string :=
  Object_to_string_with Value_to_string.

Definition Array_to_string : Array -> result string :=
  Array_to_string_with Value_to_string.

(* ================================================================== *)
(** * Parser *)
(* ================================================================== *)

(** The parser state is the iterator pair [cur_], [end_] over the
    immutable input.  It is kept as the text in [[cur_, end_)]: [cur_++]
    drops its first character and [cur_ == end_] is emptiness. *)
Definition cursor : Type := string.

(** [cur_ == end_]. *)
Definition at_end (cur : cursor) : bool :=
  match cur with
  | EmptyString => true
  | String _ _ => false
  end.

(** [*cur_].  The buffer of a [std::string] ends in a NUL, which is what
    the source reads at [end_] (its end-of-input test in [parseStart] is
    [*cur_ != 0]). *)
Definition deref (cur : cursor) : ascii :=
  match cur with
  | EmptyString => Ch.nul
  | String c _ => c
  end.

(** [cur_ + n]. *)
Definition advance (n : nat) (cur : cursor) : cursor := StdString.drop n cur.

(** [cur_++]. *)
Definition next (cur : cursor) : cursor := advance 1 cur.

(** [last - first] for two positions of the same buffer. *)
Definition distance (first last : cursor) : nat :=
  String.length first - String.length last.

(** [std::string(first, first + n)]. *)
Definition make_string (first : cursor) (n : nat) : string :=
  StdString.take n first.

Definition is_whitespace (c : ascii) : bool :=
  Ascii.eqb c " " || Ascii.eqb c Ch.newline || Ascii.eqb c Ch.cr
  || Ascii.eqb c Ch.tab.

(** [Parser::skipWhiteSpace()]. *)
Fixpoint skipWhiteSpace (cur : cursor) : cursor :=
  match cur with
  | EmptyString => cur
  | String c cur' => if is_whitespace c then skipWhiteSpace cur' else cur
  end.

(** [Parser::skipDigit()]. *)
Fixpoint skipDigit (cur : cursor) : cursor :=
  match cur with
  | EmptyString => cur
  | String c cur' => if isdigit c then skipDigit cur' else cur
  end.

(** The characters the [switch] of [parseRawString] accepts after a
    backslash. *)
Definition escape_accepted (c : ascii) : bool :=
  Ascii.eqb c Ch.dquote || Ascii.eqb c Ch.backslash || Ascii.eqb c "/"
  || Ascii.eqb c "t" || Ascii.eqb c "r" || Ascii.eqb c "n"
  || Ascii.eqb c "u" || Ascii.eqb c "b" || Ascii.eqb c "f".

(** The [while (cur_ != end_)] loop of [parseRawString]: [cur_] when the
    loop is left. *)
Fixpoint parseRawString_loop (cur : cursor) : result cursor :=
  match cur with
  | EmptyString => Ok cur
  | String c cur1 =>
      if Ascii.eqb c Ch.backslash then
        match cur1 with
        | EmptyString => throw BAD_ESCAPE
        | String c' cur2 =>
            if escape_accepted c' then parseRawString_loop cur2
            else throw BAD_ESCAPE
        end
      else if Ascii.eqb c Ch.dquote then Ok cur1
      else parseRawString_loop cur1
  end.

(** [Parser::parseRawString()]. *)
Definition parseRawString (cur : cursor) : result (string * cursor) :=
  if negb (Ascii.eqb (deref cur) Ch.dquote) then throw BAD_KEY
  else
    let cur := next cur in
    let old_cur := cur in
    cur <- parseRawString_loop cur ;;
    if at_end cur then throw JSON_LENGTH
    else
      (* std::string(old_cur, cur_ - 1) *)
      Ok (make_string old_cur (distance old_cur cur - 1), cur).

(** [Parser::parseString()]. *)
Definition parseString (cur : cursor) : result (Value * cursor) :=
  '(str, cur) <- parseRawString cur ;;
  Ok (Value_of_type ValueType.String (v_string str), cur).

(** [Parser::parseBoolean()]. *)
Definition parseBoolean (cur : cursor) : result (Value * cursor) :=
  if Ascii.eqb (deref cur) "t" then
    let str := make_string cur 4 in
    if String.eqb str "true"
    then Ok (Value_of_type ValueType.Boolean (v_string str), advance 4 cur)
    else throw BAD_BOOLEAN
  else if Ascii.eqb (deref cur) "f" then
    let str := make_string cur 5 in
    if String.eqb str "false"
    then Ok (Value_of_type ValueType.Boolean (v_string str), advance 5 cur)
    else throw BAD_BOOLEAN
  else throw BAD_BOOLEAN.

(** [Parser::parseNull()]. *)
Definition parseNull (cur : cursor) : result (Value * cursor) :=
  let str := make_string cur 4 in
  if String.eqb str "null" then Ok (Value_default, advance 4 cur)
  else throw BAD_NULL.

(** [Parser::parseNumber()]. *)
Definition parseNumber (cur : cursor) : result (Value * cursor) :=
  let old_cur := cur in
  let cur := if Ascii.eqb (deref cur) "-" then next cur else cur in
  if negb (isdigit (deref cur)) then throw BAD_NUMBER
  else if negb (at_end cur) && Ascii.eqb (deref cur) "0"
          && negb (at_end (next cur)) && isdigit (deref (next cur))
  then throw BAD_NUMBER
  else
    let cur := skipDigit cur in
    if Ascii.eqb (deref cur) "." then
      let cur := next cur in
      let cur := skipDigit cur in
      Ok (Value_of_type ValueType.Number
            (v_string (make_string old_cur (distance old_cur cur))), cur)
    else if Ascii.eqb (deref cur) "e" || Ascii.eqb (deref cur) "E" then
      let cur := next cur in
      if at_end cur then throw BAD_NUMBER
      else
        let cur := if Ascii.eqb (deref cur) "+" || Ascii.eqb (deref cur) "-"
                   then next cur else cur in
        if negb (isdigit (deref cur)) then throw BAD_NUMBER
        else
          let cur := skipDigit cur in
          Ok (Value_of_type ValueType.Number
                (v_string (make_string old_cur (distance old_cur cur))), cur)
    else
      Ok (Value_of_type ValueType.Number
            (v_string (make_string old_cur (distance old_cur cur))), cur).

Section ParseContainers.
(** [Parser::parseValue()], as the containers call it. *)
Variable parseValue : cursor -> result (Value * cursor).

(** The [while (true)] loop of [parseObject] over the local
    [object_data]; [fuel] bounds its iterations. *)
Fixpoint parseObject_loop (fuel : nat) (cur : cursor) (object_data : Object)
  : result (Value * cursor) :=
  match fuel with
  | 0 => OutOfFuel
  | S fuel' =>
      let cur := skipWhiteSpace cur in
      '(key, cur) <- parseRawString cur ;;
      let cur := skipWhiteSpace cur in
      if negb (Ascii.eqb (deref cur) ":") then throw MISS_COLON
      else
        let cur := next cur in
        let cur := skipWhiteSpace cur in
        '(value, cur) <- parseValue cur ;;
        let cur := skipWhiteSpace cur in
        let object_data :=
          StdMap.emplace (unescapeJson key) value object_data in
        if Ascii.eqb (deref cur) "," then
          parseObject_loop fuel' (next cur) object_data
        else if Ascii.eqb (deref cur) "}" then
          Ok (Value_of_Object object_data, next cur)
        else throw LACK_COMMA_OR_BRACE
  end.

(** [Parser::parseObject()], entered with [*cur_ == '{']. *)
Definition parseObject_with (fuel : nat) (cur : cursor)
  : result (Value * cursor) :=
  let cur := next cur in
  let cur := skipWhiteSpace cur in
  if Ascii.eqb (deref cur) "}" then Ok (Value_of_Object [], next cur)
  else parseObject_loop fuel cur [].

(** The [while (true)] loop of [parseArray] over [array_data]. *)
Fixpoint parseArray_loop (fuel : nat) (cur : cursor) (array_data : Array)
  : result (Value * cursor) :=
  match fuel with
  | 0 => OutOfFuel
  | S fuel' =>
      let cur := skipWhiteSpace cur in
      '(value, cur) <- parseValue cur ;;
      let cur := skipWhiteSpace cur in
      let array_data := (array_data ++ [value])%list in
      if Ascii.eqb (deref cur) "," then
        parseArray_loop fuel' (next cur) array_data
      else if Ascii.eqb (deref cur) "]" then
        Ok (Value_of_Array array_data, next cur)
      else throw LACK_COMMA_OR_BRACKET
  end.

(** [Parser::parseArray()], entered with [*cur_ == '[']. *)
Definition parseArray_with (fuel : nat) (cur : cursor)
  : result (Value * cursor) :=
  let cur := next cur in
  let cur := skipWhiteSpace cur in
  if Ascii.eqb (deref cur) "]" then Ok (Value_of_Array [], next cur)
  else parseArray_loop fuel cur [].
End ParseContainers.

(** [Parser::parseValue()]; [fuel] bounds the nesting of containers and,
    inside each, the iterations of its loop. *)
Fixpoint parseValue (fuel : nat) (cur : cursor) : result (Value * cursor) :=
  match fuel with
  | 0 => OutOfFuel
  | S fuel' =>
      let c := deref cur in
      if Ascii.eqb c "t" || Ascii.eqb c "f" then parseBoolean cur
      else if Ascii.eqb c "n" then parseNull cur
      else if Ascii.eqb c Ch.dquote then parseString cur
      else if Ascii.eqb c "[" then parseArray_with (parseValue fuel') fuel' cur
      else if Ascii.eqb c "{" then parseObject_with (parseValue fuel') fuel' cur
      else if Ascii.eqb c "-" || isdigit c then parseNumber cur
      else throw BAD_VALUE
  end.

Definition parseObject (fuel : nat) : cursor -> result (Value * cursor) :=
  parseObject_with (parseValue fuel) fuel.

Definition parseArray (fuel : nat) : cursor -> result (Value * cursor) :=
  parseArray_with (parseValue fuel) fuel.

(** [Parser::parseStart()]. *)
Definition parseStart (fuel : nat) (cur : cursor) : result Value :=
  let cur := skipWhiteSpace cur in
  '(ret, cur) <-
     (if Ascii.eqb (deref cur) "{" then parseObject fuel cur
      else if Ascii.eqb (deref cur) "[" then parseArray fuel cur
      else throw NOT_JSON) ;;
  let cur := skipWhiteSpace cur in
  if negb (Ascii.eqb (deref cur) Ch.nul) then throw ROOT_NOT_ONE
  else Ok ret.

(** [Parser::parse(json_data)].  Every value and every loop iteration
    consumes at least one character, so the length of the text is fuel
    enough (see [parse_never_out_of_fuel]). *)
Definition parse (json_data : string) : result Value :=
  parseStart (String.length json_data) json_data.

(* ================================================================== *)
(** * Further operations of the containers and of Exception *)
(* ================================================================== *)

(** [object_data_[key]] of [std::map]: the value under [key] and the map
    afterwards; when no entry has the key, one is inserted at its place
    in key order with the value-initialised [dflt]. *)
Fixpoint StdMap_index {V : Type} (key : string) (dflt : V)
         (m : list (string * V)) : V * list (string * V) :=
  match m with
  | [] => (dflt, [(key, dflt)])
  | (k', v') :: m' =>
      match String.compare key k' with
      | Lt => (dflt, (key, dflt) :: (k', v') :: m')
      | Eq => (v', (k', v') :: m')
      | Gt => let (v, m'') := StdMap_index key dflt m' in (v, (k', v') :: m'')
      end
  end.

(** [object_data_.erase(key)]: the number of entries removed and the map
    afterwards. *)
Fixpoint StdMap_erase {V : Type} (key : string) (m : list (string * V))
  : nat * list (string * V) :=
  match m with
  | [] => (0, [])
  | (k', v') :: m' =>
      match String.compare key k' with
      | Lt => (0, (k', v') :: m')
      | Eq => (1, m')
      | Gt => let (n, m'') := StdMap_erase key m' in (n, (k', v') :: m'')
      end
  end.

(** [Object::operator[](key)]: the [Value] referred to and the object
    afterwards. *)
Definition Object_index (obj : Object) (key : string) : Value * Object :=
  StdMap_index key Value_default obj.

(** [Object::erase(key)]. *)
Definition Object_erase (obj : Object) (key : string) : nat * Object :=
  StdMap_erase key obj.

(** [Object::empty()] and [Array::empty()]. *)
Definition Object_empty (obj : Object) : bool :=
  match obj with [] => true | _ :: _ => false end.

Definition Array_empty (arr : Array) : bool :=
  match arr with [] => true | _ :: _ => false end.

(** [Value::operator[](const std::string &key)] is [to_object()[key]]:
    the [Value] referred to and [*this] afterwards. *)
Definition Value_index_key (v : Value) (key : string)
  : result (Value * Value) :=
  obj <- to_object v ;;
  let (x, obj') := Object_index obj key in
  Ok (x, mkValue (type_ v) (v_object_ptr (Some obj'))).

(** [Value::operator[](size_t idx)] is [to_array()[idx]]: the unchecked
    [operator[]] of [std::vector], undefined past the end. *)
Definition Value_index (v : Value) (idx : nat) : result Value :=
  arr <- to_array v ;;
  match nth_error arr idx with
  | Some x => Ok x
  | None => Undefined
  end.

(** [Exception::errorToStr()], which [what()] returns. *)
Definition errorToStr (err_ : ParseError) : string :=
  match err_ with
  | NOT_JSON => "format not json"
  | ROOT_NOT_ONE => "root not one"
  | MISS_COLON => "miss colon"
  | MISS_VALUE => "miss value"
  | LACK_COMMA_OR_BRACE => "lack ',' or '}'"
  | LACK_COMMA_OR_BRACKET => "lack ',' or ']'"
  | BAD_KEY => "bad key"
  | BAD_VALUE => "bad value"
  | JSON_LENGTH => "json format "
  | BAD_ESCAPE => "bad escape"
  | BAD_BOOLEAN => "bad boolean"
  | BAD_NULL => "bad null"
  | BAD_NUMBER => "bad number"
  | BAD_TYPE => "bad type"
  end.

(* ================================================================== *)
(** * Specification-side definitions *)
(* ================================================================== *)

(** What [escapeJson] computes, character by character. *)
Fixpoint escape_chars (s : string) : string :=
  match s with
  | EmptyString => EmptyString
  | String c s' =>
      match escape_switch c with
      | Some replaceIdx => escape_replaceStr replaceIdx ++ escape_chars s'
      | None => String c (escape_chars s')
      end
  end.

(** What [unescapeJson] computes: a backslash and the character after it
    (none at the very end) are replaced together. *)
Fixpoint unescape_chars (s : string) : string :=
  match s with
  | EmptyString => EmptyString
  | String c s' =>
      if Ascii.eqb c Ch.backslash then
        match s' with
        | EmptyString => unescape_replaceStr (unescape_switch Ch.nul)
        | String c' s'' =>
            unescape_replaceStr (unescape_switch c') ++ unescape_chars s''
        end
      else String c (unescape_chars s')
  end.

(** The seven control characters of the codec. *)
Definition recognized_control (c : ascii) : bool :=
  Ascii.eqb c Ch.newline || Ascii.eqb c Ch.tab || Ascii.eqb c Ch.backslash
  || Ascii.eqb c Ch.backspace || Ascii.eqb c Ch.cr || Ascii.eqb c Ch.dquote
  || Ascii.eqb c Ch.formfeed.

(** An ordinary character: neither a backslash nor a double quote. *)
Definition ordinary (c : ascii) : bool :=
  negb (Ascii.eqb c Ch.backslash) && negb (Ascii.eqb c Ch.dquote).

(** Every character of [s] satisfies [p]. *)
Fixpoint all_chars (p : ascii -> bool) (s : string) : bool :=
  match s with
  | EmptyString => true
  | String c s' => p c && all_chars p s'
  end.

(** The body of a string literal: no double quote outside an escape, and
    every backslash followed by an accepted character. *)
Fixpoint literal_body (raw : string) : bool :=
  match raw with
  | EmptyString => true
  | String c raw1 =>
      if Ascii.eqb c Ch.backslash then
        match raw1 with
        | EmptyString => false
        | String c' raw2 => escape_accepted c' && literal_body raw2
        end
      else negb (Ascii.eqb c Ch.dquote) && literal_body raw1
  end.

(** The tag agrees with the active alternative of the variant. *)
Definition tag_matches {V : Type} (type : ValueType.t) (d : value_t V) : bool :=
  match type, d with
  | (ValueType.Null | ValueType.Boolean | ValueType.Number | ValueType.String),
    v_string _ => true
  | ValueType.Array, v_array_ptr _ => true
  | ValueType.Object, v_object_ptr _ => true
  | _, _ => false
  end.

Definition synchronized (v : Value) : bool :=
  tag_matches (type_ v) (value_data_ v).

(** [synchronized] for a value and all the values it owns. *)
Fixpoint synchronized_deep (v : Value) : bool :=
  match v with
  | mkValue type d =>
      tag_matches type d &&
      match d with
      | v_string _ => true
      | v_array_ptr None => true
      | v_array_ptr (Some arr) => forallb synchronized_deep arr
      | v_object_ptr None => true
      | v_object_ptr (Some obj) =>
          forallb (fun kv => synchronized_deep (snd kv)) obj
      end
  end.

(** The values directly owned by a variant. *)
Definition owned (d : value_t Value) : list Value :=
  match d with
  | v_string _ => []
  | v_array_ptr None => []
  | v_array_ptr (Some arr) => arr
  | v_object_ptr None => []
  | v_object_ptr (Some obj) => map snd obj
  end.

(** The six characters [escapeJson] replaces. *)
Definition escaped_char (c : ascii) : bool :=
  Ascii.eqb c Ch.newline || Ascii.eqb c Ch.tab || Ascii.eqb c Ch.backslash
  || Ascii.eqb c Ch.backspace || Ascii.eqb c Ch.cr || Ascii.eqb c Ch.dquote.

(** The integer part of a number literal: one digit at least, and no
    digit after a leading 0. *)
Definition int_part (ds : string) : bool :=
  match ds with
  | EmptyString => false
  | String c ds' =>
      isdigit c && all_chars isdigit ds'
      && (negb (Ascii.eqb c "0") || at_end ds')
  end.

(** What may follow the integer part of a number literal: nothing, a
    dot and digits (none allowed), or an exponent mark, an optional sign
    and one digit at least. *)
Inductive number_tail : Type :=
| tail_none
| tail_fraction (fs : string)
| tail_exponent (upper : bool) (esign : option bool) (es : string).

Definition number_tail_ok (t : number_tail) : bool :=
  match t with
  | tail_none => true
  | tail_fraction fs => all_chars isdigit fs
  | tail_exponent _ _ es => negb (at_end es) && all_chars isdigit es
  end.

Definition number_tail_text (t : number_tail) : string :=
  match t with
  | tail_none => EmptyString
  | tail_fraction fs => "." ++ fs
  | tail_exponent upper esign es =>
      (if upper then "E" else "e")
      ++ match esign with
         | None => EmptyString
         | Some true => "+"
         | Some false => "-"
         end
      ++ es
  end.

(** The text of a number literal with its parts. *)
Definition number_text (neg : bool) (ds : string) (t : number_tail) : string :=
  (if neg then "-" else EmptyString) ++ ds ++ number_tail_text t.

(** Where a number literal ends: not before a digit, and, when it has
    neither fraction nor exponent, not before a dot or an exponent
    mark. *)
Definition number_ends (t : number_tail) (rest : string) : bool :=
  negb (isdigit (deref rest))
  && match t with
     | tail_none =>
         negb (Ascii.eqb (deref rest) "." || Ascii.eqb (deref rest) "e"
               || Ascii.eqb (deref rest) "E")
     | _ => true
     end.

(** No null pointer in a value, at any depth. *)
Fixpoint no_null (v : Value) : bool :=
  match v with
  | mkValue _ d =>
      match d with
      | v_string _ => true
      | v_array_ptr None => false
      | v_array_ptr (Some arr) => forallb no_null arr
      | v_object_ptr None => false
      | v_object_ptr (Some obj) => forallb (fun kv => no_null (snd kv)) obj
      end
  end.

(** Every object in a value, at any depth, has its keys strictly
    increasing. *)
Fixpoint keys_sorted (v : Value) : bool :=
  match v with
  | mkValue _ d =>
      match d with
      | v_string _ => true
      | v_array_ptr None => true
      | v_array_ptr (Some arr) => forallb keys_sorted arr
      | v_object_ptr None => true
      | v_object_ptr (Some obj) =>
          StdMap.sorted obj && forallb (fun kv => keys_sorted (snd kv)) obj
      end
  end.

(** No empty array and no empty object in a value, at any depth. *)
Fixpoint no_empty_container (v : Value) : bool :=
  match v with
  | mkValue _ d =>
      match d with
      | v_string _ => true
      | v_array_ptr None => true
      | v_array_ptr (Some arr) =>
          negb (Array_empty arr) && forallb no_empty_container arr
      | v_object_ptr None => true
      | v_object_ptr (Some obj) =>
          negb (Object_empty obj)
          && forallb (fun kv => no_empty_container (snd kv)) obj
      end
  end.

(** The values the parser can build, apart from empty containers: the
    default Null, the two Booleans, a Number holding a well-formed
    number text, a String holding a literal body, a non-empty Array of
    such values, and a non-empty Object of such values with its keys
    strictly increasing. *)
Inductive printable : Value -> Prop :=
| printable_null : printable Value_default
| printable_bool (b : bool) :
    printable (Value_of_type ValueType.Boolean
                 (v_string (if b then "true" else "false")))
| printable_number (neg : bool) (ds : string) (t : number_tail) :
    int_part ds = true -> number_tail_ok t = true ->
    printable (Value_of_type ValueType.Number
                 (v_string (number_text neg ds t)))
| printable_string (s : string) :
    literal_body s = true ->
    printable (Value_of_type ValueType.String (v_string s))
| printable_array (arr : Array) :
    arr <> [] ->
    (forall x, In x arr -> printable x) ->
    printable (Value_of_Array arr)
| printable_object (obj : Object) :
    obj <> [] ->
    StdMap.sorted obj = true ->
    (forall x, In x (map snd obj) -> printable x) ->
    printable (Value_of_Object obj).

(** What follows a value inside a container that [to_string] wrote: a
    comma or a closing bracket. *)
Definition delimiter (rest : string) : bool :=
  Ascii.eqb (deref rest) "," || Ascii.eqb (deref rest) "]"
  || Ascii.eqb (deref rest) "}".

(** The texts of the elements of an array as [Array::to_string] joins
    them, and the members of an object as [Object::to_string] does. *)
Fixpoint join_comma (ts : list string) : string :=
  match ts with
  | [] => EmptyString
  | [t] => t
  | t :: ts' => t ++ "," ++ join_comma ts'
  end.

(** The same texts, each followed by a comma, as the loops of
    [to_string] append them. *)
Fixpoint concat_comma (ts : list string) : string :=
  match ts with
  | [] => EmptyString
  | t :: ts' => t ++ "," ++ concat_comma ts'
  end.

Definition member_text (key text : string) : string :=
  str1 Ch.dquote ++ escapeJson key ++ str1 Ch.dquote ++ ":" ++ text.

Fixpoint member_texts (obj : Object) (ts : list string) : list string :=
  match obj, ts with
  | (key, _) :: obj', t :: ts' => member_text key t :: member_texts obj' ts'
  | _, _ => []
  end.

(** [text] followed by a delimiter (by anything, for an array or an
    object) is read back by [parseValue] as [v], up to the end of
    [text]. *)
Definition reads_back (v : Value) (text : string) : Prop :=
  forall fuel rest,
    delimiter rest = true \/ isArray v || isObject v = true ->
    String.length (text ++ rest) < fuel ->
    parseValue fuel (text ++ rest) = Ok (v, rest).

(** [to_string] returns a text for [v] that is read back as [v], inside
    a container and, when [v] is an array or an object, as a whole
    document as well. *)
Definition round_trips (v : Value) : Prop :=
  exists text,
    Value_to_string v = Ok text
    /\ reads_back v text
    /\ (isArray v || isObject v = true -> parse text = Ok v).

(** The double quote as a string, and a backslash as a string. *)
Definition q : string := str1 Ch.dquote.
Definition bs : string := str1 Ch.backslash.

(** What a parsing function may do on a cursor with [bound] characters
    left: return a value that is synchronized throughout, with fewer
    characters left, or throw one of the library's errors other than
    [MISS_VALUE]. *)
Definition parsed (bound : nat) (r : result (Value * cursor)) : Prop :=
  match r with
  | Ok (v, cur') =>
      String.length cur' < bound /\ synchronized_deep v = true
  | Throw (Exception err) => err <> MISS_VALUE
  | Throw _ => False
  | Undefined => False
  | OutOfFuel => False
  end.

(** What [parse] may do: return a value synchronized throughout, or
    throw one of the library's errors other than [MISS_VALUE]. *)
Definition parse_outcome (r : result Value) : Prop :=
  match r with
  | Ok v => synchronized_deep v = true
  | Throw (Exception err) => err <> MISS_VALUE
  | Throw _ => False
  | Undefined => False
  | OutOfFuel => False
  end.

(** Structural induction on [Value], with the hypothesis available for
    every element of an owned container. *)
Definition Value_ind'
  (P : Value -> Prop)
  (Hstring : forall type s, P (mkValue type (v_string s)))
  (Harray_null : forall type, P (mkValue type (v_array_ptr None)))
  (Harray : forall type arr, Forall P arr ->
                             P (mkValue type (v_array_ptr (Some arr))))
  (Hobject_null : forall type, P (mkValue type (v_object_ptr None)))
  (Hobject : forall type obj, Forall (fun kv => P (snd kv)) obj ->
                              P (mkValue type (v_object_ptr (Some obj))))
  : forall v, P v :=
  fix rec (v : Value) : P v :=
    match v with
    | mkValue type d =>
        match d return P (mkValue type d) with
        | v_string s => Hstring type s
        | v_array_ptr None => Harray_null type
        | v_array_ptr (Some arr) =>
            Harray type arr
              ((fix elems (l : list Value) : Forall P l :=
                  match l with
                  | [] => Forall_nil P
                  | x :: l' => Forall_cons x (rec x) (elems l')
                  end) arr)
        | v_object_ptr None => Hobject_null type
        | v_object_ptr (Some obj) =>
            Hobject type obj
              ((fix entries (l : list (string * Value))
                 : Forall (fun kv => P (snd kv)) l :=
                  match l with
                  | [] => Forall_nil _
                  | kv :: l' =>
                      Forall_cons (P := fun kv => P (snd kv)) kv
                                  (rec (snd kv)) (entries l')
                  end) obj)
        end
    end.

Ltac break_if :=
  match goal with
  | |- context [if ?b then _ else _] => destruct b eqn:?
  end.

Ltac break_result H :=
  match type of H with
  | context [bind ?r _] =>
      lazymatch r with
      | bind _ _ => fail
      | _ => destruct r eqn:?; simpl in H; try discriminate H
      end
  end.

(* ================================================================== *)
(** * Strings *)
(* ================================================================== *)

Lemma append_nil_r (s : string) : s ++ EmptyString = s.
Proof. induction s as [|c s IH]; simpl; [reflexivity | now rewrite IH]. Qed.

Lemma append_assoc (a b c : string) : (a ++ b) ++ c = a ++ (b ++ c).
Proof. induction a as [|x a IH]; simpl; [reflexivity | now rewrite IH]. Qed.

Lemma length_append (a b : string) :
  String.length (a ++ b) = String.length a + String.length b.
Proof. induction a as [|x a IH]; simpl; [reflexivity | now rewrite IH]. Qed.

Lemma take_append (a b : string) : StdString.take (String.length a) (a ++ b) = a.
Proof. induction a as [|x a IH]; simpl; [now destruct b | now rewrite IH]. Qed.

Lemma drop_append (a b : string) : StdString.drop (String.length a) (a ++ b) = b.
Proof. induction a as [|x a IH]; simpl; [reflexivity | exact IH]. Qed.

Lemma drop_append_plus (a b : string) (n : nat) :
  StdString.drop (String.length a + n) (a ++ b) = StdString.drop n b.
Proof. induction a as [|x a IH]; simpl; [reflexivity | exact IH]. Qed.

Lemma at_index_append (a b : string) :
  StdString.at_index (a ++ b) (String.length a) = deref b.
Proof.
  unfold StdString.at_index.
  induction a as [|x a IH]; simpl; [now destruct b | exact IH].
Qed.

Lemma at_index_append_S (a : string) (c : ascii) (b : string) :
  StdString.at_index (a ++ String c b) (String.length a + 1) = deref b.
Proof.
  unfold StdString.at_index.
  induction a as [|x a IH]; simpl; [now destruct b | exact IH].
Qed.

Lemma replace_append (a b r : string) (count : nat) :
  StdString.replace (a ++ b) (String.length a) count r
  = a ++ r ++ StdString.drop count b.
Proof.
  unfold StdString.replace.
  now rewrite take_append, drop_append_plus.
Qed.

Lemma take_drop (n : nat) (s : string) :
  StdString.take n s ++ StdString.drop n s = s.
Proof.
  revert s; induction n as [|n IH]; intros [|c s]; simpl; auto.
  now rewrite IH.
Qed.

(* ================================================================== *)
(** * The escape codec *)
(* ================================================================== *)

Lemma escape_replaceStr_length (c : ascii) (i : nat) :
  escape_switch c = Some i -> String.length (escape_replaceStr i) = 2.
Proof.
  unfold escape_switch.
  repeat match goal with
         | |- context [if ?b then _ else _] => destruct b
         end; intros H; inversion H; reflexivity.
Qed.

Lemma unescape_replaceStr_length (c : ascii) :
  String.length (unescape_replaceStr (unescape_switch c)) = 1.
Proof.
  unfold unescape_switch.
  repeat match goal with
         | |- context [if ?b then _ else _] => destruct b
         end; reflexivity.
Qed.

(** The index loop of [escapeJson], started at the end of an already
    processed prefix, rewrites the rest as [escape_chars] does, and has
    reached the end of the buffer when its fuel covers the rest. *)
Lemma escapeJson_loop_spec (fuel : nat) :
  forall pre rest : string,
    String.length rest <= fuel ->
    escapeJson_loop fuel (pre ++ rest) (String.length pre)
    = pre ++ escape_chars rest.
Proof.
  induction fuel as [|fuel IH]; intros pre rest Hlen.
  - destruct rest; simpl in Hlen; [reflexivity | lia].
  - simpl. rewrite length_append.
    destruct rest as [|c rest].
    + simpl. replace (String.length pre + 0) with (String.length pre) by lia.
      now rewrite Nat.ltb_irrefl.
    + simpl in Hlen.
      assert (Hlt : (String.length pre <? String.length pre
                                          + String.length (String c rest))%nat = true)
        by (apply Nat.ltb_lt; simpl; lia).
      rewrite Hlt, at_index_append. simpl deref. simpl escape_chars.
      destruct (escape_switch c) as [i|] eqn:Hsw.
      * rewrite replace_append. simpl StdString.drop.
        pose proof (escape_replaceStr_length c i Hsw) as Hr.
        replace (String.length pre + 1 + 1)
          with (String.length (pre ++ escape_replaceStr i))
          by (rewrite length_append; lia).
        rewrite <- append_assoc, IH by lia.
        now rewrite append_assoc.
      * replace (String.length pre + 1)
          with (String.length (pre ++ str1 c))
          by (rewrite length_append; reflexivity).
        replace (pre ++ String c rest) with ((pre ++ str1 c) ++ rest)
          by (now rewrite append_assoc).
        rewrite IH by lia. now rewrite append_assoc.
Qed.

Lemma escapeJson_spec (str : string) : escapeJson str = escape_chars str.
Proof.
  unfold escapeJson.
  exact (escapeJson_loop_spec (String.length str) EmptyString str (le_n _)).
Qed.

Lemma unescapeJson_loop_spec (fuel : nat) :
  forall pre rest : string,
    String.length rest <= fuel ->
    unescapeJson_loop fuel (pre ++ rest) (String.length pre)
    = pre ++ unescape_chars rest.
Proof.
  induction fuel as [|fuel IH]; intros pre rest Hlen.
  - destruct rest; simpl in Hlen; [reflexivity | lia].
  - simpl. rewrite length_append.
    destruct rest as [|c rest].
    + simpl. replace (String.length pre + 0) with (String.length pre) by lia.
      now rewrite Nat.ltb_irrefl.
    + simpl in Hlen.
      assert (Hlt : (String.length pre <? String.length pre
                                          + String.length (String c rest))%nat = true)
        by (apply Nat.ltb_lt; simpl; lia).
      rewrite Hlt, at_index_append. simpl deref. simpl unescape_chars.
      destruct (Ascii.eqb c Ch.backslash) eqn:Hc; simpl negb; cbv iota.
      * rewrite at_index_append_S, replace_append.
        destruct rest as [|c' rest]; simpl deref; simpl StdString.drop.
        -- pose proof (unescape_replaceStr_length Ch.nul) as Hr.
           replace (String.length pre + 1)
             with (String.length (pre ++ unescape_replaceStr (unescape_switch Ch.nul)))
             by (rewrite length_append; lia).
           rewrite <- append_assoc, IH by (simpl; lia).
           simpl unescape_chars. now rewrite append_nil_r.
        -- pose proof (unescape_replaceStr_length c') as Hr.
           replace (String.length pre + 1)
             with (String.length (pre ++ unescape_replaceStr (unescape_switch c')))
             by (rewrite length_append; lia).
           rewrite <- append_assoc, IH by (simpl in Hlen; lia).
           now rewrite append_assoc.
      * replace (String.length pre + 1)
          with (String.length (pre ++ str1 c))
          by (rewrite length_append; reflexivity).
        replace (pre ++ String c rest) with ((pre ++ str1 c) ++ rest)
          by (now rewrite append_assoc).
        rewrite IH by lia. now rewrite append_assoc.
Qed.

Lemma unescapeJson_spec (str : string) : unescapeJson str = unescape_chars str.
Proof.
  unfold unescapeJson.
  exact (unescapeJson_loop_spec (String.length str) EmptyString str (le_n _)).
Qed.

(** One character through [escapeJson] and back. *)
Lemma unescape_escape_char (c : ascii) (s : string) :
  unescape_chars
    (match escape_switch c with
     | Some replaceIdx => escape_replaceStr replaceIdx ++ s
     | None => String c s
     end)
  = String c (unescape_chars s).
Proof.
  destruct c as [[] [] [] [] [] [] [] []]; reflexivity.
Qed.

Lemma unescape_escape_chars (s : string) :
  unescape_chars (escape_chars s) = s.
Proof.
  induction s as [|c s IH]; [reflexivity |].
  simpl escape_chars.
  pose proof (unescape_escape_char c (escape_chars s)) as H.
  destruct (escape_switch c); rewrite H, IH; reflexivity.
Qed.

(** Every character is ordinary or one of the seven: the domain of the
    round-trip law is every string. *)
Lemma ordinary_or_control (c : ascii) :
  ordinary c || recognized_control c = true.
Proof.
  destruct c as [[] [] [] [] [] [] [] []]; reflexivity.
Qed.

(** C5. For every string [s] made only of ordinary characters (neither a
    backslash nor a double quote) and of the seven recognized control
    characters (newline, tab, backslash, backspace, carriage return,
    double quote, form feed), [unescapeJson (escapeJson s) = s]. *)
Theorem unescapeJson_escapeJson (s : string) :
  all_chars (fun c => ordinary c || recognized_control c) s = true ->
  unescapeJson (escapeJson s) = s.
Proof.
  intros _.
  rewrite escapeJson_spec, unescapeJson_spec.
  apply unescape_escape_chars.
Qed.

Lemma unescapeJson_escapeJson_witness :
  let s := "key" ++ str1 Ch.newline ++ str1 Ch.tab ++ bs
           ++ str1 Ch.backspace ++ str1 Ch.cr ++ q ++ str1 Ch.formfeed ++ " z" in
  escapeJson s = "key" ++ bs ++ "n" ++ bs ++ "t" ++ bs ++ bs ++ bs ++ "b"
                 ++ bs ++ "r" ++ bs ++ q ++ str1 Ch.formfeed ++ " z"
  /\ unescapeJson (escapeJson s) = s.
Proof.
  split; [reflexivity |].
  apply unescapeJson_escapeJson. reflexivity.
Defined.

(* ================================================================== *)
(** * Copies *)
(* ================================================================== *)

Lemma mapM_id {A : Type} (f : A -> result A) (l : list A) :
  Forall (fun a => forall b, f a = Ok b -> b = a) l ->
  forall l', mapM f l = Ok l' -> l' = l.
Proof.
  induction 1 as [|a l Ha Hl IH]; simpl; intros l' H.
  - now inversion H.
  - break_result H. break_result H. inversion H; subst.
    f_equal; [now apply Ha | now apply IH].
Qed.

(** A copy that returns is equal to its source. *)
Lemma Value_copy_eq (rhs : Value) :
  forall v, Value_copy rhs = Ok v -> v = rhs.
Proof.
  induction rhs as [type s | type | type arr IH | type | type obj IH]
    using Value_ind'; simpl; intros v H; try discriminate H.
  - now inversion H.
  - unfold Array_copy in H. break_result H. inversion H; subst.
    now rewrite (mapM_id _ _ IH _ Heqr).
  - unfold Object_copy in H. break_result H. inversion H; subst.
    enough (a = obj) by now subst.
    eapply mapM_id; [| exact Heqr].
    clear -IH. induction IH as [|[k x] l Hx Hl IHl]; constructor; auto.
    simpl in *. intros [k' x'] H.
    destruct (Value_copy x) as [x''| | |] eqn:Hcopy; simpl in H;
      try discriminate H.
    inversion H; subst. now rewrite (Hx _ eq_refl).
Qed.

Lemma mapM_total {A : Type} (f : A -> result A) (l : list A) :
  Forall (fun a => f a = Ok a) l -> mapM f l = Ok l.
Proof.
  induction 1 as [|a l Ha Hl IH]; simpl; [reflexivity |].
  now rewrite Ha, IH.
Qed.

(** The copy constructor returns on every value without a null
    pointer. *)
Lemma Value_copy_no_null (rhs : Value) :
  no_null rhs = true -> Value_copy rhs = Ok rhs.
Proof.
  induction rhs as [type s | type | type arr IH | type | type obj IH]
    using Value_ind'; intros Hnull; try discriminate Hnull;
    try reflexivity.
  - simpl in *. unfold Array_copy.
    rewrite (mapM_total Value_copy arr); [reflexivity |].
    rewrite Forall_forall in *. rewrite forallb_forall in Hnull. auto.
  - simpl in *. unfold Object_copy.
    rewrite (mapM_total _ obj); [reflexivity |].
    rewrite Forall_forall in *. rewrite forallb_forall in Hnull.
    intros [k x] Hx. pose proof (IH (k, x) Hx (Hnull _ Hx)) as Hkx.
    simpl in *. now rewrite Hkx.
Qed.

Lemma deepCopy_no_null (r : Value) :
  no_null r = true -> deepCopy (value_data_ r) = Ok (value_data_ r).
Proof.
  intros H. apply Value_copy_no_null in H.
  destruct r as [type d]. cbn [Value_copy value_data_] in *.
  unfold deepCopy.
  destruct (deepCopy_with Value_copy d) as [d'| | |]; cbn [bind] in H;
    try discriminate H.
  now injection H as ->.
Qed.

(* ================================================================== *)
(** * Objects in memory *)
(* ================================================================== *)

Lemma nth_error_replace_nth_same {A : Type} (l : list A) (n : nat) (x y : A) :
  nth_error l n = Some y -> nth_error (replace_nth l n x) n = Some x.
Proof.
  revert n. induction l as [|a l IH]; intros [|n]; simpl;
    try discriminate; auto.
Qed.

Lemma nth_error_replace_nth_other {A : Type} (l : list A) (n m : nat) (x : A) :
  n <> m -> nth_error (replace_nth l n x) m = nth_error l m.
Proof.
  revert n m. induction l as [|a l IH]; intros [|n] [|m] H; simpl;
    try reflexivity; [congruence | apply IH; congruence].
Qed.

Lemma forallb_replace_nth {A : Type} (f : A -> bool) (l : list A) (n : nat)
      (x : A) :
  forallb f l = true -> f x = true -> forallb f (replace_nth l n x) = true.
Proof.
  revert n. induction l as [|a l IH]; intros n Hl Hx; [reflexivity |].
  simpl in Hl. apply andb_true_iff in Hl as [Ha Hl].
  destruct n as [|n]; simpl; [rewrite Hx | rewrite Ha]; simpl; auto.
Qed.

Lemma forallb_nth_error_false {A : Type} (f : A -> bool) (l : list A)
      (n : nat) (x : A) :
  nth_error l n = Some x -> f x = false -> forallb f l = false.
Proof.
  revert n. induction l as [|a l IH]; intros [|n] H Hx; simpl in *;
    try discriminate H.
  - injection H as ->. now rewrite Hx.
  - rewrite (IH n H Hx). apply andb_false_r.
Qed.

Lemma find_replace_same {V : Type} (k : string) (x y : V)
      (m : list (string * V)) :
  StdMap.find k m = Some y -> StdMap.find k (StdMap_replace k x m) = Some x.
Proof.
  induction m as [|[k0 v0] m IH]; simpl; [discriminate |].
  destruct (String.compare k k0) eqn:Hc; simpl; rewrite ?Hc;
    try discriminate; auto.
Qed.

Lemma find_replace_other {V : Type} (k k' : string) (x : V)
      (m : list (string * V)) :
  k' <> k -> StdMap.find k' (StdMap_replace k x m) = StdMap.find k' m.
Proof.
  intros Hne. induction m as [|[k0 v0] m IH]; simpl; [reflexivity |].
  destruct (String.compare k k0) eqn:Hc; simpl; try reflexivity.
  - apply String.compare_eq_iff in Hc. subst k0.
    destruct (String.compare k' k) eqn:Hc'; try reflexivity.
    now apply String.compare_eq_iff in Hc'.
  - now rewrite IH.
Qed.

Lemma step_eqb_eq (s t : step) : step_eqb s t = true -> s = t.
Proof.
  destruct s as [i|k], t as [j|l]; simpl; try discriminate.
  - intros H. apply Nat.eqb_eq in H. now subst.
  - intros H. apply String.eqb_eq in H. now subst.
Qed.

Lemma step_eqb_refl (s : step) : step_eqb s s = true.
Proof.
  destruct s as [i|k]; simpl; [apply Nat.eqb_refl | apply String.eqb_refl].
Qed.

(** A write goes through wherever a read does. *)
Lemma Value_set_total (p : list step) :
  forall v x f, Value_get v p = Some x ->
                exists v', Value_set v p f = Some v'.
Proof.
  induction p as [|[idx|key] p IH]; intros v x f H; simpl in *.
  - eauto.
  - destruct (value_data_ v) as [s | [arr|] | o]; try discriminate H.
    destruct (nth_error arr idx) as [y|]; [| discriminate H].
    destruct (IH _ _ f H) as [y' ->]. eauto.
  - destruct (value_data_ v) as [s | a | [obj|]]; try discriminate H.
    destruct (StdMap.find key obj) as [y|]; [| discriminate H].
    destruct (IH _ _ f H) as [y' ->]. eauto.
Qed.

(** What was written is what is read back at the same place. *)
Lemma Value_get_set_same (p : list step) :
  forall v v' x f,
    Value_get v p = Some x -> Value_set v p f = Some v' ->
    Value_get v' p = Some (f x).
Proof.
  induction p as [|[idx|key] p IH]; intros v v' x f Hget Hset;
    simpl in *.
  - injection Hget as ->. now injection Hset as <-.
  - destruct (value_data_ v) as [s | [arr|] | o]; try discriminate Hget.
    destruct (nth_error arr idx) as [y|] eqn:Hy; [| discriminate Hget].
    destruct (Value_set y p f) as [y'|] eqn:Hy'; [| discriminate Hset].
    injection Hset as <-. cbn [value_data_].
    rewrite (nth_error_replace_nth_same arr idx y' y Hy). eauto.
  - destruct (value_data_ v) as [s | a | [obj|]]; try discriminate Hget.
    destruct (StdMap.find key obj) as [y|] eqn:Hy; [| discriminate Hget].
    destruct (Value_set y p f) as [y'|] eqn:Hy'; [| discriminate Hset].
    injection Hset as <-. cbn [value_data_].
    rewrite (find_replace_same key y' y obj Hy). eauto.
Qed.

(** Writing the tag of [r] into the object at [p] leaves what is read
    at [q] as it was, unless the object at [p] is strictly inside the
    one at [q]. *)
Lemma Value_get_set_type (p : list step) :
  forall q v v1 r,
    proper_prefix q p = false ->
    Value_set v p (fun x => mkValue (type_ r) (value_data_ x)) = Some v1 ->
    Value_get v q = Some r ->
    Value_get v1 q = Some r.
Proof.
  induction p as [|s p IH]; intros q v v1 r Hpre Hset Hget.
  - cbn [Value_set] in Hset. injection Hset as <-.
    destruct q as [|t q].
    + cbn [Value_get] in *. injection Hget as ->. now destruct r.
    + destruct t; cbn [Value_get value_data_] in *; exact Hget.
  - destruct q as [|t q]; [discriminate Hpre |].
    cbn [proper_prefix] in Hpre.
    destruct s as [i|k], t as [j|l]; cbn [Value_set Value_get] in *;
      destruct (value_data_ v) as [str | [arr|] | [obj|]];
      try discriminate Hset; try discriminate Hget.
    + destruct (nth_error arr i) as [y|] eqn:Hy; [| discriminate Hset].
      destruct (Value_set y p _) as [y'|] eqn:Hy'; [| discriminate Hset].
      injection Hset as <-. cbn [value_data_].
      destruct (Nat.eq_dec i j) as [<- | Hij].
      * rewrite Hy in Hget.
        rewrite (nth_error_replace_nth_same arr i y' y Hy).
        cbn [step_eqb] in Hpre. rewrite Nat.eqb_refl in Hpre.
        exact (IH q y y' r Hpre Hy' Hget).
      * now rewrite (nth_error_replace_nth_other arr i j y' Hij).
    + destruct (StdMap.find k obj) as [y|] eqn:Hy; [| discriminate Hset].
      destruct (Value_set y p _) as [y'|] eqn:Hy'; [| discriminate Hset].
      injection Hset as <-. cbn [value_data_].
      destruct (string_dec k l) as [<- | Hkl].
      * rewrite Hy in Hget.
        rewrite (find_replace_same k y' y obj Hy).
        cbn [step_eqb] in Hpre. rewrite String.eqb_refl in Hpre.
        exact (IH q y y' r Hpre Hy' Hget).
      * rewrite (find_replace_other k l y' obj); [exact Hget | congruence].
Qed.

Lemma load_Ok (mem : memory) (r : reference) (x : Value) :
  load mem r = Ok x ->
  exists v, nth_error mem (ref_var r) = Some v
            /\ Value_get v (ref_path r) = Some x.
Proof.
  unfold load. destruct (nth_error mem (ref_var r)) as [v|]; [| discriminate].
  destruct (Value_get v (ref_path r)) as [y|] eqn:Hy; [| discriminate].
  intros [= ->]. eauto.
Qed.

(* ================================================================== *)
(** * The serializer *)
(* ================================================================== *)

(** C2. Serializing an empty container: [Object::to_string] renders an
    empty object, and [Array::to_string] an empty array, by removing the
    last character of the text built so far, which is then the opening
    bracket; what is returned is the closing bracket alone, also for
    the values [parse] builds from the two empty containers.  With an
    element in it, the character removed is the comma after the last
    element and the source text is reproduced. *)
Theorem empty_container_to_string :
  Object_to_string [] = Ok "}"
  /\ Array_to_string [] = Ok "]"
  /\ (v <- parse "{}" ;; Value_to_string v) = Ok "}"
  /\ (v <- parse "[]" ;; Value_to_string v) = Ok "]"
  /\ (v <- parse "[1,[2]]" ;; Value_to_string v) = Ok "[1,[2]]".
Proof. repeat split. Qed.

(* ================================================================== *)
(** * The cursor *)
(* ================================================================== *)

Lemma skipWhiteSpace_length (cur : cursor) :
  String.length (skipWhiteSpace cur) <= String.length cur.
Proof.
  induction cur as [|c cur IH]; simpl; [lia |].
  destruct (is_whitespace c); simpl; lia.
Qed.

Lemma skipDigit_length (cur : cursor) :
  String.length (skipDigit cur) <= String.length cur.
Proof.
  induction cur as [|c cur IH]; simpl; [lia |].
  destruct (isdigit c); simpl; lia.
Qed.

Lemma skipDigit_progress (cur : cursor) :
  isdigit (deref cur) = true ->
  String.length (skipDigit cur) < String.length cur.
Proof.
  destruct cur as [|c cur]; simpl; [discriminate |].
  intros ->. pose proof (skipDigit_length cur). lia.
Qed.

Lemma next_length (cur : cursor) :
  String.length (next cur) <= String.length cur.
Proof. destruct cur; cbn; lia. Qed.

Lemma next_progress (cur : cursor) :
  at_end cur = false -> String.length (next cur) < String.length cur.
Proof. destruct cur; cbn; [discriminate | lia]. Qed.

Lemma deref_not_at_end (cur : cursor) (c : ascii) :
  Ascii.eqb (deref cur) c = true -> Ascii.eqb c Ch.nul = false ->
  at_end cur = false.
Proof.
  intros H Hc. destruct cur; [| reflexivity].
  cbn [deref] in H. apply Ascii.eqb_eq in H. subst c. discriminate Hc.
Qed.

Lemma skipWhiteSpace_stops (cur : cursor) :
  is_whitespace (deref (skipWhiteSpace cur)) = false.
Proof.
  induction cur as [|c cur IH]; simpl; [reflexivity |].
  destruct (is_whitespace c) eqn:Hc; [exact IH | exact Hc].
Qed.

Lemma skipWhiteSpace_append (ws rest : string) :
  all_chars is_whitespace ws = true ->
  skipWhiteSpace (ws ++ rest) = skipWhiteSpace rest.
Proof.
  induction ws as [|c ws IH]; simpl; [reflexivity |].
  intros H. apply andb_true_iff in H as [-> H]. auto.
Qed.

Lemma make_string_eqb (cur lit : string) :
  String.eqb (make_string cur (String.length lit)) lit = true ->
  cur = lit ++ advance (String.length lit) cur.
Proof.
  intros H. apply String.eqb_eq in H.
  unfold make_string, advance in *.
  rewrite <- H at 1. symmetry. apply take_drop.
Qed.

(* ================================================================== *)
(** * The parser returns or throws, and consumes what it accepts *)
(* ================================================================== *)

Lemma parsed_le (n m : nat) (r : result (Value * cursor)) :
  n <= m -> parsed n r -> parsed m r.
Proof.
  destruct r as [[v cur]| | |]; simpl; auto. intros ? []; split; [lia | auto].
Qed.

Lemma parsed_throw (bound : nat) (err : ParseError) :
  err <> MISS_VALUE -> parsed bound (throw err).
Proof. exact (fun H => H). Qed.

Lemma parseRawString_loop_progress (n : nat) :
  forall cur cur',
    String.length cur <= n ->
    parseRawString_loop cur = Ok cur' ->
    String.length cur' <= String.length cur.
Proof.
  induction n as [|n IH]; intros cur cur' Hn H.
  - destruct cur; simpl in *; [inversion H; simpl; lia | lia].
  - destruct cur as [|c cur1]; simpl in *; [inversion H; simpl; lia |].
    destruct (Ascii.eqb c Ch.backslash).
    + destruct cur1 as [|c' cur2]; [discriminate H |].
      destruct (escape_accepted c'); [| discriminate H].
      simpl in Hn. apply IH in H; simpl; lia.
    + destruct (Ascii.eqb c Ch.dquote).
      * inversion H; subst. lia.
      * apply IH in H; lia.
Qed.

Lemma parseRawString_loop_throws (n : nat) :
  forall cur,
    String.length cur <= n ->
    match parseRawString_loop cur with
    | Ok _ => True
    | Throw e => e = Exception BAD_ESCAPE
    | _ => False
    end.
Proof.
  induction n as [|n IH]; intros cur Hn.
  - destruct cur; simpl in *; [exact I | lia].
  - destruct cur as [|c cur1]; simpl in *; [exact I |].
    destruct (Ascii.eqb c Ch.backslash).
    + destruct cur1 as [|c' cur2]; [reflexivity |].
      destruct (escape_accepted c'); [| reflexivity].
      simpl in Hn. apply IH; lia.
    + destruct (Ascii.eqb c Ch.dquote); [exact I | apply IH; lia].
Qed.

(** [parseRawString] returns with fewer characters left, or throws
    [BAD_KEY], [BAD_ESCAPE] or [JSON_LENGTH]. *)
Lemma parseRawString_outcome (cur : cursor) :
  match parseRawString cur with
  | Ok (_, cur') => String.length cur' < String.length cur
  | Throw e =>
      e = Exception BAD_KEY \/ e = Exception BAD_ESCAPE
      \/ e = Exception JSON_LENGTH
  | _ => False
  end.
Proof.
  unfold parseRawString.
  destruct (Ascii.eqb (deref cur) Ch.dquote) eqn:Hq; simpl; [| now left].
  pose proof (deref_not_at_end _ _ Hq eq_refl) as Hne.
  pose proof (next_progress _ Hne) as Hnext.
  pose proof (parseRawString_loop_throws _ (next cur) (le_n _)) as Hthrow.
  destruct (parseRawString_loop (next cur)) as [cur'| e | |] eqn:Hloop;
    simpl; try contradiction.
  - apply (parseRawString_loop_progress _ _ _ (le_n _)) in Hloop.
    destruct (at_end cur'); [now right; right | lia].
  - now right; left.
Qed.

Lemma parseString_parsed (cur : cursor) :
  parsed (String.length cur) (parseString cur).
Proof.
  unfold parseString.
  pose proof (parseRawString_outcome cur) as H.
  destruct (parseRawString cur) as [[str cur']| e | |]; simpl;
    try contradiction.
  - split; [exact H | reflexivity].
  - destruct H as [-> | [-> | ->]]; discriminate.
Qed.

Lemma parseBoolean_parsed (cur : cursor) :
  parsed (String.length cur) (parseBoolean cur).
Proof.
  unfold parseBoolean.
  repeat break_if; try (apply parsed_throw; discriminate).
  - apply (make_string_eqb cur "true") in Heqb0.
    simpl; split; [| reflexivity].
    rewrite Heqb0 at 2. rewrite length_append. simpl. lia.
  - apply (make_string_eqb cur "false") in Heqb1.
    simpl; split; [| reflexivity].
    rewrite Heqb1 at 2. rewrite length_append. simpl. lia.
Qed.

Lemma parseNull_parsed (cur : cursor) :
  parsed (String.length cur) (parseNull cur).
Proof.
  unfold parseNull.
  break_if; try (apply parsed_throw; discriminate).
  apply (make_string_eqb cur "null") in Heqb.
  simpl; split; [| reflexivity].
  rewrite Heqb at 2. rewrite length_append. simpl. lia.
Qed.

Lemma parseNumber_parsed (cur : cursor) :
  parsed (String.length cur) (parseNumber cur).
Proof.
  unfold parseNumber.
  set (cur1 := if Ascii.eqb (deref cur) "-" then next cur else cur).
  assert (H1 : String.length cur1 <= String.length cur)
    by (subst cur1; destruct (Ascii.eqb (deref cur) "-");
        [apply next_length | lia]).
  destruct (isdigit (deref cur1)) eqn:Hd; cbn [negb];
    [| apply parsed_throw; discriminate].
  pose proof (skipDigit_progress _ Hd) as H2.
  break_if; [apply parsed_throw; discriminate |].
  break_if.
  { simpl; split; [| reflexivity].
    pose proof (skipDigit_length (next (skipDigit cur1))).
    pose proof (next_length (skipDigit cur1)). lia. }
  break_if; [| simpl; split; [lia | reflexivity]].
  break_if; [apply parsed_throw; discriminate |].
  pose proof (next_length (skipDigit cur1)).
  pose proof (next_length (next (skipDigit cur1))).
  destruct (Ascii.eqb (deref (next (skipDigit cur1))) "+"
            || Ascii.eqb (deref (next (skipDigit cur1))) "-");
    (break_if; [apply parsed_throw; discriminate |]);
    (split; [| reflexivity]).
  - pose proof (skipDigit_length (next (next (skipDigit cur1)))). lia.
  - pose proof (skipDigit_length (next (skipDigit cur1))). lia.
Qed.

Lemma forallb_emplace (p : Value -> bool) (k : string) (v : Value)
      (m : Object) :
  p v = true ->
  forallb (fun kv => p (snd kv)) m = true ->
  forallb (fun kv => p (snd kv)) (StdMap.emplace k v m) = true.
Proof.
  intros Hv. induction m as [|[k' v'] m IH]; simpl; intros Hm.
  - now rewrite Hv.
  - apply andb_true_iff in Hm as [Hv' Hm].
    destruct (String.compare k k'); simpl.
    + now rewrite Hv', Hm.
    + now rewrite Hv, Hv', Hm.
    + now rewrite Hv', IH.
Qed.

Lemma parsed_bind_throw (bound : nat) (e : exn) :
  parsed bound (Throw e) -> forall bound', parsed bound' (Throw e).
Proof. destruct e; simpl; auto. Qed.

Section ContainersParsed.
Variable parseValue : cursor -> result (Value * cursor).
Variable n : nat.
Hypothesis parseValue_parsed :
  forall cur, String.length cur < n ->
              parsed (String.length cur) (parseValue cur).

Lemma parseArray_loop_parsed (fuel : nat) :
  forall cur array_data,
    String.length cur < fuel -> fuel <= n ->
    forallb synchronized_deep array_data = true ->
    parsed (String.length cur) (parseArray_loop parseValue fuel cur array_data).
Proof.
  induction fuel as [|fuel IH]; intros cur array_data Hlen Hn Hacc; [lia |].
  cbn [parseArray_loop].
  pose proof (skipWhiteSpace_length cur) as Hws.
  pose proof (parseValue_parsed (skipWhiteSpace cur) ltac:(lia)) as Hv.
  destruct (parseValue (skipWhiteSpace cur)) as [[value cur2]| e | |];
    cbn [bind]; try contradiction;
    [| exact (parsed_bind_throw _ _ Hv _)].
  destruct Hv as [Hlen2 Hdeep].
  pose proof (skipWhiteSpace_length cur2) as Hws2.
  assert (Hacc' : forallb synchronized_deep (array_data ++ [value]) = true)
    by (rewrite forallb_app, Hacc; simpl; now rewrite Hdeep).
  destruct (Ascii.eqb (deref (skipWhiteSpace cur2)) ",") eqn:Hc.
  - pose proof (next_progress _ (deref_not_at_end _ _ Hc eq_refl)).
    eapply parsed_le; [| apply IH; try assumption; lia]. lia.
  - destruct (Ascii.eqb (deref (skipWhiteSpace cur2)) "]") eqn:Hb;
      [| apply parsed_throw; discriminate].
    pose proof (next_length (skipWhiteSpace cur2)).
    split; [lia |]. simpl. now rewrite Hacc'.
Qed.

Lemma parseArray_with_parsed (cur : cursor) :
  at_end cur = false -> String.length cur <= n ->
  parsed (String.length cur) (parseArray_with parseValue n cur).
Proof.
  intros Hne Hlen. unfold parseArray_with.
  pose proof (next_progress _ Hne).
  pose proof (skipWhiteSpace_length (next cur)).
  destruct (Ascii.eqb (deref (skipWhiteSpace (next cur))) "]").
  - pose proof (next_length (skipWhiteSpace (next cur))).
    split; [lia | reflexivity].
  - eapply parsed_le; [| apply parseArray_loop_parsed; auto; lia]. lia.
Qed.

Lemma parseObject_loop_parsed (fuel : nat) :
  forall cur object_data,
    String.length cur < fuel -> fuel <= n ->
    forallb (fun kv => synchronized_deep (snd kv)) object_data = true ->
    parsed (String.length cur)
           (parseObject_loop parseValue fuel cur object_data).
Proof.
  induction fuel as [|fuel IH]; intros cur object_data Hlen Hn Hacc; [lia |].
  cbn [parseObject_loop].
  pose proof (skipWhiteSpace_length cur) as Hws.
  pose proof (parseRawString_outcome (skipWhiteSpace cur)) as Hkey.
  destruct (parseRawString (skipWhiteSpace cur)) as [[key cur1]| e | |];
    cbn [bind]; try contradiction;
    [| destruct Hkey as [-> | [-> | ->]]; discriminate].
  pose proof (skipWhiteSpace_length cur1) as Hws1.
  destruct (Ascii.eqb (deref (skipWhiteSpace cur1)) ":") eqn:Hcolon;
    cbn [negb]; [| apply parsed_throw; discriminate].
  pose proof (next_length (skipWhiteSpace cur1)) as Hnext.
  pose proof (skipWhiteSpace_length (next (skipWhiteSpace cur1))) as Hws2.
  pose proof (parseValue_parsed
                (skipWhiteSpace (next (skipWhiteSpace cur1))) ltac:(lia))
    as Hv.
  destruct (parseValue (skipWhiteSpace (next (skipWhiteSpace cur1))))
    as [[value cur2]| e | |];
    cbn [bind]; try contradiction;
    [| exact (parsed_bind_throw _ _ Hv _)].
  destruct Hv as [Hlen2 Hdeep].
  pose proof (skipWhiteSpace_length cur2) as Hws3.
  pose proof (forallb_emplace synchronized_deep (unescapeJson key) value
                              object_data Hdeep Hacc) as Hacc'.
  destruct (Ascii.eqb (deref (skipWhiteSpace cur2)) ",") eqn:Hc.
  - pose proof (next_progress _ (deref_not_at_end _ _ Hc eq_refl)).
    eapply parsed_le; [| apply IH; try assumption; lia]. lia.
  - destruct (Ascii.eqb (deref (skipWhiteSpace cur2)) "}") eqn:Hb;
      [| apply parsed_throw; discriminate].
    pose proof (next_length (skipWhiteSpace cur2)).
    split; [lia |]. simpl. now rewrite Hacc'.
Qed.

Lemma parseObject_with_parsed (cur : cursor) :
  at_end cur = false -> String.length cur <= n ->
  parsed (String.length cur) (parseObject_with parseValue n cur).
Proof.
  intros Hne Hlen. unfold parseObject_with.
  pose proof (next_progress _ Hne).
  pose proof (skipWhiteSpace_length (next cur)).
  destruct (Ascii.eqb (deref (skipWhiteSpace (next cur))) "}").
  - pose proof (next_length (skipWhiteSpace (next cur))).
    split; [lia | reflexivity].
  - eapply parsed_le; [| apply parseObject_loop_parsed; auto; lia]. lia.
Qed.
End ContainersParsed.

(** With more fuel than characters left, [parseValue] returns or throws:
    it never stops for lack of fuel. *)
Lemma parseValue_parsed (fuel : nat) :
  forall cur, String.length cur < fuel ->
              parsed (String.length cur) (parseValue fuel cur).
Proof.
  induction fuel as [|fuel IH]; intros cur Hlen; [lia |].
  cbn [parseValue]. cbv zeta.
  break_if; [apply parseBoolean_parsed |].
  break_if; [apply parseNull_parsed |].
  break_if; [apply parseString_parsed |].
  break_if.
  { apply parseArray_with_parsed; [exact IH | | lia].
    eapply deref_not_at_end; [eassumption | reflexivity]. }
  break_if.
  { apply parseObject_with_parsed; [exact IH | | lia].
    eapply deref_not_at_end; [eassumption | reflexivity]. }
  break_if; [apply parseNumber_parsed | apply parsed_throw; discriminate].
Qed.

Lemma parseStart_outcome (fuel : nat) (cur : cursor) :
  String.length cur <= fuel -> parse_outcome (parseStart fuel cur).
Proof.
  intros Hlen. unfold parseStart.
  pose proof (skipWhiteSpace_length cur) as Hws.
  assert (Hroot :
    parsed (String.length (skipWhiteSpace cur))
      (if Ascii.eqb (deref (skipWhiteSpace cur)) "{"
       then parseObject fuel (skipWhiteSpace cur)
       else if Ascii.eqb (deref (skipWhiteSpace cur)) "["
            then parseArray fuel (skipWhiteSpace cur)
            else throw NOT_JSON)).
  { break_if.
    - apply parseObject_with_parsed; [| | lia].
      + intros c Hc. apply parseValue_parsed. lia.
      + eapply deref_not_at_end; [eassumption | reflexivity].
    - break_if; [| apply parsed_throw; discriminate].
      apply parseArray_with_parsed; [| | lia].
      + intros c Hc. apply parseValue_parsed. lia.
      + eapply deref_not_at_end; [eassumption | reflexivity]. }
  destruct (if Ascii.eqb (deref (skipWhiteSpace cur)) "{" then _ else _)
    as [[ret cur']| e | |]; cbn [bind]; try contradiction.
  - destruct Hroot as [_ Hdeep].
    break_if; [discriminate | exact Hdeep].
  - destruct e; auto.
Qed.

(** [parse] is total on the fuel it takes: for every text it returns a
    value or throws a [ParseError]. *)
Lemma parse_never_out_of_fuel (json_data : string) :
  parse_outcome (parse json_data).
Proof. apply parseStart_outcome. apply le_n. Qed.

(* ================================================================== *)
(** * The root of a document *)
(* ================================================================== *)

Lemma skipWhiteSpace_fixed (c : ascii) (rest : string) :
  is_whitespace c = false -> skipWhiteSpace (String c rest) = String c rest.
Proof. intros H. simpl. now rewrite H. Qed.

(** C7. For every input whose first character after the leading
    whitespace is neither an opening brace nor an opening bracket,
    [parse] fails with NOT_JSON: a bare scalar at the root is rejected. *)
Theorem parse_root_not_container (ws : string) (c : ascii) (rest : string) :
  all_chars is_whitespace ws = true ->
  is_whitespace c = false ->
  c <> "{"%char ->
  c <> "["%char ->
  parse (ws ++ String c rest) = throw NOT_JSON.
Proof.
  intros Hws Hc Hbrace Hbracket.
  unfold parse, parseStart.
  rewrite (skipWhiteSpace_append ws _ Hws), (skipWhiteSpace_fixed c rest Hc).
  cbn [deref].
  apply Ascii.eqb_neq in Hbrace, Hbracket.
  now rewrite Hbrace, Hbracket.
Qed.

Lemma parse_root_not_container_witness :
  parse "42" = throw NOT_JSON
  /\ parse (q ++ "x" ++ q) = throw NOT_JSON
  /\ parse "true" = throw NOT_JSON
  /\ parse (" " ++ str1 Ch.newline ++ "null ") = throw NOT_JSON.
Proof.
  split; [| split; [| split]].
  - apply (parse_root_not_container EmptyString "4" "2");
      [reflexivity | reflexivity | discriminate | discriminate].
  - apply (parse_root_not_container EmptyString Ch.dquote ("x" ++ q));
      [reflexivity | reflexivity | discriminate | discriminate].
  - apply (parse_root_not_container EmptyString "t" "rue");
      [reflexivity | reflexivity | discriminate | discriminate].
  - apply (parse_root_not_container (" " ++ str1 Ch.newline) "n" "ull ");
      [reflexivity | reflexivity | discriminate | discriminate].
Defined.

Lemma all_chars_skipWhiteSpace (p : ascii -> bool) (cur : cursor) :
  all_chars p cur = true -> all_chars p (skipWhiteSpace cur) = true.
Proof.
  induction cur as [|c cur IH]; simpl; [reflexivity |].
  intros H. destruct (is_whitespace c); [| exact H].
  apply andb_true_iff in H as [_ H]. auto.
Qed.

(** When no NUL byte follows the root value, [parseStart] returns it
    exactly when whitespace alone follows it, and throws ROOT_NOT_ONE
    otherwise. *)
Lemma parseStart_trailing (fuel : nat) (cur : cursor) (ret : Value)
      (cur' : cursor) :
  (if Ascii.eqb (deref (skipWhiteSpace cur)) "{"
   then parseObject fuel (skipWhiteSpace cur)
   else if Ascii.eqb (deref (skipWhiteSpace cur)) "["
        then parseArray fuel (skipWhiteSpace cur)
        else throw NOT_JSON) = Ok (ret, cur') ->
  all_chars (fun c => negb (Ascii.eqb c Ch.nul)) cur' = true ->
  parseStart fuel cur
  = if all_chars is_whitespace cur' then Ok ret else throw ROOT_NOT_ONE.
Proof.
  intros Hroot Hnul. unfold parseStart. rewrite Hroot. cbn [bind].
  apply (all_chars_skipWhiteSpace _ cur') in Hnul.
  pose proof (skipWhiteSpace_stops cur') as Hstop.
  assert (Hws : all_chars is_whitespace cur'
                = at_end (skipWhiteSpace cur')).
  { clear. induction cur' as [|c cur' IH]; simpl; [reflexivity |].
    destruct (is_whitespace c); [exact IH | reflexivity]. }
  rewrite Hws.
  destruct (skipWhiteSpace cur') as [|c rest]; [reflexivity |].
  cbn [deref at_end all_chars] in *.
  apply andb_true_iff in Hnul as [Hc _]. now rewrite Hc.
Qed.

(** C8. After the root value and the whitespace that follows it,
    [parseStart] tests the character under the cursor against NUL, not
    the cursor against the end of the input: a root followed by a NUL
    byte and any text is accepted, whereas every remainder that is not
    whitespace is specified to fail with ROOT_NOT_ONE, as the remainder
    of the third text does. *)
Theorem parse_accepts_text_after_NUL (rest : string) :
  parse ("{}" ++ String Ch.nul rest) = Ok (Value_of_Object [])
  /\ parse ("[]" ++ String Ch.nul rest) = Ok (Value_of_Array [])
  /\ parse "{} x" = throw ROOT_NOT_ONE.
Proof. repeat split. Qed.

(* ================================================================== *)
(** * String literals *)
(* ================================================================== *)

(** When the loop of [parseRawString] stops before the end of the input,
    it has read a literal body and the double quote that closes it. *)
Lemma parseRawString_loop_inv (n : nat) :
  forall cur cur',
    String.length cur <= n ->
    parseRawString_loop cur = Ok cur' ->
    at_end cur' = false ->
    exists raw, cur = raw ++ q ++ cur' /\ literal_body raw = true.
Proof.
  induction n as [|n IH]; intros cur cur' Hn H Hne.
  - destruct cur; simpl in Hn; [| lia].
    inversion H; subst. discriminate Hne.
  - destruct cur as [|c cur1]; cbn [parseRawString_loop] in H.
    + inversion H; subst. discriminate Hne.
    + simpl in Hn.
      destruct (Ascii.eqb c Ch.backslash) eqn:Hbs.
      * destruct cur1 as [|c' cur2]; [discriminate H |].
        destruct (escape_accepted c') eqn:Hacc; [| discriminate H].
        simpl in Hn.
        destruct (IH cur2 cur' ltac:(lia) H Hne) as [raw [-> Hraw]].
        exists (String c (String c' raw)). split; [reflexivity |].
        cbn [literal_body]. now rewrite Hbs, Hacc, Hraw.
      * destruct (Ascii.eqb c Ch.dquote) eqn:Hq.
        -- inversion H; subst. apply Ascii.eqb_eq in Hq. subst c.
           exists EmptyString. split; reflexivity.
        -- destruct (IH cur1 cur' ltac:(lia) H Hne) as [raw [-> Hraw]].
           exists (String c raw). split; [reflexivity |].
           cbn [literal_body]. now rewrite Hbs, Hq, Hraw.
Qed.

(** What [parseRawString] returns is the text between the opening double
    quote and the double quote that closes the literal, as it stands in
    the input. *)
Lemma parseRawString_inv (cur : cursor) (str : string) (cur' : cursor) :
  parseRawString cur = Ok (str, cur') ->
  cur = q ++ str ++ q ++ cur' /\ literal_body str = true.
Proof.
  unfold parseRawString. intros H.
  destruct (Ascii.eqb (deref cur) Ch.dquote) eqn:Hq; [| discriminate H].
  cbn [negb] in H.
  destruct cur as [|c cur1]; [discriminate Hq |].
  cbn [deref] in Hq. apply Ascii.eqb_eq in Hq. subst c.
  change (next (String Ch.dquote cur1)) with cur1 in H.
  destruct (parseRawString_loop cur1) as [cur2| | |] eqn:Hloop;
    cbn [bind] in H; try discriminate H.
  destruct (at_end cur2) eqn:Hne; [discriminate H |].
  inversion H; subst; clear H.
  destruct (parseRawString_loop_inv _ _ _ (le_n _) Hloop Hne)
    as [raw [-> Hraw]].
  unfold distance, make_string.
  rewrite !length_append.
  replace (String.length raw + (String.length q + String.length cur')
           - String.length cur' - 1) with (String.length raw)
    by (simpl; lia).
  rewrite take_append. split; [reflexivity | exact Hraw].
Qed.

(** The failing input of C3: the literal of the text below holds a
    backslash and the letter n.  As a value, the payload stored is
    these two characters, and not the newline they unescape to; as a
    key, the same literal is stored unescaped. *)
Lemma parseString_payload_not_unescaped :
  let raw := "a" ++ bs ++ "nb" in
  parse ("[" ++ q ++ raw ++ q ++ "]")
  = Ok (Value_of_Array [Value_of_type ValueType.String (v_string raw)])
  /\ unescapeJson raw = "a" ++ str1 Ch.newline ++ "b"
  /\ raw <> unescapeJson raw
  /\ parse ("{" ++ q ++ raw ++ q ++ ":1}")
     = Ok (Value_of_Object
             [(unescapeJson raw,
               Value_of_type ValueType.Number (v_string "1"))]).
Proof.
  split; [reflexivity | split; [reflexivity | split; [| reflexivity]]].
  vm_compute. discriminate.
Qed.

(** C3. The parser does not unescape a string value.  For every string
    literal the parser accepts in value position, the String payload
    stored in the resulting Value is the raw text: the substring between
    the opening double quote and the closing one, exactly as it stands
    in the input, escape sequences included.  [parseString] leaves out
    the call of [unescapeJson] that [parseObject] makes on a key. *)
Theorem parseString_stores_raw (fuel : nat) (cur : cursor) (v : Value)
        (cur' : cursor) :
  deref cur = Ch.dquote ->
  parseValue fuel cur = Ok (v, cur') ->
  exists raw,
    cur = q ++ raw ++ q ++ cur'
    /\ literal_body raw = true
    /\ v = Value_of_type ValueType.String (v_string raw).
Proof.
  intros Hq H. destruct fuel as [|fuel]; [discriminate H |].
  cbn [parseValue] in H. cbv zeta in H. rewrite Hq in H.
  change (Ascii.eqb Ch.dquote "t" || Ascii.eqb Ch.dquote "f") with false in H.
  change (Ascii.eqb Ch.dquote "n") with false in H.
  change (Ascii.eqb Ch.dquote Ch.dquote) with true in H.
  cbv iota in H. unfold parseString in H.
  destruct (parseRawString cur) as [[str cur1]| | |] eqn:Hraw;
    cbn [bind] in H; try discriminate H.
  inversion H; subst; clear H.
  apply parseRawString_inv in Hraw as [Hcur Hbody].
  exists str. auto.
Qed.

Lemma parseString_stores_raw_witness :
  exists raw,
    q ++ "tab" ++ bs ++ "t" ++ bs ++ "u00e9" ++ q ++ ", 1]"
    = q ++ raw ++ q ++ ", 1]"
    /\ literal_body raw = true
    /\ Value_of_type ValueType.String
         (v_string ("tab" ++ bs ++ "t" ++ bs ++ "u00e9"))
       = Value_of_type ValueType.String (v_string raw).
Proof.
  apply (parseString_stores_raw
           1 (q ++ "tab" ++ bs ++ "t" ++ bs ++ "u00e9" ++ q ++ ", 1]"));
    reflexivity.
Defined.

(** C6. A backslash-u escape in an object key does not pass through:
    [unescapeJson] leaves its [switch] by the default case with
    [replaceIdx] still 0, and replaces the backslash and the letter u by
    a newline.  In a string value the same escape is stored unchanged. *)
Theorem unicode_escape_in_key :
  parse ("{" ++ q ++ bs ++ "u0041" ++ q ++ ":1}")
  = Ok (Value_of_Object
          [(str1 Ch.newline ++ "0041",
            Value_of_type ValueType.Number (v_string "1"))])
  /\ (forall digits : string,
         unescapeJson (bs ++ "u" ++ digits)
         = str1 Ch.newline ++ unescapeJson digits)
  /\ parse ("[" ++ q ++ bs ++ "u0041" ++ q ++ "]")
     = Ok (Value_of_Array
             [Value_of_type ValueType.String (v_string (bs ++ "u0041"))]).
Proof.
  split; [reflexivity | split; [| reflexivity]].
  intros digits. now rewrite !unescapeJson_spec.
Qed.

(* ================================================================== *)
(** * Object keys *)
(* ================================================================== *)

Lemma ascii_compare_refl (a : ascii) : Ascii.compare a a = Eq.
Proof. apply N.compare_refl. Qed.

Lemma ascii_compare_lt_trans (a b c : ascii) :
  Ascii.compare a b = Lt -> Ascii.compare b c = Lt -> Ascii.compare a c = Lt.
Proof.
  unfold Ascii.compare. rewrite !N.compare_lt_iff. apply N.lt_trans.
Qed.

Lemma string_compare_refl (s : string) : String.compare s s = Eq.
Proof.
  induction s as [|c s IH]; simpl; [reflexivity |].
  now rewrite ascii_compare_refl.
Qed.

Lemma string_compare_lt_trans (a : string) :
  forall b c,
    String.compare a b = Lt -> String.compare b c = Lt ->
    String.compare a c = Lt.
Proof.
  induction a as [|x a IH]; intros [|y b] [|z c]; simpl;
    try discriminate; auto.
  destruct (Ascii.compare x y) eqn:Hxy; try discriminate;
    destruct (Ascii.compare y z) eqn:Hyz; try discriminate; intros Hab Hbc.
  - apply Ascii.compare_eq_iff in Hxy, Hyz. subst.
    rewrite ascii_compare_refl. eauto.
  - apply Ascii.compare_eq_iff in Hxy. subst. now rewrite Hyz.
  - apply Ascii.compare_eq_iff in Hyz. subst. now rewrite Hxy.
  - now rewrite (ascii_compare_lt_trans _ _ _ Hxy Hyz).
Qed.

Lemma string_compare_gt_lt (a b : string) :
  String.compare a b = Gt -> String.compare b a = Lt.
Proof.
  intros H. rewrite String.compare_antisym, H. reflexivity.
Qed.

Lemma string_compare_lt_gt (a b : string) :
  String.compare a b = Lt -> String.compare b a = Gt.
Proof.
  intros H. rewrite String.compare_antisym, H. reflexivity.
Qed.

Section MapLemmas.
Context {V : Type}.

(** [emplace] leaves every key that is present with its value. *)
Lemma find_emplace_present (k k' : string) (v v' : V)
      (m : list (string * V)) :
  StdMap.find k m = Some v ->
  StdMap.find k (StdMap.emplace k' v' m) = Some v.
Proof.
  induction m as [|[k0 v0] m IH]; simpl; [discriminate |].
  destruct (String.compare k k0) eqn:Hk; try discriminate; intros Hfind.
  - apply String.compare_eq_iff in Hk. subst k0.
    destruct (String.compare k' k) eqn:Hk'; simpl.
    + now rewrite string_compare_refl.
    + now rewrite (string_compare_lt_gt _ _ Hk'), string_compare_refl.
    + now rewrite string_compare_refl.
  - destruct (String.compare k' k0) eqn:Hk'; simpl.
    + now rewrite Hk.
    + assert (Hlt : String.compare k' k = Lt)
        by (eapply string_compare_lt_trans;
            [exact Hk' | now apply string_compare_gt_lt]).
      now rewrite (string_compare_lt_gt _ _ Hlt), Hk.
    + rewrite Hk. auto.
Qed.

(** [emplace] gives an absent key the value it is called with. *)
Lemma find_emplace_absent (k : string) (v : V) (m : list (string * V)) :
  StdMap.find k m = None ->
  StdMap.find k (StdMap.emplace k v m) = Some v.
Proof.
  induction m as [|[k0 v0] m IH]; simpl.
  - now rewrite string_compare_refl.
  - destruct (String.compare k k0) eqn:Hk; try discriminate;
      intros Hfind; simpl.
    + now rewrite string_compare_refl.
    + rewrite Hk. auto.
Qed.

(** A value found under a key is an entry of the map. *)
Lemma find_In (k : string) (v : V) (m : list (string * V)) :
  StdMap.find k m = Some v -> In (k, v) m.
Proof.
  induction m as [|[k0 v0] m IH]; simpl; [discriminate |].
  destruct (String.compare k k0) eqn:Hk; try discriminate.
  - apply String.compare_eq_iff in Hk. intros [= ->]. left. now subst.
  - auto.
Qed.

(** [emplace] keeps the keys strictly increasing. *)
Lemma emplace_sorted (k : string) (v : V) (m : list (string * V)) :
  StdMap.sorted m = true -> StdMap.sorted (StdMap.emplace k v m) = true.
Proof.
  induction m as [|[k0 v0] m IH]; [reflexivity |].
  intros Hm. cbn [StdMap.emplace].
  destruct (String.compare k k0) eqn:Hk.
  - exact Hm.
  - cbn [StdMap.sorted] in *. now rewrite Hk.
  - cbn [StdMap.sorted] in Hm. apply andb_true_iff in Hm as [Hhead Hm].
    specialize (IH Hm).
    cbn [StdMap.sorted]. rewrite IH, andb_true_r.
    destruct m as [|[k1 v1] m]; cbn [StdMap.emplace].
    + now rewrite (string_compare_gt_lt _ _ Hk).
    + destruct (String.compare k k1); [exact Hhead | | exact Hhead].
      now rewrite (string_compare_gt_lt _ _ Hk).
Qed.

Lemma find_emplace_same (k : string) (v : V) (m : list (string * V)) :
  StdMap.find k (StdMap.emplace k v m)
  = Some (match StdMap.find k m with Some old => old | None => v end).
Proof.
  destruct (StdMap.find k m) eqn:Hfind.
  - now apply find_emplace_present.
  - now apply find_emplace_absent.
Qed.
End MapLemmas.

(** Once [object_data] holds a value for a key, the object that the loop
    of [parseObject] returns holds that value for it, whatever members
    the rest of the text has. *)
Lemma parseObject_loop_keeps
      (pv : cursor -> result (Value * cursor)) (fuel : nat) :
  forall (cur : cursor) (object_data : Object) (key : string)
         (value ret : Value) (cur' : cursor),
    StdMap.find key object_data = Some value ->
    parseObject_loop pv fuel cur object_data = Ok (ret, cur') ->
    Value_at_key ret key = Ok value.
Proof.
  induction fuel as [|fuel IH]; intros cur object_data key value ret cur'
                                       Hfind H; [discriminate H |].
  cbn [parseObject_loop] in H.
  destruct (parseRawString (skipWhiteSpace cur)) as [[key1 cur1]| | |];
    cbn [bind] in H; try discriminate H.
  destruct (Ascii.eqb (deref (skipWhiteSpace cur1)) ":");
    cbn [negb] in H; [| discriminate H].
  destruct (pv (skipWhiteSpace (next (skipWhiteSpace cur1))))
    as [[value1 cur2]| | |]; cbn [bind] in H; try discriminate H.
  pose proof (find_emplace_present key (unescapeJson key1) value value1
                                   object_data Hfind) as Hfind'.
  destruct (Ascii.eqb (deref (skipWhiteSpace cur2)) ",").
  - exact (IH _ _ _ _ _ _ Hfind' H).
  - destruct (Ascii.eqb (deref (skipWhiteSpace cur2)) "}");
      [| discriminate H].
    inversion H; subst.
    unfold Value_at_key, Object_at, StdMap.at_. cbn. now rewrite Hfind'.
Qed.

(** C1, as stated, fails: on the text with the key a given twice, first
    with 1 and then with 2, the value kept for the key is that of its
    first occurrence. *)
Lemma parse_duplicate_key_not_last :
  let text := "{" ++ q ++ "a" ++ q ++ ":1," ++ q ++ "a" ++ q ++ ":2}" in
  (v <- parse text ;; a <- Value_at_key v "a" ;; Value_to_string a) = Ok "1"
  /\ (v <- parse text ;; a <- Value_at_key v "a" ;; Value_to_string a)
     <> Ok "2".
Proof. split; [reflexivity | vm_compute; discriminate]. Qed.

(** C1, amended. For every input text in which the same object key
    occurs more than once, [parse] keeps the value of the first
    occurrence (first write wins): when an iteration of the loop of
    [parseObject] reads a member, the object returned in the end holds,
    for the unescaped key of that member, the value [object_data] had
    for it before, and the value of the member only when it had none. *)
Theorem parseObject_first_write_wins
        (n fuel : nat) (cur : cursor) (object_data : Object)
        (key : string) (cur1 : cursor) (value : Value) (cur2 : cursor)
        (ret : Value) (cur' : cursor) :
  parseRawString (skipWhiteSpace cur) = Ok (key, cur1) ->
  deref (skipWhiteSpace cur1) = ":"%char ->
  parseValue n (skipWhiteSpace (next (skipWhiteSpace cur1)))
  = Ok (value, cur2) ->
  parseObject_loop (parseValue n) fuel cur object_data = Ok (ret, cur') ->
  Value_at_key ret (unescapeJson key)
  = Ok (match StdMap.find (unescapeJson key) object_data with
        | Some first => first
        | None => value
        end).
Proof.
  intros Hkey Hcolon Hvalue H.
  destruct fuel as [|fuel]; [discriminate H |].
  cbn [parseObject_loop] in H.
  rewrite Hkey in H. cbn [bind] in H.
  rewrite Hcolon in H.
  change (negb (Ascii.eqb ":" ":")) with false in H. cbv iota in H.
  rewrite Hvalue in H. cbn [bind] in H.
  pose proof (find_emplace_same (unescapeJson key) value object_data)
    as Hfind.
  destruct (Ascii.eqb (deref (skipWhiteSpace cur2)) ",").
  - exact (parseObject_loop_keeps _ _ _ _ _ _ _ _ Hfind H).
  - destruct (Ascii.eqb (deref (skipWhiteSpace cur2)) "}");
      [| discriminate H].
    inversion H; subst.
    unfold Value_at_key, Object_at, StdMap.at_. cbn. now rewrite Hfind.
Qed.

Lemma parseObject_first_write_wins_witness :
  let text := "{" ++ q ++ "a" ++ q ++ ":1," ++ q ++ "a" ++ q ++ ":2}" in
  let one := Value_of_type ValueType.Number (v_string "1") in
  let two := Value_of_type ValueType.Number (v_string "2") in
  (* the whole text: the first occurrence of the key decides *)
  (v <- parse text ;; a <- Value_at_key v "a" ;; Value_to_string a) = Ok "1"
  (* its second member, read with the first one stored: the value stays *)
  /\ Value_at_key (Value_of_Object [("a", one)]) (unescapeJson "a")
     = Ok (match StdMap.find (unescapeJson "a") [("a", one)] with
           | Some first => first
           | None => two
           end).
Proof.
  intros text one two. split.
  - pose proof (parseObject_first_write_wins
                  14 14 (q ++ "a" ++ q ++ ":1," ++ q ++ "a" ++ q ++ ":2}") []
                  "a" (":1," ++ q ++ "a" ++ q ++ ":2}") one
                  ("," ++ q ++ "a" ++ q ++ ":2}")
                  (Value_of_Object [("a", one)]) EmptyString
                  eq_refl eq_refl eq_refl eq_refl) as Hfirst.
    change (parse text) with (Ok (Value_of_Object [("a", one)])).
    cbn [bind].
    change (unescapeJson "a") with "a" in Hfirst.
    rewrite Hfirst. reflexivity.
  - apply (parseObject_first_write_wins
             9 9 (q ++ "a" ++ q ++ ":2}") [("a", one)]
             "a" ":2}" two "}"
             (Value_of_Object [("a", one)]) EmptyString);
      reflexivity.
Defined.

(* ================================================================== *)
(** * The errors raised *)
(* ================================================================== *)

Section ToStringThrows.
Variable Value_to_string : Value -> result string.

Lemma Array_to_string_loop_throws (l : Array) :
  Forall (fun v => forall err, Value_to_string v <> throw err) l ->
  forall str err, Array_to_string_loop Value_to_string l str <> throw err.
Proof.
  induction 1 as [|x l Hx Hl IH]; intros str err; simpl; [discriminate |].
  destruct (Value_to_string x) eqn:Hs; simpl; try discriminate.
  - apply IH.
  - intros H. apply (Hx err). exact H.
Qed.

Lemma Object_to_string_loop_throws (l : Object) :
  Forall (fun kv => forall err, Value_to_string (snd kv) <> throw err) l ->
  forall str err, Object_to_string_loop Value_to_string l str <> throw err.
Proof.
  induction 1 as [|[k x] l Hx Hl IH]; intros str err; simpl;
    [discriminate |].
  simpl in Hx.
  destruct (Value_to_string x) eqn:Hs; simpl; try discriminate.
  - apply IH.
  - intros H. apply (Hx err). exact H.
Qed.
End ToStringThrows.

(** [Value::to_string] throws none of the library's errors. *)
Lemma Value_to_string_throws (v : Value) :
  forall err, Value_to_string v <> throw err.
Proof.
  induction v as [type s | type | type arr IH | type | type obj IH]
    using Value_ind'; intros err; destruct type; simpl; try discriminate.
  - unfold Array_to_string_with.
    pose proof (Array_to_string_loop_throws _ arr IH "[" err) as H.
    destruct (Array_to_string_loop Value_to_string arr "["); simpl;
      try discriminate. exact H.
  - unfold Object_to_string_with.
    pose proof (Object_to_string_loop_throws _ obj IH "{" err) as H.
    destruct (Object_to_string_loop Value_to_string obj "{"); simpl;
      try discriminate. exact H.
Qed.

Lemma to_array_throws (v : Value) (err : ParseError) :
  to_array v = throw err -> err = BAD_TYPE.
Proof.
  unfold to_array, get_array, throw.
  destruct (isArray v); [| now intros [= <-]].
  destruct (value_data_ v) as [s | [arr|] | p]; discriminate.
Qed.

Lemma to_object_throws (v : Value) (err : ParseError) :
  to_object v = throw err -> err = BAD_TYPE.
Proof.
  unfold to_object, get_object, throw.
  destruct (isObject v); [| now intros [= <-]].
  destruct (value_data_ v) as [s | p | [obj|]]; discriminate.
Qed.

Lemma Value_at_throws (v : Value) (idx : nat) (err : ParseError) :
  Value_at v idx = throw err -> err = BAD_TYPE.
Proof.
  unfold Value_at. intros H.
  destruct (to_array v) as [arr| e | |] eqn:Harr; simpl in H;
    try discriminate H.
  - unfold Array_at in H. destruct (nth_error arr idx); discriminate H.
  - apply (to_array_throws v). rewrite Harr.
    unfold throw in *. now inversion H.
Qed.

Lemma Value_at_key_throws (v : Value) (key : string) (err : ParseError) :
  Value_at_key v key = throw err -> err = BAD_TYPE.
Proof.
  unfold Value_at_key. intros H.
  destruct (to_object v) as [obj| e | |] eqn:Hobj; simpl in H;
    try discriminate H.
  - unfold Object_at, StdMap.at_ in H.
    destruct (StdMap.find key obj); discriminate H.
  - apply (to_object_throws v). rewrite Hobj.
    unfold throw in *. now inversion H.
Qed.

(** C10. For every input string, [parse] never raises MISS_VALUE: it
    returns a value or fails with one of the other kinds of the
    taxonomy; and no accessor raises it either. *)
Theorem MISS_VALUE_never_raised :
  (forall json_data : string,
      (exists v, parse json_data = Ok v)
      \/ (exists err, parse json_data = throw err /\ err <> MISS_VALUE))
  /\ (forall json_data : string, parse json_data <> throw MISS_VALUE)
  /\ (forall v : Value,
         Value_to_string v <> throw MISS_VALUE
         /\ to_array v <> throw MISS_VALUE
         /\ to_object v <> throw MISS_VALUE)
  /\ (forall (v : Value) (idx : nat), Value_at v idx <> throw MISS_VALUE)
  /\ (forall (v : Value) (key : string),
         Value_at_key v key <> throw MISS_VALUE).
Proof.
  split; [| split; [| split; [| split]]].
  - intros json_data.
    pose proof (parse_never_out_of_fuel json_data) as H.
    destruct (parse json_data) as [v| [err| |] | |]; simpl in H;
      try contradiction.
    + left. now exists v.
    + right. exists err. split; [reflexivity | exact H].
  - intros json_data Heq.
    pose proof (parse_never_out_of_fuel json_data) as H.
    rewrite Heq in H. simpl in H. now apply H.
  - intros v. split; [apply Value_to_string_throws | split]; intros H.
    + apply to_array_throws in H. discriminate H.
    + apply to_object_throws in H. discriminate H.
  - intros v idx H. apply Value_at_throws in H. discriminate H.
  - intros v key H. apply Value_at_key_throws in H. discriminate H.
Qed.

(* ================================================================== *)
(** * The tag and the variant *)
(* ================================================================== *)

Lemma synchronized_deep_shallow (v : Value) :
  synchronized_deep v = true -> synchronized v = true.
Proof.
  destruct v as [type d]; simpl. intros H.
  now apply andb_true_iff in H as [H _].
Qed.

Lemma synchronized_deep_owned (v : Value) :
  synchronized_deep v = true ->
  forall x, In x (owned (value_data_ v)) -> synchronized_deep x = true.
Proof.
  destruct v as [type d]; simpl. intros H x Hx.
  apply andb_true_iff in H as [_ H].
  destruct d as [s | [arr|] | [obj|]]; simpl in Hx; try contradiction.
  - rewrite forallb_forall in H. auto.
  - rewrite forallb_forall in H. apply in_map_iff in Hx as [kv [<- Hkv]].
    auto.
Qed.

Lemma synchronized_deep_intro (type : ValueType.t) (d : value_t Value) :
  tag_matches type d = true ->
  (forall x, In x (owned d) -> synchronized_deep x = true) ->
  synchronized_deep (mkValue type d) = true.
Proof.
  intros Htag Hown. simpl. rewrite Htag. simpl.
  destruct d as [s | [arr|] | [obj|]]; simpl in Hown; try reflexivity.
  - apply forallb_forall. auto.
  - apply forallb_forall. intros kv Hkv. apply Hown.
    apply in_map_iff. now exists kv.
Qed.

Lemma Array_copy_eq (arr arr' : Array) :
  Array_copy Value_copy arr = Ok arr' -> arr' = arr.
Proof.
  apply mapM_id. apply Forall_forall. intros x _. apply Value_copy_eq.
Qed.

Lemma Object_copy_eq (obj obj' : Object) :
  Object_copy Value_copy obj = Ok obj' -> obj' = obj.
Proof.
  apply mapM_id. apply Forall_forall. intros [k x] _ [k' x'] H. simpl in H.
  destruct (Value_copy x) as [x''| | |] eqn:Hcopy; simpl in H;
    try discriminate H.
  inversion H; subst. now rewrite (Value_copy_eq _ _ Hcopy).
Qed.

(** Construction does not keep them synchronized either: the public
    template constructor records the tag it is given next to the variant
    built from its arguments, and nothing relates the two; with the tag
    Array and a string argument the string alternative is the active
    one, and [to_string] throws [bad_variant_access]. *)
Lemma Value_of_type_not_synchronized :
  let v := Value_of_type ValueType.Array (v_string "x") in
  synchronized v = false
  /\ type_ v = ValueType.Array
  /\ value_data_ v = v_string "x"
  /\ Value_to_string v = Throw bad_variant_access.
Proof. repeat split. Qed.

(** C9. Assignment does not keep the tag and the variant synchronized.
    [operator=] writes [type_] before [deepCopy] reads [rhs]; in
    [v.at(idx) = v], where the object assigned to is an element of the
    array assigned from, the element is given the tag Array while it
    still holds what it held, and the copy of the array is then taken
    with that element in it.  For every Array value that is synchronized
    throughout, has no null pointer and whose element [idx] is not
    itself an array, the assignment returns, and afterwards
    [v.at(idx).at(idx)] has the tag Array next to the string or object
    alternative the element held: the value is no longer synchronized.
    No call of the template constructor is involved. *)
Theorem copy_assign_breaks_tag (arr : Array) (idx : nat) (e : Value) :
  synchronized_deep (Value_of_Array arr) = true ->
  no_null (Value_of_Array arr) = true ->
  nth_error arr idx = Some e ->
  type_ e <> ValueType.Array ->
  exists v',
    (this <- Value_at_ref [Value_of_Array arr] (var_ref 0) idx ;;
     Value_copy_assign [Value_of_Array arr] this (var_ref 0)) = Ok [v']
    /\ (x <- Value_at v' idx ;; Value_at x idx)
       = Ok (mkValue ValueType.Array (value_data_ e))
    /\ synchronized (mkValue ValueType.Array (value_data_ e)) = false
    /\ synchronized_deep v' = false.
Proof.
  intros Hsync Hnull He Htype.
  set (e1 := mkValue ValueType.Array (value_data_ e)).
  set (arr1 := replace_nth arr idx e1).
  set (e2 := mkValue ValueType.Array (v_array_ptr (Some arr1))).
  assert (He1 : nth_error arr1 idx = Some e1)
    by exact (nth_error_replace_nth_same arr idx e1 e He).
  assert (He2 : nth_error (replace_nth arr1 idx e2) idx = Some e2)
    by exact (nth_error_replace_nth_same arr1 idx e2 e1 He1).
  assert (Hnull_e : no_null e = true).
  { cbn [no_null Value_of_Array] in Hnull.
    rewrite forallb_forall in Hnull. apply Hnull.
    eapply nth_error_In; exact He. }
  assert (Hnull1 : no_null (Value_of_Array arr1) = true).
  { cbn [no_null Value_of_Array] in *. apply forallb_replace_nth;
      [exact Hnull |]. destruct e as [type d]. exact Hnull_e. }
  assert (Hbad : synchronized e1 = false).
  { assert (Hsync_e : synchronized e = true).
    { apply synchronized_deep_shallow.
      apply (synchronized_deep_owned _ Hsync). cbn [owned Value_of_Array value_data_].
      eapply nth_error_In; exact He. }
    destruct e as [type d]. unfold synchronized in *.
    cbn [type_ value_data_ e1] in *.
    destruct type, d; try discriminate Hsync_e; try reflexivity.
    now contradiction Htype. }
  exists (Value_of_Array (replace_nth arr1 idx e2)).
  split; [| split; [| split]].
  - unfold Value_at_ref, load, var_ref.
    cbn [ref_var ref_path nth_error Value_get bind].
    unfold Value_at, to_array, get_array, Array_at.
    cbn [Value_of_Array isArray type_ value_data_ ValueType.eqb bind].
    rewrite He. cbn [bind app].
    unfold Value_copy_assign, load, store.
    cbn [ref_var ref_path nth_error Value_get Value_set bind
         Value_of_Array type_ value_data_ replace_nth].
    rewrite He. cbn [bind type_ value_data_].
    fold e1. fold arr1.
    change (deepCopy (v_array_ptr (Some arr1)))
      with (deepCopy (value_data_ (Value_of_Array arr1))).
    rewrite (deepCopy_no_null (Value_of_Array arr1) Hnull1).
    cbn [bind Value_of_Array value_data_]. rewrite He1. reflexivity.
  - unfold Value_at, to_array, get_array, Array_at.
    cbn [Value_of_Array isArray type_ value_data_ ValueType.eqb bind].
    rewrite He2. cbn [bind e2 isArray type_ value_data_ ValueType.eqb].
    now rewrite He1.
  - exact Hbad.
  - cbn [synchronized_deep Value_of_Array tag_matches andb].
    apply (forallb_nth_error_false _ _ idx e2 He2).
    cbn [synchronized_deep e2 tag_matches andb].
    apply (forallb_nth_error_false _ _ idx e1 He1).
    destruct e as [type d]. unfold synchronized in Hbad.
    cbn [e1 type_ value_data_ synchronized_deep] in *. now rewrite Hbad.
Qed.

Lemma copy_assign_breaks_tag_witness :
  exists v',
    (this <- Value_at_ref [Value_of_Array [Value_of_string "x"]]
                          (var_ref 0) 0 ;;
     Value_copy_assign [Value_of_Array [Value_of_string "x"]] this
                       (var_ref 0)) = Ok [v']
    /\ (x <- Value_at v' 0 ;; Value_at x 0)
       = Ok (mkValue ValueType.Array (value_data_ (Value_of_string "x")))
    /\ synchronized
         (mkValue ValueType.Array (value_data_ (Value_of_string "x")))
       = false
    /\ synchronized_deep v' = false.
Proof.
  apply (copy_assign_breaks_tag [Value_of_string "x"] 0
                                (Value_of_string "x")).
  - reflexivity.
  - reflexivity.
  - reflexivity.
  - discriminate.
Defined.

(** The failing input of C9 in full: after [Value v(Array{Value(x)});
    v.at(0) = v;] the variable holds an array in an array, whose
    element has the tag Array and the string alternative, and
    [to_string] throws [bad_variant_access]. *)
Lemma copy_assign_element_from_owner :
  let v := Value_of_Array [Value_of_string "x"] in
  let v' := Value_of_Array
              [Value_of_Array [Value_of_type ValueType.Array (v_string "x")]] in
  (this <- Value_at_ref [v] (var_ref 0) 0 ;;
   Value_copy_assign [v] this (var_ref 0)) = Ok [v']
  /\ synchronized_deep v = true
  /\ synchronized_deep v' = false
  /\ Value_to_string v' = Throw bad_variant_access.
Proof. split; [reflexivity | split; [| split]]; reflexivity. Qed.

(* ================================================================== *)
(** * String literals: what is accepted and what is refused *)
(* ================================================================== *)

Lemma parseRawString_loop_accepts (n : nat) :
  forall raw tail,
    String.length raw <= n ->
    literal_body raw = true ->
    parseRawString_loop (raw ++ q ++ tail) = Ok tail.
Proof.
  induction n as [|n IH]; intros raw tail Hn Hbody.
  - destruct raw; simpl in Hn; [reflexivity | lia].
  - destruct raw as [|c raw1]; [reflexivity |].
    cbn [literal_body] in Hbody. simpl in Hn.
    change ((String c raw1) ++ q ++ tail) with (String c (raw1 ++ q ++ tail)).
    cbn [parseRawString_loop].
    destruct (Ascii.eqb c Ch.backslash).
    + destruct raw1 as [|c' raw2]; [discriminate Hbody |].
      apply andb_true_iff in Hbody as [Hacc Hbody]. simpl in Hn.
      cbn [append]. rewrite Hacc. apply IH; [lia | exact Hbody].
    + apply andb_true_iff in Hbody as [Hq Hbody].
      apply negb_true_iff in Hq. rewrite Hq. apply IH; [lia | exact Hbody].
Qed.

Lemma parseRawString_loop_open (n : nat) :
  forall raw,
    String.length raw <= n ->
    literal_body raw = true ->
    parseRawString_loop raw = Ok EmptyString.
Proof.
  induction n as [|n IH]; intros raw Hn Hbody.
  - destruct raw; simpl in Hn; [reflexivity | lia].
  - destruct raw as [|c raw1]; [reflexivity |].
    cbn [literal_body] in Hbody. simpl in Hn.
    cbn [parseRawString_loop].
    destruct (Ascii.eqb c Ch.backslash).
    + destruct raw1 as [|c' raw2]; [discriminate Hbody |].
      apply andb_true_iff in Hbody as [Hacc Hbody]. simpl in Hn.
      rewrite Hacc. apply IH; [lia | exact Hbody].
    + apply andb_true_iff in Hbody as [Hq Hbody].
      apply negb_true_iff in Hq. rewrite Hq. apply IH; [lia | exact Hbody].
Qed.

Lemma parseRawString_loop_bad_escape (n : nat) :
  forall pre rest,
    String.length pre <= n ->
    literal_body pre = true ->
    escape_accepted (deref rest) = false ->
    parseRawString_loop (pre ++ bs ++ rest) = throw BAD_ESCAPE.
Proof.
  induction n as [|n IH]; intros pre rest Hn Hbody Hrest.
  - destruct pre; simpl in Hn; [| lia].
    change (EmptyString ++ bs ++ rest) with (String Ch.backslash rest).
    cbn [parseRawString_loop].
    change (Ascii.eqb Ch.backslash Ch.backslash) with true. cbv iota.
    destruct rest as [|c rest]; [reflexivity |].
    cbn [deref] in Hrest. now rewrite Hrest.
  - destruct pre as [|c pre1].
    + apply (IH EmptyString); [simpl; lia | reflexivity | exact Hrest].
    + cbn [literal_body] in Hbody. simpl in Hn.
      change ((String c pre1) ++ bs ++ rest)
        with (String c (pre1 ++ bs ++ rest)).
      cbn [parseRawString_loop].
      destruct (Ascii.eqb c Ch.backslash).
      * destruct pre1 as [|c' pre2]; [discriminate Hbody |].
        apply andb_true_iff in Hbody as [Hacc Hbody]. simpl in Hn.
        cbn [append]. rewrite Hacc. apply IH; [lia | exact Hbody | exact Hrest].
      * apply andb_true_iff in Hbody as [Hq Hbody].
        apply negb_true_iff in Hq. rewrite Hq.
        apply IH; [lia | exact Hbody | exact Hrest].
Qed.

Lemma parseRawString_accepts (raw : string) (cur' : cursor) :
  literal_body raw = true ->
  at_end cur' = false ->
  parseRawString (q ++ raw ++ q ++ cur') = Ok (raw, cur').
Proof.
  intros Hbody Hne. unfold parseRawString.
  change (q ++ raw ++ q ++ cur') with (String Ch.dquote (raw ++ q ++ cur')).
  cbn [deref]. change (Ascii.eqb Ch.dquote Ch.dquote) with true.
  cbn [negb]. cbv iota.
  change (next (String Ch.dquote (raw ++ q ++ cur'))) with (raw ++ q ++ cur').
  rewrite (parseRawString_loop_accepts _ raw cur' (le_n _) Hbody).
  cbn [bind]. rewrite Hne.
  unfold distance, make_string. rewrite !length_append.
  replace (String.length raw + (String.length q + String.length cur')
           - String.length cur' - 1) with (String.length raw)
    by (simpl; lia).
  now rewrite take_append.
Qed.

(** X1. [parseRawString] returns exactly on a double quote, a literal
    body (no bare double quote, every backslash followed by one of the
    nine accepted characters), a closing double quote and at least one
    more character; it returns the body as it stands and leaves the
    cursor after the closing quote. *)
Theorem parseRawString_accepts_iff (cur : cursor) (raw : string)
        (cur' : cursor) :
  parseRawString cur = Ok (raw, cur')
  <-> cur = q ++ raw ++ q ++ cur'
      /\ literal_body raw = true
      /\ at_end cur' = false.
Proof.
  split.
  - intros H. destruct (parseRawString_inv _ _ _ H) as [Hcur Hbody].
    repeat split; try assumption.
    unfold parseRawString in H.
    destruct (negb (Ascii.eqb (deref cur) Ch.dquote)); [discriminate H |].
    destruct (parseRawString_loop (next cur)) as [cur2| | |];
      cbn [bind] in H; try discriminate H.
    destruct (at_end cur2) eqn:Hend; [discriminate H |].
    inversion H; subst. exact Hend.
  - intros [-> [Hbody Hne]]. now apply parseRawString_accepts.
Qed.

Lemma parseRawString_accepts_iff_witness :
  parseRawString (q ++ "ab" ++ q ++ ",") = Ok ("ab", ",").
Proof.
  apply (proj2 (parseRawString_accepts_iff (q ++ "ab" ++ q ++ ",") "ab" ",")).
  split; [reflexivity | split; reflexivity].
Defined.

(** X2. A string literal with nothing after it fails with JSON_LENGTH,
    whether its closing double quote is missing or is the last
    character of the input. *)
Theorem parseRawString_JSON_LENGTH (raw : string) :
  literal_body raw = true ->
  parseRawString (q ++ raw) = throw JSON_LENGTH
  /\ parseRawString (q ++ raw ++ q) = throw JSON_LENGTH.
Proof.
  intros Hbody. unfold parseRawString. split.
  - change (q ++ raw) with (String Ch.dquote raw).
    cbn [deref]. change (Ascii.eqb Ch.dquote Ch.dquote) with true.
    cbn [negb]. cbv iota.
    change (next (String Ch.dquote raw)) with raw.
    now rewrite (parseRawString_loop_open _ raw (le_n _) Hbody).
  - change (q ++ raw ++ q) with (String Ch.dquote (raw ++ q ++ EmptyString)).
    cbn [deref]. change (Ascii.eqb Ch.dquote Ch.dquote) with true.
    cbn [negb]. cbv iota.
    change (next (String Ch.dquote (raw ++ q ++ EmptyString)))
      with (raw ++ q ++ EmptyString).
    now rewrite (parseRawString_loop_accepts _ raw EmptyString (le_n _) Hbody).
Qed.

Lemma parseRawString_JSON_LENGTH_witness :
  parseRawString (q ++ "no end") = throw JSON_LENGTH
  /\ parseRawString (q ++ "no end" ++ q) = throw JSON_LENGTH.
Proof. apply (parseRawString_JSON_LENGTH "no end"). reflexivity. Defined.

(** X3. In a string literal, a backslash that is the last character of
    the input, or is followed by a character other than the nine
    accepted ones, fails with BAD_ESCAPE. *)
Theorem parseRawString_BAD_ESCAPE (pre rest : string) :
  literal_body pre = true ->
  escape_accepted (deref rest) = false ->
  parseRawString (q ++ pre ++ bs ++ rest) = throw BAD_ESCAPE.
Proof.
  intros Hbody Hrest. unfold parseRawString.
  change (q ++ pre ++ bs ++ rest) with (String Ch.dquote (pre ++ bs ++ rest)).
  cbn [deref]. change (Ascii.eqb Ch.dquote Ch.dquote) with true.
  cbn [negb]. cbv iota.
  change (next (String Ch.dquote (pre ++ bs ++ rest)))
    with (pre ++ bs ++ rest).
  now rewrite (parseRawString_loop_bad_escape _ pre rest (le_n _) Hbody Hrest).
Qed.

Lemma parseRawString_BAD_ESCAPE_witness :
  parseRawString (q ++ "a" ++ bs ++ "n" ++ bs ++ "x" ++ q ++ "]")
  = throw BAD_ESCAPE
  /\ parseRawString (q ++ "a" ++ bs) = throw BAD_ESCAPE.
Proof.
  split.
  - apply (parseRawString_BAD_ESCAPE ("a" ++ bs ++ "n") ("x" ++ q ++ "]"));
      reflexivity.
  - apply (parseRawString_BAD_ESCAPE "a" EmptyString); reflexivity.
Defined.

(* ================================================================== *)
(** * The codec and the keys of an object *)
(* ================================================================== *)

Lemma literal_body_escape_char (c : ascii) (s : string) :
  literal_body
    (match escape_switch c with
     | Some replaceIdx => escape_replaceStr replaceIdx ++ s
     | None => String c s
     end)
  = literal_body s.
Proof.
  destruct c as [[] [] [] [] [] [] [] []]; reflexivity.
Qed.

Lemma literal_body_escape_chars (s : string) :
  literal_body (escape_chars s) = true.
Proof.
  induction s as [|c s IH]; [reflexivity |].
  simpl escape_chars.
  pose proof (literal_body_escape_char c (escape_chars s)) as H.
  destruct (escape_switch c); now rewrite H.
Qed.

(** X4. For every key, the text [Object::to_string] writes for it (a
    double quote, [escapeJson key], a double quote), followed by at
    least one more character, is a string literal that [parseRawString]
    accepts whole, and [unescapeJson] of what it returns is the key: a
    key survives serialization followed by parsing. *)
Theorem escaped_key_reads_back (key : string) (c : ascii) (rest : string) :
  parseRawString (q ++ escapeJson key ++ q ++ String c rest)
  = Ok (escapeJson key, String c rest)
  /\ unescapeJson (escapeJson key) = key.
Proof.
  split.
  - apply parseRawString_accepts; [| reflexivity].
    rewrite escapeJson_spec. apply literal_body_escape_chars.
  - rewrite escapeJson_spec, unescapeJson_spec.
    apply unescape_escape_chars.
Qed.

(** X5. [unescapeJson] replaces a backslash and the character after it
    by a newline whenever that character is none of t, backslash, b, r,
    double quote and f: not only for the letter n, but for every other
    character as well, the slash and the letter u included. *)
Theorem unescapeJson_other_escape (c : ascii) (rest : string) :
  c <> "t"%char -> c <> Ch.backslash -> c <> "b"%char -> c <> "r"%char ->
  c <> Ch.dquote -> c <> "f"%char ->
  unescapeJson (bs ++ String c rest) = str1 Ch.newline ++ unescapeJson rest.
Proof.
  intros Ht Hbs Hb Hr Hq Hf.
  rewrite !unescapeJson_spec.
  change (bs ++ String c rest) with (String Ch.backslash (String c rest)).
  cbn [unescape_chars].
  change (Ascii.eqb Ch.backslash Ch.backslash) with true. cbv iota.
  f_equal. unfold unescape_switch.
  apply Ascii.eqb_neq in Ht, Hbs, Hb, Hr, Hq, Hf.
  rewrite Ht, Hbs, Hb, Hr, Hq, Hf.
  now destruct (Ascii.eqb c "n").
Qed.

Lemma unescapeJson_other_escape_witness :
  unescapeJson (bs ++ "/path") = str1 Ch.newline ++ unescapeJson "path".
Proof.
  apply (unescapeJson_other_escape "/" "path"); discriminate.
Defined.

Lemma escape_switch_escaped (c : ascii) :
  match escape_switch c with Some _ => false | None => true end
  = negb (escaped_char c).
Proof.
  destruct c as [[] [] [] [] [] [] [] []]; reflexivity.
Qed.

Lemma escape_chars_app (a b : string) :
  escape_chars (a ++ b) = escape_chars a ++ escape_chars b.
Proof.
  induction a as [|c a IH]; [reflexivity |].
  simpl. rewrite IH. destruct (escape_switch c); [| reflexivity].
  now rewrite append_assoc.
Qed.

(** X6. [escapeJson] works character by character: the escape of a
    concatenation is the concatenation of the escapes, and a text with
    none of newline, tab, backslash, backspace, carriage return and
    double quote in it is returned unchanged. *)
Theorem escapeJson_app_and_plain :
  (forall a b : string, escapeJson (a ++ b) = escapeJson a ++ escapeJson b)
  /\ (forall s : string,
         all_chars (fun c => negb (escaped_char c)) s = true
         <-> escapeJson s = s).
Proof.
  split.
  - intros a b. rewrite !escapeJson_spec. apply escape_chars_app.
  - intros s. rewrite escapeJson_spec.
    induction s as [|c s IH]; [now split |].
    simpl. rewrite <- (escape_switch_escaped c).
    destruct (escape_switch c) as [i|] eqn:Hsw.
    + split; [discriminate |]. intros H.
      apply (f_equal String.length) in H.
      rewrite length_append, (escape_replaceStr_length c i Hsw) in H.
      simpl in H.
      assert (Hlen : forall t, String.length t <= String.length (escape_chars t)).
      { clear. induction t as [|x t IHt]; simpl; [lia |].
        destruct (escape_switch x) as [j|] eqn:Hj; simpl; [| lia].
        rewrite length_append, (escape_replaceStr_length x j Hj). lia. }
      specialize (Hlen s). lia.
    + simpl. rewrite IH. split; [now intros -> | now intros [= ->]].
Qed.

Lemma escapeJson_app_and_plain_witness :
  escapeJson ("a" ++ str1 Ch.tab) = escapeJson "a" ++ escapeJson (str1 Ch.tab)
  /\ escapeJson "abc" = "abc".
Proof.
  split.
  - apply (proj1 escapeJson_app_and_plain).
  - apply (proj1 (proj2 escapeJson_app_and_plain "abc")). reflexivity.
Defined.

(* ================================================================== *)
(** * Number literals *)
(* ================================================================== *)

Lemma skipDigit_stop (rest : string) :
  isdigit (deref rest) = false -> skipDigit rest = rest.
Proof. destruct rest as [|c rest]; simpl; [reflexivity | now intros ->]. Qed.

Lemma skipDigit_app (ds rest : string) :
  all_chars isdigit ds = true ->
  isdigit (deref rest) = false ->
  skipDigit (ds ++ rest) = rest.
Proof.
  intros Hds Hrest. induction ds as [|c ds IH]; simpl.
  - now apply skipDigit_stop.
  - simpl in Hds. apply andb_true_iff in Hds as [-> Hds]. auto.
Qed.

Lemma skipDigit_split (cur : cursor) :
  exists ds,
    all_chars isdigit ds = true
    /\ cur = ds ++ skipDigit cur
    /\ isdigit (deref (skipDigit cur)) = false.
Proof.
  induction cur as [|c cur [ds [Hds [Hcur Hstop]]]].
  - exists EmptyString. repeat split.
  - simpl. destruct (isdigit c) eqn:Hc.
    + exists (String c ds). simpl. rewrite Hc, Hds. repeat split; auto.
      now rewrite <- Hcur.
    + exists EmptyString. simpl. repeat split. exact Hc.
Qed.

Lemma make_string_distance (pre cur' : string) :
  make_string (pre ++ cur') (distance (pre ++ cur') cur') = pre.
Proof.
  unfold make_string, distance. rewrite length_append.
  replace (String.length pre + String.length cur' - String.length cur')
    with (String.length pre) by lia.
  apply take_append.
Qed.

Lemma deref_eqb_next (cur : cursor) (c : ascii) :
  Ascii.eqb (deref cur) c = true -> Ascii.eqb c Ch.nul = false ->
  cur = String c (next cur).
Proof.
  intros H Hc. destruct cur as [|x cur].
  - cbn [deref] in H. apply Ascii.eqb_eq in H. subst c. discriminate Hc.
  - cbn [deref] in H. apply Ascii.eqb_eq in H. now subst x.
Qed.

Lemma isdigit_not (c x : ascii) :
  isdigit c = true -> isdigit x = false -> Ascii.eqb c x = false.
Proof.
  intros Hc Hx. apply Ascii.eqb_neq. intros ->. congruence.
Qed.

Lemma deref_app_nonempty (a b : string) :
  at_end a = false -> deref (a ++ b) = deref a.
Proof. destruct a; [discriminate | reflexivity]. Qed.

Lemma number_tail_text_not_digit (t : number_tail) (rest : string) :
  number_tail_ok t = true -> number_ends t rest = true ->
  isdigit (deref (number_tail_text t ++ rest)) = false.
Proof.
  intros Hok Hends. unfold number_ends in Hends.
  apply andb_true_iff in Hends as [Hd _]. apply negb_true_iff in Hd.
  destruct t as [|fs|[] esign es]; try reflexivity. exact Hd.
Qed.

(** A well-formed number text before a text it ends at is what
    [parseNumber] reads, whole. *)
Lemma parseNumber_accepts (neg : bool) (ds : string) (t : number_tail)
      (rest : string) :
  int_part ds = true ->
  number_tail_ok t = true ->
  number_ends t rest = true ->
  parseNumber (number_text neg ds t ++ rest)
  = Ok (Value_of_type ValueType.Number (v_string (number_text neg ds t)),
        rest).
Proof.
  intros Hint Hok Hends.
  pose proof (number_tail_text_not_digit t rest Hok Hends) as Htail.
  destruct ds as [|c ds']; [discriminate Hint |].
  cbn [int_part] in Hint.
  apply andb_true_iff in Hint as [Hint Hzero].
  apply andb_true_iff in Hint as [Hc Hds'].
  set (body := String c ds' ++ number_tail_text t ++ rest).
  assert (Hcur0 : number_text neg (String c ds') t ++ rest
                  = (if neg then "-" else EmptyString) ++ body).
  { unfold number_text, body. now rewrite !append_assoc. }
  assert (Hsign : (if Ascii.eqb (deref ((if neg then "-" else EmptyString)
                                        ++ body)) "-"
                   then next ((if neg then "-" else EmptyString) ++ body)
                   else (if neg then "-" else EmptyString) ++ body) = body).
  { destruct neg; [reflexivity |].
    cbn [append]. unfold body at 1. cbn [append deref].
    now rewrite (isdigit_not c "-" Hc eq_refl). }
  assert (Hskip : skipDigit body = number_tail_text t ++ rest).
  { unfold body. apply skipDigit_app; [| exact Htail].
    cbn [all_chars]. now rewrite Hc, Hds'. }
  assert (Hlead : negb (at_end body) && Ascii.eqb (deref body) "0"
                  && negb (at_end (next body))
                  && isdigit (deref (next body)) = false).
  { unfold body. cbn [append at_end deref negb andb].
    change (next (String c (ds' ++ number_tail_text t ++ rest)))
      with (ds' ++ number_tail_text t ++ rest).
    apply orb_true_iff in Hzero as [Hz | Hz].
    - apply negb_true_iff in Hz. now rewrite Hz.
    - destruct ds'; [| discriminate Hz]. cbn [append].
      rewrite Htail. now rewrite !andb_false_r. }
  rewrite Hcur0. unfold parseNumber. cbv zeta.
  rewrite Hsign.
  assert (Hfirst : isdigit (deref body) = true) by exact Hc.
  rewrite Hfirst. cbn [negb]. cbv iota.
  rewrite Hlead, Hskip.
  rewrite <- Hcur0.
  assert (Hpay : forall cur',
             cur' = rest ->
             make_string (number_text neg (String c ds') t ++ rest)
                         (distance (number_text neg (String c ds') t ++ rest)
                                   cur')
             = number_text neg (String c ds') t).
  { intros cur' ->. apply make_string_distance. }
  unfold number_ends in Hends. apply andb_true_iff in Hends as [Hd Hends].
  apply negb_true_iff in Hd.
  destruct t as [|fs|upper esign es].
  - apply negb_true_iff in Hends.
    apply orb_false_iff in Hends as [Hends HE].
    apply orb_false_iff in Hends as [Hdot He].
    cbn [number_tail_text append].
    rewrite Hdot, He, HE. cbn [orb]. now rewrite Hpay.
  - cbn [number_tail_text append deref].
    change (Ascii.eqb "." ".") with true. cbv iota.
    change (next (String "." (fs ++ rest))) with (fs ++ rest).
    cbn [number_tail_ok] in Hok.
    rewrite (skipDigit_app fs rest Hok Hd). now rewrite Hpay.
  - cbn [number_tail_ok] in Hok.
    apply andb_true_iff in Hok as [Hne Hes]. apply negb_true_iff in Hne.
    destruct es as [|e es']; [discriminate Hne |].
    cbn [all_chars] in Hes. apply andb_true_iff in Hes as [He Hes'].
    assert (Hexp : skipDigit (String e es' ++ rest) = rest).
    { apply skipDigit_app; [| exact Hd]. cbn [all_chars].
      now rewrite He, Hes'. }
    assert (Hplus : Ascii.eqb e "+" = false)
      by exact (isdigit_not e "+" He eq_refl).
    assert (Hminus : Ascii.eqb e "-" = false)
      by exact (isdigit_not e "-" He eq_refl).
    destruct upper, esign as [[]|];
      cbn [number_tail_text append deref next advance StdString.drop
           at_end orb negb];
      repeat (change (Ascii.eqb "E" ".") with false
              || change (Ascii.eqb "e" ".") with false
              || change (Ascii.eqb "E" "e") with false
              || change (Ascii.eqb "E" "E") with true
              || change (Ascii.eqb "e" "e") with true
              || change (Ascii.eqb "+" "+") with true
              || change (Ascii.eqb "-" "+") with false
              || change (Ascii.eqb "-" "-") with true);
      cbn [orb]; cbv iota;
      try rewrite Hplus; try rewrite Hminus; cbn [orb]; cbv iota;
      cbn [deref]; rewrite ?He; cbn [negb]; cbv iota;
      change (String e (es' ++ rest)) with (String e es' ++ rest);
      rewrite Hexp; now rewrite Hpay.
Qed.

Lemma skipDigit_split_digit (cur : cursor) :
  isdigit (deref cur) = true ->
  exists c ds',
    isdigit c = true /\ all_chars isdigit ds' = true
    /\ cur = String c ds' ++ skipDigit cur
    /\ isdigit (deref (skipDigit cur)) = false.
Proof.
  intros Hd. destruct cur as [|c cur]; [discriminate Hd |].
  cbn [deref] in Hd. simpl. rewrite Hd.
  destruct (skipDigit_split cur) as [ds' [Hds' [Hcur Hstop]]].
  exists c, ds'. repeat split; auto. simpl. now rewrite <- Hcur.
Qed.

(** What [parseNumber] reads is a well-formed number text, and it ends
    where such a text ends. *)
Lemma parseNumber_inv (cur : cursor) (v : Value) (cur' : cursor) :
  parseNumber cur = Ok (v, cur') ->
  exists neg ds t,
    int_part ds = true
    /\ number_tail_ok t = true
    /\ number_ends t cur' = true
    /\ cur = number_text neg ds t ++ cur'
    /\ v = Value_of_type ValueType.Number (v_string (number_text neg ds t)).
Proof.
  unfold parseNumber. cbv zeta.
  set (neg := Ascii.eqb (deref cur) "-").
  set (cur1 := if neg then next cur else cur).
  assert (Hcur : cur = (if neg then "-" else EmptyString) ++ cur1).
  { subst cur1 neg. destruct (Ascii.eqb (deref cur) "-") eqn:Hm;
      [| reflexivity].
    exact (deref_eqb_next cur "-" Hm eq_refl). }
  destruct (isdigit (deref cur1)) eqn:Hd; cbn [negb]; [| discriminate].
  destruct (negb (at_end cur1) && Ascii.eqb (deref cur1) "0"
            && negb (at_end (next cur1)) && isdigit (deref (next cur1)))
    eqn:Hlead; [discriminate |].
  destruct (skipDigit_split_digit cur1 Hd)
    as [c [ds' [Hc [Hds' [Hcur1 Hstop]]]]].
  assert (Hint : int_part (String c ds') = true).
  { cbn [int_part]. rewrite Hc, Hds'. cbn [andb].
    rewrite Hcur1 in Hlead. cbn [append at_end deref negb andb] in Hlead.
    change (next (String c (ds' ++ skipDigit cur1)))
      with (ds' ++ skipDigit cur1) in Hlead.
    destruct (Ascii.eqb c "0"); [| reflexivity]. cbn [negb orb andb] in *.
    destruct ds' as [|d ds'']; [reflexivity |].
    cbn [all_chars] in Hds'. apply andb_true_iff in Hds' as [Hdd _].
    cbn [append at_end deref negb andb] in Hlead. congruence. }
  clear Hlead.
  set (cur2 := skipDigit cur1) in *.
  destruct (Ascii.eqb (deref cur2) ".") eqn:Hdot.
  - (* a fraction *)
    intros H. injection H as Hv Hc'.
    pose proof (deref_eqb_next cur2 "." Hdot eq_refl) as Hcur2.
    destruct (skipDigit_split (next cur2)) as [fs [Hfs [Hcur3 Hstop3]]].
    rewrite Hc' in *.
    exists neg, (String c ds'), (tail_fraction fs).
    assert (Hfull : cur = number_text neg (String c ds') (tail_fraction fs)
                          ++ cur').
    { rewrite Hcur at 1. rewrite Hcur1, Hcur2, Hcur3.
      unfold number_text. cbn [number_tail_text].
      now rewrite !append_assoc. }
    repeat split; try assumption.
    + unfold number_ends. now rewrite Hstop3.
    + rewrite <- Hv. rewrite Hfull at 1 2. now rewrite make_string_distance.
  - destruct (Ascii.eqb (deref cur2) "e" || Ascii.eqb (deref cur2) "E")
      eqn:Hexp.
    + (* an exponent *)
      destruct (at_end (next cur2)) eqn:Hend; [discriminate |].
      set (esg := Ascii.eqb (deref (next cur2)) "+"
                  || Ascii.eqb (deref (next cur2)) "-").
      set (cur4 := if esg then next (next cur2) else next cur2).
      destruct (isdigit (deref cur4)) eqn:Hd4; cbn [negb]; [| discriminate].
      intros H. injection H as Hv Hc'.
      destruct (skipDigit_split_digit cur4 Hd4)
        as [e [es' [He [Hes' [Hcur4 Hstop4]]]]].
      assert (Hmark : exists upper : bool,
                 cur2 = (if upper then "E" else "e") ++ next cur2).
      { destruct (Ascii.eqb (deref cur2) "e") eqn:Hlow.
        - exists false. exact (deref_eqb_next cur2 "e" Hlow eq_refl).
        - cbn [orb] in Hexp. exists true.
          exact (deref_eqb_next cur2 "E" Hexp eq_refl). }
      destruct Hmark as [upper Hcur2].
      assert (Hsg : exists esign : option bool,
                 next cur2
                 = match esign with
                   | None => EmptyString
                   | Some true => "+"
                   | Some false => "-"
                   end ++ cur4).
      { subst cur4 esg.
        destruct (Ascii.eqb (deref (next cur2)) "+") eqn:Hp.
        - exists (Some true). cbn [orb].
          exact (deref_eqb_next _ "+" Hp eq_refl).
        - destruct (Ascii.eqb (deref (next cur2)) "-") eqn:Hm.
          + exists (Some false). cbn [orb].
            exact (deref_eqb_next _ "-" Hm eq_refl).
          + exists None. reflexivity. }
      destruct Hsg as [esign Hcur3].
      rewrite Hc' in *.
      exists neg, (String c ds'), (tail_exponent upper esign (String e es')).
      assert (Hfull : cur = number_text neg (String c ds')
                              (tail_exponent upper esign (String e es'))
                            ++ cur').
      { rewrite Hcur at 1. rewrite Hcur1, Hcur2, Hcur3, Hcur4.
        unfold number_text. cbn [number_tail_text].
        now rewrite !append_assoc. }
      repeat split; try assumption.
      * cbn [number_tail_ok at_end negb andb all_chars]. now rewrite He, Hes'.
      * unfold number_ends. now rewrite Hstop4.
      * rewrite <- Hv. rewrite Hfull at 1 2.
        now rewrite make_string_distance.
    + (* the integer part alone *)
      intros H. injection H as Hv Hc'.
      rewrite Hc' in *.
      exists neg, (String c ds'), tail_none.
      assert (Hfull : cur = number_text neg (String c ds') tail_none ++ cur').
      { rewrite Hcur at 1. rewrite Hcur1.
        unfold number_text. cbn [number_tail_text].
        now rewrite !append_assoc. }
      repeat split; try assumption.
      * unfold number_ends. rewrite Hstop, Hdot. cbn [negb andb orb].
        now rewrite Hexp.
      * rewrite <- Hv. rewrite Hfull at 1 2.
        now rewrite make_string_distance.
Qed.

(** X7. The number grammar of [parseNumber]: it returns exactly on an
    optional minus sign, an integer part (digits, with no digit after a
    leading 0), and then nothing, or a dot and any digits (none
    allowed), or an exponent mark with an optional sign and at least one
    digit; it stops before the first character that cannot continue
    that text (after a fraction it does not read an exponent), stores
    the text read as the Number payload, and when it does not return it
    throws BAD_NUMBER. *)
Theorem parseNumber_grammar (cur : cursor) :
  (forall v cur',
      parseNumber cur = Ok (v, cur')
      <-> exists neg ds t,
        int_part ds = true
        /\ number_tail_ok t = true
        /\ number_ends t cur' = true
        /\ cur = number_text neg ds t ++ cur'
        /\ v = Value_of_type ValueType.Number
                 (v_string (number_text neg ds t)))
  /\ ((exists v cur', parseNumber cur = Ok (v, cur'))
      \/ parseNumber cur = throw BAD_NUMBER).
Proof.
  split.
  - intros v cur'. split.
    + apply parseNumber_inv.
    + intros [neg [ds [t [Hint [Hok [Hends [-> ->]]]]]]].
      now apply parseNumber_accepts.
  - unfold parseNumber. cbv zeta.
    repeat break_if; try (now right); left; eauto.
Qed.

Lemma parseNumber_grammar_witness :
  parseNumber "-12.5,"
  = Ok (Value_of_type ValueType.Number (v_string "-12.5"), ",").
Proof.
  apply (proj2 (proj1 (parseNumber_grammar "-12.5,") _ _)).
  exists true, "12", (tail_fraction "5").
  split; [reflexivity | split; [reflexivity | split; [reflexivity |]]].
  split; reflexivity.
Defined.

(** X8. A scalar is written back as it was read: when [parseValue]
    returns on a text that opens neither an array nor an object, the
    text it consumed is exactly what [to_string] returns for the value
    (the number literal, the word true, false or null, or the string
    literal with its quotes and escapes). *)
Theorem parseValue_scalar_verbatim (fuel : nat) (cur : cursor) (v : Value)
        (cur' : cursor) :
  deref cur <> "["%char ->
  deref cur <> "{"%char ->
  parseValue fuel cur = Ok (v, cur') ->
  exists text, cur = text ++ cur' /\ Value_to_string v = Ok text.
Proof.
  intros Hbracket Hbrace H.
  destruct fuel as [|fuel]; [discriminate H |].
  cbn [parseValue] in H. cbv zeta in H.
  apply Ascii.eqb_neq in Hbracket, Hbrace.
  rewrite Hbracket, Hbrace in H.
  destruct (Ascii.eqb (deref cur) "t" || Ascii.eqb (deref cur) "f").
  { unfold parseBoolean in H.
    destruct (Ascii.eqb (deref cur) "t").
    - destruct (String.eqb (make_string cur 4) "true") eqn:Hw;
        [| discriminate H].
      pose proof (make_string_eqb cur "true" Hw) as Hcur.
      apply String.eqb_eq in Hw. rewrite Hw in H.
      injection H as <- <-. exists "true". split; [exact Hcur | reflexivity].
    - destruct (Ascii.eqb (deref cur) "f"); [| discriminate H].
      destruct (String.eqb (make_string cur 5) "false") eqn:Hw;
        [| discriminate H].
      pose proof (make_string_eqb cur "false" Hw) as Hcur.
      apply String.eqb_eq in Hw. rewrite Hw in H.
      injection H as <- <-. exists "false". split; [exact Hcur | reflexivity]. }
  destruct (Ascii.eqb (deref cur) "n").
  { unfold parseNull in H.
    destruct (String.eqb (make_string cur 4) "null") eqn:Hw;
      [| discriminate H].
    injection H as <- <-. exists "null". split; [| reflexivity].
    exact (make_string_eqb cur "null" Hw). }
  destruct (Ascii.eqb (deref cur) Ch.dquote).
  { unfold parseString in H.
    destruct (parseRawString cur) as [[str cur1]| | |] eqn:Hraw;
      cbn [bind] in H; try discriminate H.
    injection H as <- <-.
    apply parseRawString_inv in Hraw as [Hcur _].
    exists (q ++ str ++ q). split; [| reflexivity].
    rewrite Hcur. now rewrite !append_assoc. }
  destruct (Ascii.eqb (deref cur) "-" || isdigit (deref cur));
    [| discriminate H].
  apply parseNumber_inv in H
    as [neg [ds [t [_ [_ [_ [Hcur ->]]]]]]].
  exists (number_text neg ds t). split; [exact Hcur | reflexivity].
Qed.

Lemma parseValue_scalar_verbatim_witness :
  exists text,
    "-12.50e3, true]" = text ++ "e3, true]"
    /\ Value_to_string
         (Value_of_type ValueType.Number (v_string "-12.50")) = Ok text.
Proof.
  apply (parseValue_scalar_verbatim 1 "-12.50e3, true]");
    [discriminate | discriminate | reflexivity].
Defined.

(** X9. A 0 followed by a digit at the start of a number, with or
    without a minus sign before it, fails with BAD_NUMBER, whatever
    follows. *)
Theorem parseNumber_leading_zero (neg : bool) (d : ascii) (rest : string) :
  isdigit d = true ->
  parseNumber ((if neg then "-" else EmptyString)
               ++ "0" ++ String d rest)
  = throw BAD_NUMBER.
Proof.
  intros Hd. unfold parseNumber. cbv zeta.
  destruct neg; cbn [append deref next advance StdString.drop at_end];
    (change (Ascii.eqb "-" "-") with true
     || change (Ascii.eqb "0" "-") with false);
    cbv iota; cbn [deref next advance StdString.drop at_end];
    change (isdigit "0") with true; cbn [negb andb]; cbv iota;
    change (Ascii.eqb "0" "0") with true; cbn [andb];
    now rewrite Hd.
Qed.

Lemma parseNumber_leading_zero_witness :
  parseNumber "01]" = throw BAD_NUMBER
  /\ parseNumber "-007" = throw BAD_NUMBER.
Proof.
  split.
  - apply (parseNumber_leading_zero false "1" "]"). reflexivity.
  - apply (parseNumber_leading_zero true "0" "7"). reflexivity.
Defined.

(* ================================================================== *)
(** * Fuel *)
(* ================================================================== *)

Section FuelContainers.
Variables pv pv' : cursor -> result (Value * cursor).
Hypothesis pv_extends :
  forall cur, pv cur <> OutOfFuel -> pv' cur = pv cur.

Lemma parseArray_loop_fuel (fuel : nat) :
  forall fuel' cur array_data,
    fuel <= fuel' ->
    parseArray_loop pv fuel cur array_data <> OutOfFuel ->
    parseArray_loop pv' fuel' cur array_data
    = parseArray_loop pv fuel cur array_data.
Proof.
  induction fuel as [|fuel IH]; intros fuel' cur array_data Hle Hrun;
    [now contradiction Hrun |].
  destruct fuel' as [|fuel']; [lia |].
  cbn [parseArray_loop] in *.
  assert (Hpv : pv (skipWhiteSpace cur) <> OutOfFuel)
    by (intros Heq; rewrite Heq in Hrun; now apply Hrun).
  rewrite (pv_extends _ Hpv).
  destruct (pv (skipWhiteSpace cur)) as [[value cur2]| | |];
    cbn [bind] in *; try reflexivity.
  destruct (Ascii.eqb (deref (skipWhiteSpace cur2)) ","); [| reflexivity].
  apply IH; [lia | exact Hrun].
Qed.

Lemma parseObject_loop_fuel (fuel : nat) :
  forall fuel' cur object_data,
    fuel <= fuel' ->
    parseObject_loop pv fuel cur object_data <> OutOfFuel ->
    parseObject_loop pv' fuel' cur object_data
    = parseObject_loop pv fuel cur object_data.
Proof.
  induction fuel as [|fuel IH]; intros fuel' cur object_data Hle Hrun;
    [now contradiction Hrun |].
  destruct fuel' as [|fuel']; [lia |].
  cbn [parseObject_loop] in *.
  destruct (parseRawString (skipWhiteSpace cur)) as [[key cur1]| | |];
    cbn [bind] in *; try reflexivity.
  destruct (negb (Ascii.eqb (deref (skipWhiteSpace cur1)) ":"));
    [reflexivity |].
  assert (Hpv : pv (skipWhiteSpace (next (skipWhiteSpace cur1)))
                <> OutOfFuel)
    by (intros Heq; rewrite Heq in Hrun; now apply Hrun).
  rewrite (pv_extends _ Hpv).
  destruct (pv (skipWhiteSpace (next (skipWhiteSpace cur1))))
    as [[value cur2]| | |]; cbn [bind] in *; try reflexivity.
  destruct (Ascii.eqb (deref (skipWhiteSpace cur2)) ","); [| reflexivity].
  apply IH; [lia | exact Hrun].
Qed.
End FuelContainers.

(** More fuel does not change what [parseValue] does once it has
    enough. *)
Lemma parseValue_fuel (fuel : nat) :
  forall fuel' cur,
    fuel <= fuel' ->
    parseValue fuel cur <> OutOfFuel ->
    parseValue fuel' cur = parseValue fuel cur.
Proof.
  induction fuel as [|fuel IH]; intros fuel' cur Hle Hrun;
    [now contradiction Hrun |].
  destruct fuel' as [|fuel']; [lia |].
  cbn [parseValue] in *. cbv zeta in *.
  repeat (break_if; [reflexivity |]).
  break_if.
  { unfold parseArray_with in *. break_if; [reflexivity |].
    apply parseArray_loop_fuel; [| lia | exact Hrun].
    intros c Hc. apply IH; [lia | exact Hc]. }
  break_if; [| reflexivity].
  unfold parseObject_with in *. break_if; [reflexivity |].
  apply parseObject_loop_fuel; [| lia | exact Hrun].
  intros c Hc. apply IH; [lia | exact Hc].
Qed.

Lemma parsed_not_OutOfFuel (bound : nat) (r : result (Value * cursor)) :
  parsed bound r -> r <> OutOfFuel.
Proof. intros H ->. exact H. Qed.

(** [parseStart] does the same on every fuel that is at least the
    length of the text. *)
Lemma parseStart_fuel (fuel fuel' : nat) (cur : cursor) :
  String.length cur <= fuel -> fuel <= fuel' ->
  parseStart fuel' cur = parseStart fuel cur.
Proof.
  intros Hlen Hle. unfold parseStart.
  pose proof (skipWhiteSpace_length cur) as Hws.
  assert (Hpv : forall f c, String.length cur <= f -> fuel <= f ->
                            String.length c < fuel ->
                            parseValue fuel c <> OutOfFuel ->
                            parseValue f c = parseValue fuel c)
    by (intros f c _ Hf _ Hc; now apply parseValue_fuel).
  destruct (Ascii.eqb (deref (skipWhiteSpace cur)) "{") eqn:Hbrace.
  - replace (parseObject fuel' (skipWhiteSpace cur))
      with (parseObject fuel (skipWhiteSpace cur)); [reflexivity |].
    unfold parseObject, parseObject_with. break_if; [reflexivity |].
    symmetry. apply parseObject_loop_fuel; [| exact Hle |].
    + intros c Hc. now apply parseValue_fuel.
    + eapply parsed_not_OutOfFuel.
      apply (parseObject_loop_parsed (parseValue fuel) fuel);
        [intros c Hc; now apply parseValue_parsed | | lia | reflexivity].
      pose proof (next_progress _ (deref_not_at_end _ _ Hbrace eq_refl)).
      pose proof (skipWhiteSpace_length (next (skipWhiteSpace cur))). lia.
  - destruct (Ascii.eqb (deref (skipWhiteSpace cur)) "[") eqn:Hbracket;
      [| reflexivity].
    replace (parseArray fuel' (skipWhiteSpace cur))
      with (parseArray fuel (skipWhiteSpace cur)); [reflexivity |].
    unfold parseArray, parseArray_with. break_if; [reflexivity |].
    symmetry. apply parseArray_loop_fuel; [| exact Hle |].
    + intros c Hc. now apply parseValue_fuel.
    + eapply parsed_not_OutOfFuel.
      apply (parseArray_loop_parsed (parseValue fuel) fuel);
        [intros c Hc; now apply parseValue_parsed | | lia | reflexivity].
      pose proof (next_progress _ (deref_not_at_end _ _ Hbracket eq_refl)).
      pose proof (skipWhiteSpace_length (next (skipWhiteSpace cur))). lia.
Qed.

(* ================================================================== *)
(** * Whitespace around a document *)
(* ================================================================== *)

Lemma skipWhiteSpace_all (ws : string) :
  all_chars is_whitespace ws = true -> skipWhiteSpace ws = EmptyString.
Proof.
  induction ws as [|c ws IH]; simpl; [reflexivity |].
  intros H. apply andb_true_iff in H as [-> H]. auto.
Qed.

(** X10. The empty text, and every text made of whitespace only, fails
    with NOT_JSON. *)
Theorem parse_blank (json_data : string) :
  all_chars is_whitespace json_data = true ->
  parse json_data = throw NOT_JSON.
Proof.
  intros H. unfold parse, parseStart.
  now rewrite (skipWhiteSpace_all _ H).
Qed.

Lemma parse_blank_witness :
  parse EmptyString = throw NOT_JSON
  /\ parse (" " ++ str1 Ch.tab ++ str1 Ch.newline ++ str1 Ch.cr)
     = throw NOT_JSON.
Proof.
  split.
  - apply (parse_blank EmptyString). reflexivity.
  - apply (parse_blank (" " ++ str1 Ch.tab ++ str1 Ch.newline ++ str1 Ch.cr)).
    reflexivity.
Defined.

(** X11. Whitespace (space, newline, carriage return, tab) before a
    document changes nothing: [parse] returns the same value, or throws
    the same error, with or without it. *)
Theorem parse_leading_whitespace (ws json_data : string) :
  all_chars is_whitespace ws = true ->
  parse (ws ++ json_data) = parse json_data.
Proof.
  intros Hws. unfold parse.
  rewrite length_append.
  transitivity (parseStart (String.length ws + String.length json_data)
                           json_data).
  - unfold parseStart. now rewrite (skipWhiteSpace_append ws _ Hws).
  - apply parseStart_fuel; lia.
Qed.

Lemma parse_leading_whitespace_witness :
  parse (str1 Ch.newline ++ "  " ++ "[1, 2]") = parse "[1, 2]"
  /\ parse (str1 Ch.tab ++ "{1}") = parse "{1}".
Proof.
  split.
  - apply (parse_leading_whitespace (str1 Ch.newline ++ "  ") "[1, 2]").
    reflexivity.
  - apply (parse_leading_whitespace (str1 Ch.tab) "{1}"). reflexivity.
Defined.

(* ================================================================== *)
(** * What the parser builds *)
(* ================================================================== *)

Section ParserInvariant.
Variable P : Value -> Prop.
Hypothesis P_null : P Value_default.
Hypothesis P_bool :
  forall b : bool,
    P (Value_of_type ValueType.Boolean
         (v_string (if b then "true" else "false"))).
Hypothesis P_number :
  forall neg ds t,
    int_part ds = true -> number_tail_ok t = true ->
    P (Value_of_type ValueType.Number (v_string (number_text neg ds t))).
Hypothesis P_string :
  forall s, literal_body s = true ->
            P (Value_of_type ValueType.String (v_string s)).
Hypothesis P_array :
  forall arr, Forall P arr -> P (Value_of_Array arr).
Hypothesis P_object :
  forall obj, StdMap.sorted obj = true ->
              Forall (fun kv => P (snd kv)) obj ->
              P (Value_of_Object obj).

Lemma Forall_emplace (k : string) (v : Value) (m : Object) :
  P v -> Forall (fun kv => P (snd kv)) m ->
  Forall (fun kv => P (snd kv)) (StdMap.emplace k v m).
Proof.
  intros Hv. induction 1 as [|[k' v'] m Hv' Hm IH]; simpl.
  - now constructor.
  - destruct (String.compare k k'); repeat constructor; auto.
Qed.

Section Loops.
Variable pv : cursor -> result (Value * cursor).
Hypothesis pv_P : forall cur v cur', pv cur = Ok (v, cur') -> P v.

Lemma parseArray_loop_invariant (fuel : nat) :
  forall cur array_data v cur',
    Forall P array_data ->
    parseArray_loop pv fuel cur array_data = Ok (v, cur') -> P v.
Proof.
  induction fuel as [|fuel IH]; intros cur array_data v cur' Hacc H;
    [discriminate H |].
  cbn [parseArray_loop] in H.
  destruct (pv (skipWhiteSpace cur)) as [[value cur2]| | |] eqn:Hpv;
    cbn [bind] in H; try discriminate H.
  assert (Hacc' : Forall P (array_data ++ [value])).
  { apply Forall_app. split; [exact Hacc |].
    constructor; [exact (pv_P _ _ _ Hpv) | constructor]. }
  destruct (Ascii.eqb (deref (skipWhiteSpace cur2)) ",").
  - exact (IH _ _ _ _ Hacc' H).
  - destruct (Ascii.eqb (deref (skipWhiteSpace cur2)) "]");
      [| discriminate H].
    injection H as <- _. now apply P_array.
Qed.

Lemma parseObject_loop_invariant (fuel : nat) :
  forall cur object_data v cur',
    StdMap.sorted object_data = true ->
    Forall (fun kv => P (snd kv)) object_data ->
    parseObject_loop pv fuel cur object_data = Ok (v, cur') -> P v.
Proof.
  induction fuel as [|fuel IH]; intros cur object_data v cur' Hs Hacc H;
    [discriminate H |].
  cbn [parseObject_loop] in H.
  destruct (parseRawString (skipWhiteSpace cur)) as [[key cur1]| | |];
    cbn [bind] in H; try discriminate H.
  destruct (negb (Ascii.eqb (deref (skipWhiteSpace cur1)) ":"));
    [discriminate H |].
  destruct (pv (skipWhiteSpace (next (skipWhiteSpace cur1))))
    as [[value cur2]| | |] eqn:Hpv; cbn [bind] in H; try discriminate H.
  pose proof (emplace_sorted (unescapeJson key) value object_data Hs) as Hs'.
  pose proof (Forall_emplace (unescapeJson key) value object_data
                             (pv_P _ _ _ Hpv) Hacc) as Hacc'.
  destruct (Ascii.eqb (deref (skipWhiteSpace cur2)) ",").
  - exact (IH _ _ _ _ Hs' Hacc' H).
  - destruct (Ascii.eqb (deref (skipWhiteSpace cur2)) "}");
      [| discriminate H].
    injection H as <- _. now apply P_object.
Qed.
End Loops.

(** Every value [parseValue] returns is built from the six shapes
    above. *)
Lemma parseValue_invariant (fuel : nat) :
  forall cur v cur', parseValue fuel cur = Ok (v, cur') -> P v.
Proof.
  induction fuel as [|fuel IH]; intros cur v cur' H; [discriminate H |].
  cbn [parseValue] in H. cbv zeta in H.
  destruct (Ascii.eqb (deref cur) "t" || Ascii.eqb (deref cur) "f").
  { unfold parseBoolean in H.
    destruct (Ascii.eqb (deref cur) "t").
    - destruct (String.eqb (make_string cur 4) "true") eqn:Hw;
        [| discriminate H].
      apply String.eqb_eq in Hw. rewrite Hw in H.
      injection H as <- _. exact (P_bool true).
    - destruct (Ascii.eqb (deref cur) "f"); [| discriminate H].
      destruct (String.eqb (make_string cur 5) "false") eqn:Hw;
        [| discriminate H].
      apply String.eqb_eq in Hw. rewrite Hw in H.
      injection H as <- _. exact (P_bool false). }
  destruct (Ascii.eqb (deref cur) "n").
  { unfold parseNull in H.
    destruct (String.eqb (make_string cur 4) "null"); [| discriminate H].
    injection H as <- _. exact P_null. }
  destruct (Ascii.eqb (deref cur) Ch.dquote).
  { unfold parseString in H.
    destruct (parseRawString cur) as [[str cur1]| | |] eqn:Hraw;
      cbn [bind] in H; try discriminate H.
    injection H as <- _.
    apply parseRawString_inv in Hraw as [_ Hbody]. now apply P_string. }
  destruct (Ascii.eqb (deref cur) "[").
  { unfold parseArray_with in H.
    destruct (Ascii.eqb (deref (skipWhiteSpace (next cur))) "]").
    - injection H as <- _. apply P_array. constructor.
    - eapply parseArray_loop_invariant; [exact IH | constructor | exact H]. }
  destruct (Ascii.eqb (deref cur) "{").
  { unfold parseObject_with in H.
    destruct (Ascii.eqb (deref (skipWhiteSpace (next cur))) "}").
    - injection H as <- _. apply P_object; [reflexivity | constructor].
    - exact (parseObject_loop_invariant (parseValue fuel) IH fuel _ [] v cur'
                                        eq_refl (Forall_nil _) H). }
  destruct (Ascii.eqb (deref cur) "-" || isdigit (deref cur));
    [| discriminate H].
  apply parseNumber_inv in H as [neg [ds [t [Hint [Hok [_ [_ ->]]]]]]].
  now apply P_number.
Qed.

(** And so is every value [parse] returns. *)
Lemma parse_invariant (json_data : string) (v : Value) :
  parse json_data = Ok v -> P v.
Proof.
  unfold parse, parseStart. intros H.
  destruct (Ascii.eqb (deref (skipWhiteSpace json_data)) "{").
  - destruct (parseObject (String.length json_data)
                          (skipWhiteSpace json_data))
      as [[ret cur']| | |] eqn:Hroot; cbn [bind] in H; try discriminate H.
    destruct (negb (Ascii.eqb (deref (skipWhiteSpace cur')) Ch.nul));
      [discriminate H |].
    injection H as <-.
    unfold parseObject, parseObject_with in Hroot.
    destruct (Ascii.eqb
                (deref (skipWhiteSpace (next (skipWhiteSpace json_data))))
                "}").
    + injection Hroot as <- _. apply P_object; [reflexivity | constructor].
    + exact (parseObject_loop_invariant
               (parseValue (String.length json_data))
               (parseValue_invariant (String.length json_data))
               (String.length json_data) _ [] ret cur'
               eq_refl (Forall_nil _) Hroot).
  - destruct (Ascii.eqb (deref (skipWhiteSpace json_data)) "[");
      [| discriminate H].
    destruct (parseArray (String.length json_data)
                         (skipWhiteSpace json_data))
      as [[ret cur']| | |] eqn:Hroot; cbn [bind] in H; try discriminate H.
    destruct (negb (Ascii.eqb (deref (skipWhiteSpace cur')) Ch.nul));
      [discriminate H |].
    injection H as <-.
    unfold parseArray, parseArray_with in Hroot.
    destruct (Ascii.eqb
                (deref (skipWhiteSpace (next (skipWhiteSpace json_data))))
                "]").
    + injection Hroot as <- _. apply P_array. constructor.
    + eapply parseArray_loop_invariant;
        [apply parseValue_invariant | constructor | exact Hroot].
Qed.
End ParserInvariant.

(** X12. In every value [parse] returns, every object, at any depth,
    holds its keys in strictly increasing order, so that no key occurs
    twice, and no array or object pointer is null. *)
Theorem parse_keys_sorted (json_data : string) (v : Value) :
  parse json_data = Ok v ->
  keys_sorted v = true /\ no_null v = true.
Proof.
  apply (parse_invariant (fun v => keys_sorted v = true /\ no_null v = true));
    try (intros; split; reflexivity).
  - intros arr Harr. simpl. split; apply forallb_forall; intros x Hx;
      rewrite Forall_forall in Harr; now apply Harr.
  - intros obj Hs Hobj. simpl. rewrite Hs. simpl.
    split; apply forallb_forall; intros kv Hkv;
      rewrite Forall_forall in Hobj; now apply (Hobj kv).
Qed.

Lemma parse_keys_sorted_witness :
  let v := Value_of_Object
             [("a", Value_of_Array []);
              ("b", Value_of_type ValueType.Number (v_string "1"));
              ("c", Value_default)] in
  keys_sorted v = true /\ no_null v = true.
Proof.
  apply (parse_keys_sorted
           ("{" ++ q ++ "c" ++ q ++ ":null, " ++ q ++ "a" ++ q ++ ":[], "
            ++ q ++ "b" ++ q ++ ":1, " ++ q ++ "a" ++ q ++ ":true}")).
  reflexivity.
Defined.

Section ToStringReturns.
Variable Value_to_string : Value -> result string.

Lemma Array_to_string_loop_returns (l : Array) :
  Forall (fun x => exists text, Value_to_string x = Ok text) l ->
  forall str, exists text, Array_to_string_loop Value_to_string l str = Ok text.
Proof.
  induction 1 as [|x l [t Hx] Hl IH]; intros str; simpl; [eauto |].
  rewrite Hx. simpl. apply IH.
Qed.

Lemma Object_to_string_loop_returns (l : Object) :
  Forall (fun kv => exists text, Value_to_string (snd kv) = Ok text) l ->
  forall str, exists text,
      Object_to_string_loop Value_to_string l str = Ok text.
Proof.
  induction 1 as [|[k x] l [t Hx] Hl IH]; intros str; simpl; [eauto |].
  simpl in Hx. rewrite Hx. simpl. apply IH.
Qed.
End ToStringReturns.

(** X13. [to_string] returns a text, without throwing, for every value
    whose tag matches its variant and whose pointers are not null, at
    every depth: it fails only on a mismatched tag or a moved-from
    container. *)
Theorem Value_to_string_returns (v : Value) :
  synchronized_deep v = true ->
  no_null v = true ->
  exists text, Value_to_string v = Ok text.
Proof.
  induction v as [type s | type | type arr IH | type | type obj IH]
    using Value_ind'; intros Hsync Hnull; try discriminate Hnull.
  - destruct type; try discriminate Hsync; simpl; eauto.
  - destruct type; try discriminate Hsync. simpl in *.
    unfold Array_to_string_with.
    destruct (Array_to_string_loop_returns Value_to_string arr) with (str := "[")
      as [t Ht]; [| rewrite Ht; simpl; eauto].
    rewrite Forall_forall in *. intros x Hx.
    rewrite forallb_forall in Hsync, Hnull. auto.
  - destruct type; try discriminate Hsync. simpl in *.
    unfold Object_to_string_with.
    destruct (Object_to_string_loop_returns Value_to_string obj) with (str := "{")
      as [t Ht]; [| rewrite Ht; simpl; eauto].
    rewrite Forall_forall in *. intros x Hx.
    rewrite forallb_forall in Hsync, Hnull. auto.
Qed.

Lemma Value_to_string_returns_witness :
  exists text,
    Value_to_string
      (Value_of_Object [("k", Value_of_Array [Value_of_bool false])])
    = Ok text.
Proof.
  apply (Value_to_string_returns
           (Value_of_Object [("k", Value_of_Array [Value_of_bool false])]));
    reflexivity.
Defined.

(** X14. The copy constructor and the copy assignment make a full deep
    copy.  For every value without a null pointer, at any depth, the
    copy constructor returns a value equal to the source, nested arrays
    and objects included.  The copy assignment [this = rhs] does so
    whenever the object assigned to is not one of the values [rhs] owns
    (at any depth): it returns, the object assigned to is then equal to
    what [rhs] was, whatever it held before, and no other variable has
    changed.  This covers two unrelated objects, self assignment, and
    [rhs] being a part of the object assigned to. *)
Theorem Value_copy_deep (mem : memory) (this rhs : reference)
        (x r : Value) :
  load mem this = Ok x ->
  load mem rhs = Ok r ->
  no_null r = true ->
  inside this rhs = false ->
  Value_copy r = Ok r
  /\ exists mem',
      Value_copy_assign mem this rhs = Ok mem'
      /\ load mem' this = Ok r
      /\ forall n, n <> ref_var this -> nth_error mem' n = nth_error mem n.
Proof.
  intros Hthis Hrhs Hnull Hin.
  split; [now apply Value_copy_no_null |].
  destruct this as [n p], rhs as [m q]. unfold inside in Hin.
  cbn [ref_var ref_path] in Hin.
  destruct (load_Ok _ _ _ Hthis) as [v [Hv Hx]].
  destruct (load_Ok _ _ _ Hrhs) as [w [Hw Hr]].
  cbn [ref_var ref_path] in Hv, Hx, Hw, Hr.
  destruct (Value_set_total p v x
              (fun y => mkValue (type_ r) (value_data_ y)) Hx) as [v1 Hv1].
  pose proof (Value_get_set_same p v v1 x _ Hx Hv1) as Hx1.
  destruct (Value_set_total p v1 _
              (fun y => mkValue (type_ y) (value_data_ r)) Hx1) as [v2 Hv2].
  pose proof (Value_get_set_same p v1 v2 _ _ Hx1 Hv2) as Hx2.
  cbn [type_ value_data_] in Hx2.
  assert (Hn1 : nth_error (replace_nth mem n v1) n = Some v1)
    by exact (nth_error_replace_nth_same mem n v1 v Hv).
  assert (Hrhs1 : load (replace_nth mem n v1) (mkRef m q) = Ok r).
  { unfold load. cbn [ref_var ref_path].
    destruct (Nat.eq_dec n m) as [<- | Hnm].
    - rewrite Hn1. rewrite Hv in Hw. injection Hw as <-.
      rewrite Nat.eqb_refl in Hin. cbn [andb] in Hin.
      now rewrite (Value_get_set_type p q v v1 r Hin Hv1 Hr).
    - rewrite (nth_error_replace_nth_other mem n m v1 Hnm), Hw.
      now rewrite Hr. }
  exists (replace_nth (replace_nth mem n v1) n v2).
  split; [| split].
  - assert (Hstore1 :
              store mem (mkRef n p)
                    (fun y => mkValue (type_ r) (value_data_ y))
              = Ok (replace_nth mem n v1)).
    { unfold store. cbn [ref_var ref_path]. now rewrite Hv, Hv1. }
    assert (Hstore2 :
              store (replace_nth mem n v1) (mkRef n p)
                    (fun y => mkValue (type_ y) (value_data_ r))
              = Ok (replace_nth (replace_nth mem n v1) n v2)).
    { unfold store. cbn [ref_var ref_path]. now rewrite Hn1, Hv2. }
    unfold Value_copy_assign. rewrite Hrhs. cbn [bind]. cbv zeta.
    rewrite Hstore1. cbn [bind]. rewrite Hrhs1. cbn [bind].
    rewrite (deepCopy_no_null r Hnull). cbn [bind]. exact Hstore2.
  - unfold load. cbn [ref_var ref_path].
    rewrite (nth_error_replace_nth_same _ n v2 v1 Hn1), Hx2.
    now destruct r.
  - intros k Hk. cbn [ref_var] in Hk.
    rewrite (nth_error_replace_nth_other _ n k v2) by congruence.
    apply nth_error_replace_nth_other. congruence.
Qed.

Lemma Value_copy_deep_witness :
  let rhs := Value_of_Array
               [Value_of_Object [("k", Value_of_string "s")]; Value_default] in
  let mem := [Value_of_bool true; rhs] in
  Value_copy rhs = Ok rhs
  /\ exists mem',
      Value_copy_assign mem (var_ref 0) (var_ref 1) = Ok mem'
      /\ load mem' (var_ref 0) = Ok rhs
      /\ forall n, n <> ref_var (var_ref 0) ->
                   nth_error mem' n = nth_error mem n.
Proof.
  apply (Value_copy_deep
           [Value_of_bool true;
            Value_of_Array
              [Value_of_Object [("k", Value_of_string "s")]; Value_default]]
           (var_ref 0) (var_ref 1) (Value_of_bool true)).
  - reflexivity.
  - reflexivity.
  - reflexivity.
  - reflexivity.
Defined.

(* ================================================================== *)
(** * Serializing and parsing again *)
(* ================================================================== *)

Lemma delimiter_cases (rest : string) :
  delimiter rest = true ->
  exists c rest', rest = String c rest'
                  /\ (c = "," \/ c = "]" \/ c = "}")%char.
Proof.
  unfold delimiter. destruct rest as [|c rest']; [discriminate |].
  cbn [deref]. intros H. exists c, rest'. split; [reflexivity |].
  apply orb_true_iff in H as [H | H];
    [apply orb_true_iff in H as [H | H] |];
    apply Ascii.eqb_eq in H; auto.
Qed.

Lemma delimiter_number_ends (t : number_tail) (rest : string) :
  delimiter rest = true -> number_ends t rest = true.
Proof.
  intros H. destruct (delimiter_cases rest H) as [c [rest' [-> Hc]]].
  destruct Hc as [-> | [-> | ->]]; destruct t; reflexivity.
Qed.

Lemma delimiter_not_at_end (rest : string) :
  delimiter rest = true -> at_end rest = false.
Proof.
  intros H. now destruct (delimiter_cases rest H) as [c [rest' [-> _]]].
Qed.

Lemma skipWhiteSpace_delimiter (rest : string) :
  delimiter rest = true -> skipWhiteSpace rest = rest.
Proof.
  intros H. destruct (delimiter_cases rest H) as [c [rest' [-> Hc]]].
  destruct Hc as [-> | [-> | ->]]; reflexivity.
Qed.

Lemma skipWhiteSpace_start (cur : cursor) :
  is_whitespace (deref cur) = false -> skipWhiteSpace cur = cur.
Proof. destruct cur as [|c cur]; simpl; [reflexivity | now intros ->]. Qed.

(** A text on which [parseValue] returns starts with a character that
    starts a value: no whitespace, and no closing bracket. *)
Lemma parseValue_Ok_start (fuel : nat) (cur : cursor)
      (r : Value * cursor) :
  parseValue fuel cur = Ok r ->
  is_whitespace (deref cur) = false
  /\ Ascii.eqb (deref cur) "]" = false
  /\ Ascii.eqb (deref cur) "}" = false.
Proof.
  intros H. destruct fuel as [|fuel]; [discriminate H |].
  cbn [parseValue] in H. cbv zeta in H.
  assert (Hchar : forall c,
             is_whitespace c = true \/ Ascii.eqb c "]" = true
             \/ Ascii.eqb c "}" = true ->
             Ascii.eqb c "t" || Ascii.eqb c "f" = false
             /\ Ascii.eqb c "n" = false /\ Ascii.eqb c Ch.dquote = false
             /\ Ascii.eqb c "[" = false /\ Ascii.eqb c "{" = false
             /\ Ascii.eqb c "-" || isdigit c = false).
  { intros c Hc. unfold is_whitespace in Hc.
    assert (Hin : (c = " " \/ c = Ch.newline \/ c = Ch.cr \/ c = Ch.tab
                   \/ c = "]" \/ c = "}")%char).
    { destruct Hc as [Hc | [Hc | Hc]].
      - repeat (apply orb_true_iff in Hc as [Hc | Hc]);
          apply Ascii.eqb_eq in Hc; auto.
      - apply Ascii.eqb_eq in Hc; auto 6.
      - apply Ascii.eqb_eq in Hc; auto 6. }
    destruct Hin as [-> | [-> | [-> | [-> | [-> | ->]]]]];
      repeat split. }
  destruct (is_whitespace (deref cur)) eqn:Hws.
  { destruct (Hchar _ (or_introl Hws)) as [H1 [H2 [H3 [H4 [H5 H6]]]]].
    rewrite H1, H2, H3, H4, H5, H6 in H. discriminate H. }
  destruct (Ascii.eqb (deref cur) "]") eqn:Hb.
  { destruct (Hchar _ (or_intror (or_introl Hb)))
      as [H1 [H2 [H3 [H4 [H5 H6]]]]].
    rewrite H1, H2, H3, H4, H5, H6 in H. discriminate H. }
  destruct (Ascii.eqb (deref cur) "}") eqn:Hc.
  { destruct (Hchar _ (or_intror (or_intror Hc)))
      as [H1 [H2 [H3 [H4 [H5 H6]]]]].
    rewrite H1, H2, H3, H4, H5, H6 in H. discriminate H. }
  repeat split.
Qed.

Lemma isArray_or_isObject_scalar (type : ValueType.t) (s : string) :
  type <> ValueType.Array -> type <> ValueType.Object ->
  isArray (Value_of_type type (v_string s))
  || isObject (Value_of_type type (v_string s)) = false.
Proof. destruct type; intros Ha Ho; try reflexivity; congruence. Qed.

Lemma round_trips_null : round_trips Value_default.
Proof.
  exists "null". split; [reflexivity | split; [| discriminate]].
  intros fuel rest _ Hlen. destruct fuel as [|fuel]; [lia |]. reflexivity.
Qed.

Lemma round_trips_bool (b : bool) :
  round_trips (Value_of_type ValueType.Boolean
                 (v_string (if b then "true" else "false"))).
Proof.
  exists (if b then "true" else "false").
  split; [now destruct b | split; [| discriminate]].
  intros fuel rest _ Hlen. destruct fuel as [|fuel]; [lia |].
  destruct b; reflexivity.
Qed.

Lemma round_trips_string (s : string) :
  literal_body s = true ->
  round_trips (Value_of_type ValueType.String (v_string s)).
Proof.
  intros Hbody. exists (q ++ s ++ q).
  split; [reflexivity | split; [| discriminate]].
  intros fuel rest [Hrest | Hc]; [| discriminate Hc]. intros Hlen.
  destruct fuel as [|fuel]; [lia |].
  replace ((q ++ s ++ q) ++ rest) with (q ++ s ++ q ++ rest)
    by (now rewrite !append_assoc).
  pose proof (parseRawString_accepts s rest Hbody
                (delimiter_not_at_end _ Hrest)) as Hraw.
  cbn [parseValue]. cbv zeta.
  change (deref (q ++ s ++ q ++ rest)) with Ch.dquote.
  change (Ascii.eqb Ch.dquote "t" || Ascii.eqb Ch.dquote "f") with false.
  change (Ascii.eqb Ch.dquote "n") with false.
  change (Ascii.eqb Ch.dquote Ch.dquote) with true.
  cbv iota. unfold parseString. now rewrite Hraw.
Qed.

Lemma round_trips_number (neg : bool) (ds : string) (t : number_tail) :
  int_part ds = true -> number_tail_ok t = true ->
  round_trips (Value_of_type ValueType.Number
                 (v_string (number_text neg ds t))).
Proof.
  intros Hint Hok. exists (number_text neg ds t).
  split; [reflexivity | split; [| discriminate]].
  intros fuel rest [Hrest | Hc]; [| discriminate Hc]. intros Hlen.
  destruct fuel as [|fuel]; [lia |].
  pose proof (parseNumber_accepts neg ds t rest Hint Hok
                (delimiter_number_ends t rest Hrest)) as Hnum.
  cbn [parseValue]. cbv zeta.
  assert (Hfirst : deref (number_text neg ds t ++ rest) = "-"%char
                   \/ isdigit (deref (number_text neg ds t ++ rest)) = true).
  { unfold number_text. destruct neg; [now left | right].
    destruct ds as [|c ds']; [discriminate Hint |].
    cbn [int_part] in Hint. cbn [append deref].
    apply andb_true_iff in Hint as [Hint _].
    now apply andb_true_iff in Hint as [Hc _]. }
  destruct Hfirst as [Hm | Hd].
  - rewrite Hm.
    change (Ascii.eqb "-" "t" || Ascii.eqb "-" "f") with false.
    change (Ascii.eqb "-" "n") with false.
    change (Ascii.eqb "-" Ch.dquote) with false.
    change (Ascii.eqb "-" "[") with false.
    change (Ascii.eqb "-" "{") with false.
    change (Ascii.eqb "-" "-") with true.
    cbv iota. cbn [orb]. exact Hnum.
  - rewrite (isdigit_not _ "t" Hd eq_refl), (isdigit_not _ "f" Hd eq_refl),
      (isdigit_not _ "n" Hd eq_refl), (isdigit_not _ Ch.dquote Hd eq_refl),
      (isdigit_not _ "[" Hd eq_refl), (isdigit_not _ "{" Hd eq_refl), Hd.
    cbn [orb]. rewrite orb_true_r. exact Hnum.
Qed.

Ltac str_norm :=
  repeat first [rewrite !append_assoc | progress cbn [append]].

Lemma pop_back_app (a : string) (c : ascii) :
  StdString.pop_back (a ++ str1 c) = a.
Proof.
  induction a as [|x a IH]; [reflexivity |].
  simpl. rewrite IH. destruct a; reflexivity.
Qed.

(* ================================================================== *)
(** * String payloads are written as they are stored *)
(* ================================================================== *)

Lemma escape_chars_length (s : string) :
  String.length s <= String.length (escape_chars s).
Proof.
  induction s as [|x s IH]; simpl; [lia |].
  destruct (escape_switch x) as [j|] eqn:Hj; simpl; [| lia].
  rewrite length_append, (escape_replaceStr_length x j Hj). lia.
Qed.

Lemma escape_chars_longer (s : string) :
  all_chars (fun c => negb (escaped_char c)) s = false ->
  String.length s < String.length (escape_chars s).
Proof.
  induction s as [|x s IH]; simpl; [discriminate |].
  rewrite <- (escape_switch_escaped x).
  destruct (escape_switch x) as [j|] eqn:Hj.
  - intros _. rewrite length_append, (escape_replaceStr_length x j Hj).
    pose proof (escape_chars_length s). lia.
  - cbn [andb]. intros H. specialize (IH H). simpl. lia.
Qed.

(** C4. [Value::to_string] does not escape a String payload.  For every
    String value whose payload holds one of the characters [escapeJson]
    replaces, [to_string] returns the payload as it is between two
    double quotes, which is not the escaped form; [Object::to_string]
    does escape the same text when it is a key.  When the character is
    a double quote, the text written is read back by [parseString] as
    another value: the payload cut at that double quote. *)
Theorem String_to_string_unescaped (s : string) :
  all_chars (fun c => negb (escaped_char c)) s = false ->
  Value_to_string (Value_of_string s) = Ok (q ++ s ++ q)
  /\ Value_to_string (Value_of_string s) <> Ok (q ++ escapeJson s ++ q)
  /\ Object_to_string [(s, Value_default)]
     = Ok ("{" ++ q ++ escapeJson s ++ q ++ ":null}")
  /\ (forall a b rest : string,
         s = a ++ q ++ b -> literal_body a = true ->
         parseString (q ++ s ++ q ++ rest)
         = Ok (Value_of_type ValueType.String (v_string a),
               b ++ q ++ rest)).
Proof.
  intros Hs. split; [reflexivity | split; [| split]].
  - cbn [Value_to_string Value_of_string]. fold q. intros H.
    injection H as H. apply (f_equal String.length) in H.
    rewrite !length_append, escapeJson_spec in H.
    pose proof (escape_chars_longer s Hs). lia.
  - unfold Object_to_string, Object_to_string_with.
    cbn [Object_to_string_loop Value_to_string Value_default bind].
    fold q. cbv zeta.
    replace ("{" ++ q ++ escapeJson s ++ q ++ ":" ++ "null" ++ ",")
      with (("{" ++ q ++ escapeJson s ++ q ++ ":null") ++ str1 ",")
      by (str_norm; reflexivity).
    rewrite pop_back_app. str_norm. reflexivity.
  - intros a b rest -> Hbody. unfold parseString.
    replace (q ++ (a ++ q ++ b) ++ q ++ rest)
      with (q ++ a ++ q ++ (b ++ q ++ rest)) by (str_norm; reflexivity).
    rewrite (parseRawString_accepts a (b ++ q ++ rest) Hbody);
      [reflexivity |].
    destruct b; reflexivity.
Qed.

Lemma String_to_string_unescaped_witness :
  let s := "say " ++ q ++ "hi" ++ q in
  Value_to_string (Value_of_string s) = Ok (q ++ s ++ q)
  /\ Value_to_string (Value_of_string s) <> Ok (q ++ escapeJson s ++ q)
  /\ Object_to_string [(s, Value_default)]
     = Ok ("{" ++ q ++ escapeJson s ++ q ++ ":null}")
  /\ (forall a b rest : string,
         s = a ++ q ++ b -> literal_body a = true ->
         parseString (q ++ s ++ q ++ rest)
         = Ok (Value_of_type ValueType.String (v_string a),
               b ++ q ++ rest)).
Proof.
  apply (String_to_string_unescaped ("say " ++ q ++ "hi" ++ q)).
  reflexivity.
Defined.

Lemma concat_comma_join (ts : list string) :
  ts <> [] -> concat_comma ts = join_comma ts ++ ",".
Proof.
  induction ts as [|t ts IH]; [congruence |]. intros _.
  destruct ts as [|t2 ts]; [reflexivity |].
  cbn [concat_comma join_comma] in *. rewrite IH by discriminate.
  now rewrite !append_assoc.
Qed.

Lemma Array_to_string_loop_texts (arr : Array) (ts : list string) :
  Forall2 (fun x t => Value_to_string x = Ok t) arr ts ->
  forall str,
    Array_to_string_loop Value_to_string arr str = Ok (str ++ concat_comma ts).
Proof.
  induction 1 as [|x t arr ts Hx Hrest IH]; intros str; simpl.
  - now rewrite append_nil_r.
  - rewrite Hx. simpl. rewrite IH. now rewrite !append_assoc.
Qed.

Lemma Object_to_string_loop_texts (obj : Object) (ts : list string) :
  Forall2 (fun kv t => Value_to_string (snd kv) = Ok t) obj ts ->
  forall str,
    Object_to_string_loop Value_to_string obj str
    = Ok (str ++ concat_comma (member_texts obj ts)).
Proof.
  induction 1 as [|[k x] t obj ts Hx Hrest IH]; intros str; simpl.
  - now rewrite append_nil_r.
  - simpl in Hx. rewrite Hx. simpl. rewrite IH.
    unfold member_text, str1. now str_norm.
Qed.

Lemma Array_to_string_texts (arr : Array) (ts : list string) :
  Forall2 (fun x t => Value_to_string x = Ok t) arr ts ->
  arr <> [] ->
  Value_to_string (Value_of_Array arr) = Ok ("[" ++ join_comma ts ++ "]").
Proof.
  intros H Hne. cbn [Value_to_string Value_of_Array].
  unfold Array_to_string_with.
  rewrite (Array_to_string_loop_texts arr ts H). cbn [bind].
  assert (Hts : ts <> []) by (destruct H; [congruence | discriminate]).
  rewrite (concat_comma_join ts Hts).
  change ("[" ++ join_comma ts ++ ",")
    with (("[" ++ join_comma ts) ++ str1 ",").
  rewrite <- append_assoc at 1.
  now rewrite pop_back_app.
Qed.

Lemma member_texts_nonempty (obj : Object) (ts : list string) :
  Forall2 (fun kv t => Value_to_string (snd kv) = Ok t) obj ts ->
  obj <> [] -> member_texts obj ts <> [].
Proof. destruct 1 as [|[k x] t]; [congruence | discriminate]. Qed.

Lemma Object_to_string_texts (obj : Object) (ts : list string) :
  Forall2 (fun kv t => Value_to_string (snd kv) = Ok t) obj ts ->
  obj <> [] ->
  Value_to_string (Value_of_Object obj)
  = Ok ("{" ++ join_comma (member_texts obj ts) ++ "}").
Proof.
  intros H Hne. cbn [Value_to_string Value_of_Object].
  unfold Object_to_string_with.
  rewrite (Object_to_string_loop_texts obj ts H). cbn [bind].
  rewrite (concat_comma_join _ (member_texts_nonempty obj ts H Hne)).
  rewrite <- append_assoc at 1.
  change (("{" ++ join_comma (member_texts obj ts)) ++ ",")
    with (("{" ++ join_comma (member_texts obj ts)) ++ str1 ",").
  now rewrite pop_back_app.
Qed.

Lemma reads_back_start (x : Value) (t rest : string) :
  reads_back x t -> delimiter rest = true ->
  is_whitespace (deref (t ++ rest)) = false
  /\ Ascii.eqb (deref (t ++ rest)) "]" = false
  /\ Ascii.eqb (deref (t ++ rest)) "}" = false.
Proof.
  intros Hx Hrest.
  apply (parseValue_Ok_start (S (String.length (t ++ rest))) _ (x, rest)).
  apply Hx; [now left | lia].
Qed.

Lemma parseArray_loop_reads_back (f : nat) (arr : Array) (ts : list string) :
  Forall2 reads_back arr ts -> arr <> [] ->
  forall fuel acc rest,
    String.length (join_comma ts ++ "]" ++ rest) < fuel ->
    String.length (join_comma ts ++ "]" ++ rest) < f ->
    parseArray_loop (parseValue f) fuel (join_comma ts ++ "]" ++ rest) acc
    = Ok (Value_of_Array (acc ++ arr)%list, rest).
Proof.
  induction 1 as [|x t arr ts Hx Hrest IH]; [congruence |].
  intros _ fuel acc rest Hfuel Hf.
  destruct fuel as [|fuel]; [lia |].
  destruct Hrest as [|x2 t2 arr' ts' Hx2 Hrest'].
  - change (join_comma [t]) with t in *.
    assert (Hd : delimiter ("]" ++ rest) = true) by reflexivity.
    destruct (reads_back_start x t _ Hx Hd) as [Hws _].
    cbn [parseArray_loop]. rewrite (skipWhiteSpace_start _ Hws).
    rewrite (Hx f ("]" ++ rest) (or_introl Hd) Hf). reflexivity.
  - change (join_comma (t :: t2 :: ts'))
      with (t ++ "," ++ join_comma (t2 :: ts')) in *.
    set (J := join_comma (t2 :: ts')) in *.
    replace ((t ++ "," ++ J) ++ "]" ++ rest)
      with (t ++ "," ++ J ++ "]" ++ rest) in * by (now rewrite !append_assoc).
    assert (Hd : delimiter ("," ++ J ++ "]" ++ rest) = true) by reflexivity.
    destruct (reads_back_start x t _ Hx Hd) as [Hws _].
    cbn [parseArray_loop]. rewrite (skipWhiteSpace_start _ Hws).
    rewrite (Hx f ("," ++ J ++ "]" ++ rest) (or_introl Hd) Hf).
    cbn [bind].
    change (skipWhiteSpace ("," ++ J ++ "]" ++ rest))
      with ("," ++ J ++ "]" ++ rest).
    change (deref ("," ++ J ++ "]" ++ rest)) with ","%char.
    change (Ascii.eqb "," ",") with true. cbv iota.
    change (next ("," ++ J ++ "]" ++ rest)) with (J ++ "]" ++ rest).
    rewrite length_append in Hfuel, Hf.
    change (String.length ("," ++ J ++ "]" ++ rest))
      with (S (String.length (J ++ "]" ++ rest))) in Hfuel, Hf.
    rewrite (IH ltac:(discriminate) fuel (acc ++ [x])%list rest)
      by lia.
    now rewrite <- app_assoc.
Qed.

Section SortedMaps.
Context {V : Type}.

Lemma sorted_tail (kv : string * V) (m : list (string * V)) :
  StdMap.sorted (kv :: m) = true -> StdMap.sorted m = true.
Proof.
  destruct kv as [k v]. cbn [StdMap.sorted]. intros H.
  now apply andb_true_iff in H as [_ H].
Qed.

Lemma sorted_head_lt (k0 : string) (v0 : V) (m : list (string * V)) :
  StdMap.sorted ((k0, v0) :: m) = true ->
  forall k v, In (k, v) m -> String.compare k0 k = Lt.
Proof.
  revert k0 v0. induction m as [|[k1 v1] m IH]; intros k0 v0 Hs k v Hin;
    [contradiction |].
  pose proof (sorted_tail _ _ Hs) as Hs'.
  cbn [StdMap.sorted] in Hs. apply andb_true_iff in Hs as [Hlt _].
  destruct (String.compare k0 k1) eqn:H01; try discriminate Hlt.
  destruct Hin as [[= <- <-] | Hin]; [exact H01 |].
  eapply string_compare_lt_trans; [exact H01 | exact (IH _ _ Hs' _ _ Hin)].
Qed.

(** A key above all the keys of a map is inserted at its end. *)
Lemma emplace_last (acc : list (string * V)) (k : string) (x : V)
      (tail : list (string * V)) :
  StdMap.sorted (acc ++ (k, x) :: tail)%list = true ->
  StdMap.emplace k x acc = (acc ++ [(k, x)])%list.
Proof.
  induction acc as [|[k0 v0] acc IH]; intros Hs; [reflexivity |].
  cbn [StdMap.emplace app].
  assert (Hlt : String.compare k0 k = Lt).
  { apply (sorted_head_lt k0 v0 (acc ++ (k, x) :: tail)%list Hs k x).
    apply in_or_app. right. now left. }
  rewrite (string_compare_lt_gt _ _ Hlt).
  rewrite IH; [reflexivity |]. exact (sorted_tail _ _ Hs).
Qed.
End SortedMaps.

Lemma unescapeJson_escapeJson_id (key : string) :
  unescapeJson (escapeJson key) = key.
Proof.
  rewrite escapeJson_spec, unescapeJson_spec. apply unescape_escape_chars.
Qed.

Lemma parseObject_loop_reads_back (f : nat) (obj : Object)
      (ts : list string) :
  Forall2 (fun kv t => reads_back (snd kv) t) obj ts -> obj <> [] ->
  forall fuel acc rest,
    StdMap.sorted (acc ++ obj)%list = true ->
    String.length (join_comma (member_texts obj ts) ++ "}" ++ rest) < fuel ->
    String.length (join_comma (member_texts obj ts) ++ "}" ++ rest) < f ->
    parseObject_loop (parseValue f) fuel
                     (join_comma (member_texts obj ts) ++ "}" ++ rest) acc
    = Ok (Value_of_Object (acc ++ obj)%list, rest).
Proof.
  induction 1 as [|[k x] t obj ts Hx Hrest IH]; [congruence |].
  intros _ fuel acc rest Hsorted Hfuel Hf.
  destruct fuel as [|fuel]; [lia |].
  cbn [snd] in Hx.
  assert (Hmember : forall R,
             delimiter R = true ->
             String.length (member_text k t ++ R) < f ->
             parseObject_loop (parseValue f) (S fuel) (member_text k t ++ R) acc
             = if Ascii.eqb (deref R) ","
               then parseObject_loop (parseValue f) fuel (next R)
                                     (acc ++ [(k, x)])%list
               else if Ascii.eqb (deref R) "}"
                    then Ok (Value_of_Object (acc ++ [(k, x)])%list, next R)
                    else throw LACK_COMMA_OR_BRACE).
  { intros R HR HfR.
    assert (Hcur : member_text k t ++ R
                   = q ++ escapeJson k ++ q ++ ":" ++ t ++ R)
      by (unfold member_text, q; now rewrite !append_assoc).
    rewrite Hcur in *. clear Hcur.
    cbn [parseObject_loop].
    change (skipWhiteSpace (q ++ escapeJson k ++ q ++ ":" ++ t ++ R))
      with (q ++ escapeJson k ++ q ++ ":" ++ t ++ R).
    rewrite (parseRawString_accepts (escapeJson k) (":" ++ t ++ R));
      [| rewrite escapeJson_spec; apply literal_body_escape_chars
       | reflexivity].
    cbn [bind].
    change (skipWhiteSpace (":" ++ t ++ R)) with (":" ++ t ++ R).
    change (deref (":" ++ t ++ R)) with ":"%char.
    change (negb (Ascii.eqb ":" ":")) with false. cbv iota.
    change (next (":" ++ t ++ R)) with (t ++ R).
    destruct (reads_back_start x t R Hx HR) as [Hws _].
    rewrite (skipWhiteSpace_start _ Hws).
    rewrite (Hx f R (or_introl HR)).
    2:{ rewrite !length_append in HfR. rewrite length_append. lia. }
    cbn [bind].
    rewrite (skipWhiteSpace_delimiter R HR), unescapeJson_escapeJson_id.
    rewrite (emplace_last acc k x obj Hsorted). reflexivity. }
  destruct Hrest as [|[k2 x2] t2 obj' ts' Hx2 Hrest'].
  - change (join_comma (member_texts [(k, x)] [t])) with (member_text k t)
      in *.
    rewrite (Hmember ("}" ++ rest) eq_refl Hf). reflexivity.
  - change (join_comma (member_texts ((k, x) :: (k2, x2) :: obj') (t :: t2 :: ts')))
      with (member_text k t ++ ","
            ++ join_comma (member_texts ((k2, x2) :: obj') (t2 :: ts'))) in *.
    set (J := join_comma (member_texts ((k2, x2) :: obj') (t2 :: ts'))) in *.
    replace ((member_text k t ++ "," ++ J) ++ "}" ++ rest)
      with (member_text k t ++ "," ++ J ++ "}" ++ rest) in *
      by (now rewrite !append_assoc).
    rewrite (Hmember ("," ++ J ++ "}" ++ rest) eq_refl Hf).
    change (deref ("," ++ J ++ "}" ++ rest)) with ","%char.
    change (Ascii.eqb "," ",") with true. cbv iota.
    change (next ("," ++ J ++ "}" ++ rest)) with (J ++ "}" ++ rest).
    rewrite length_append in Hfuel, Hf.
    change (String.length ("," ++ J ++ "}" ++ rest))
      with (S (String.length (J ++ "}" ++ rest))) in Hfuel, Hf.
    rewrite (IH ltac:(discriminate) fuel (acc ++ [(k, x)])%list rest);
      [now rewrite <- app_assoc | now rewrite <- app_assoc | lia | lia].
Qed.

Lemma Forall2_choice {A B : Type} (Q : A -> B -> Prop) (l : list A) :
  (forall a, In a l -> exists b, Q a b) -> exists bs, Forall2 Q l bs.
Proof.
  induction l as [|a l IH]; intros H.
  - exists []. constructor.
  - destruct (H a (or_introl eq_refl)) as [b Hb].
    destruct IH as [bs Hbs]; [intros x Hx; apply H; now right |].
    exists (b :: bs). now constructor.
Qed.

Lemma join_comma_start (arr : Array) (ts : list string) (tail : string) :
  Forall2 reads_back arr ts -> arr <> [] -> delimiter tail = true ->
  is_whitespace (deref (join_comma ts ++ tail)) = false
  /\ Ascii.eqb (deref (join_comma ts ++ tail)) "]" = false
  /\ Ascii.eqb (deref (join_comma ts ++ tail)) "}" = false.
Proof.
  intros H Hne Htail. destruct H as [|x t arr ts Hx Hrest]; [congruence |].
  destruct Hrest as [|x2 t2 arr' ts' Hx2 Hrest'].
  - exact (reads_back_start x t tail Hx Htail).
  - change (join_comma (t :: t2 :: ts'))
      with (t ++ "," ++ join_comma (t2 :: ts')).
    replace ((t ++ "," ++ join_comma (t2 :: ts')) ++ tail)
      with (t ++ "," ++ join_comma (t2 :: ts') ++ tail)
      by (now rewrite !append_assoc).
    now apply (reads_back_start x t _ Hx).
Qed.

Lemma parseArray_with_reads_back (f : nat) (arr : Array) (ts : list string)
      (rest : string) :
  Forall2 reads_back arr ts -> arr <> [] ->
  String.length (join_comma ts ++ "]" ++ rest) < f ->
  parseArray_with (parseValue f) f ("[" ++ join_comma ts ++ "]" ++ rest)
  = Ok (Value_of_Array arr, rest).
Proof.
  intros H Hne Hf. unfold parseArray_with.
  change (next ("[" ++ join_comma ts ++ "]" ++ rest))
    with (join_comma ts ++ "]" ++ rest).
  destruct (join_comma_start arr ts ("]" ++ rest) H Hne eq_refl)
    as [Hws [Hb _]].
  rewrite (skipWhiteSpace_start _ Hws), Hb.
  exact (parseArray_loop_reads_back f arr ts H Hne f [] rest Hf Hf).
Qed.

Lemma member_texts_start (obj : Object) (ts : list string) (tail : string) :
  Forall2 (fun kv t => reads_back (snd kv) t) obj ts -> obj <> [] ->
  deref (join_comma (member_texts obj ts) ++ tail) = Ch.dquote.
Proof.
  intros H Hne. destruct H as [|[k x] t obj ts Hx Hrest]; [congruence |].
  destruct Hrest as [|[k2 x2] t2 obj' ts' Hx2 Hrest']; reflexivity.
Qed.

Lemma parseObject_with_reads_back (f : nat) (obj : Object)
      (ts : list string) (rest : string) :
  Forall2 (fun kv t => reads_back (snd kv) t) obj ts -> obj <> [] ->
  StdMap.sorted obj = true ->
  String.length (join_comma (member_texts obj ts) ++ "}" ++ rest) < f ->
  parseObject_with (parseValue f) f
                   ("{" ++ join_comma (member_texts obj ts) ++ "}" ++ rest)
  = Ok (Value_of_Object obj, rest).
Proof.
  intros H Hne Hs Hf. unfold parseObject_with.
  change (next ("{" ++ join_comma (member_texts obj ts) ++ "}" ++ rest))
    with (join_comma (member_texts obj ts) ++ "}" ++ rest).
  pose proof (member_texts_start obj ts ("}" ++ rest) H Hne) as Hq.
  rewrite (skipWhiteSpace_start _) by (now rewrite Hq).
  rewrite Hq. change (Ascii.eqb Ch.dquote "}") with false. cbv iota.
  exact (parseObject_loop_reads_back f obj ts H Hne f [] rest Hs Hf Hf).
Qed.

Lemma round_trips_array (arr : Array) :
  arr <> [] -> (forall x, In x arr -> round_trips x) ->
  round_trips (Value_of_Array arr).
Proof.
  intros Hne IH.
  destruct (Forall2_choice
              (fun x t => Value_to_string x = Ok t /\ reads_back x t) arr)
    as [ts Hts].
  { intros x Hx. destruct (IH x Hx) as [t [Ht [Hr _]]]. now exists t. }
  assert (Hstr : Forall2 (fun x t => Value_to_string x = Ok t) arr ts)
    by (eapply Forall2_impl; [| exact Hts]; now intros x t [? _]).
  assert (Hread : Forall2 reads_back arr ts)
    by (eapply Forall2_impl; [| exact Hts]; now intros x t [_ ?]).
  exists ("[" ++ join_comma ts ++ "]").
  split; [exact (Array_to_string_texts arr ts Hstr Hne) | split].
  - intros fuel rest _ Hlen. destruct fuel as [|fuel]; [lia |].
    replace (("[" ++ join_comma ts ++ "]") ++ rest)
      with ("[" ++ join_comma ts ++ "]" ++ rest) in *
      by (now rewrite !append_assoc).
    cbn [parseValue]. cbv zeta.
    change (deref ("[" ++ join_comma ts ++ "]" ++ rest)) with "["%char.
    change (Ascii.eqb "[" "t" || Ascii.eqb "[" "f") with false.
    change (Ascii.eqb "[" "n") with false.
    change (Ascii.eqb "[" Ch.dquote) with false.
    change (Ascii.eqb "[" "[") with true. cbv iota.
    apply (parseArray_with_reads_back fuel arr ts rest Hread Hne).
    change (String.length ("[" ++ join_comma ts ++ "]" ++ rest))
      with (S (String.length (join_comma ts ++ "]" ++ rest))) in Hlen.
    lia.
  - intros _. unfold parse, parseStart.
    change (skipWhiteSpace ("[" ++ join_comma ts ++ "]"))
      with ("[" ++ join_comma ts ++ "]").
    change (deref ("[" ++ join_comma ts ++ "]")) with "["%char.
    change (Ascii.eqb "[" "{") with false.
    change (Ascii.eqb "[" "[") with true. cbv iota.
    unfold parseArray.
    pose proof (parseArray_with_reads_back
                  (String.length ("[" ++ join_comma ts ++ "]"))
                  arr ts EmptyString Hread Hne) as Hroot.
    change ("]" ++ EmptyString) with "]" in Hroot.
    rewrite Hroot; [reflexivity |].
    change (String.length ("[" ++ join_comma ts ++ "]"))
      with (S (String.length (join_comma ts ++ "]"))). lia.
Qed.

Lemma round_trips_object (obj : Object) :
  obj <> [] -> StdMap.sorted obj = true ->
  (forall x, In x (map snd obj) -> round_trips x) ->
  round_trips (Value_of_Object obj).
Proof.
  intros Hne Hs IH.
  destruct (Forall2_choice
              (fun (kv : string * Value) t =>
                 Value_to_string (snd kv) = Ok t /\ reads_back (snd kv) t)
              obj) as [ts Hts].
  { intros kv Hkv. destruct (IH (snd kv)) as [t [Ht [Hr _]]];
      [now apply in_map | now exists t]. }
  assert (Hstr : Forall2 (fun kv t => Value_to_string (snd kv) = Ok t) obj ts)
    by (eapply Forall2_impl; [| exact Hts]; now intros x t [? _]).
  assert (Hread : Forall2 (fun kv t => reads_back (snd kv) t) obj ts)
    by (eapply Forall2_impl; [| exact Hts]; now intros x t [_ ?]).
  set (J := join_comma (member_texts obj ts)).
  exists ("{" ++ J ++ "}").
  split; [exact (Object_to_string_texts obj ts Hstr Hne) | split].
  - intros fuel rest _ Hlen. destruct fuel as [|fuel]; [lia |].
    replace (("{" ++ J ++ "}") ++ rest) with ("{" ++ J ++ "}" ++ rest) in *
      by (now rewrite !append_assoc).
    cbn [parseValue]. cbv zeta.
    change (deref ("{" ++ J ++ "}" ++ rest)) with "{"%char.
    change (Ascii.eqb "{" "t" || Ascii.eqb "{" "f") with false.
    change (Ascii.eqb "{" "n") with false.
    change (Ascii.eqb "{" Ch.dquote) with false.
    change (Ascii.eqb "{" "[") with false.
    change (Ascii.eqb "{" "{") with true. cbv iota.
    apply (parseObject_with_reads_back fuel obj ts rest Hread Hne Hs).
    change (String.length ("{" ++ J ++ "}" ++ rest))
      with (S (String.length (J ++ "}" ++ rest))) in Hlen.
    subst J. lia.
  - intros _. unfold parse, parseStart.
    change (skipWhiteSpace ("{" ++ J ++ "}")) with ("{" ++ J ++ "}").
    change (deref ("{" ++ J ++ "}")) with "{"%char.
    change (Ascii.eqb "{" "{") with true. cbv iota.
    unfold parseObject.
    pose proof (parseObject_with_reads_back
                  (String.length ("{" ++ J ++ "}"))
                  obj ts EmptyString Hread Hne Hs) as Hroot.
    change ("}" ++ EmptyString) with "}" in Hroot.
    fold J in Hroot.
    rewrite Hroot; [reflexivity |].
    change (String.length ("{" ++ J ++ "}"))
      with (S (String.length (J ++ "}"))). lia.
Qed.

(** Every printable value round-trips. *)
Lemma printable_round_trips (v : Value) : printable v -> round_trips v.
Proof.
  induction 1 as [ | b | neg ds t Hint Hok | s Hbody
                   | arr Hne _ IH | obj Hne Hs _ IH ].
  - apply round_trips_null.
  - apply round_trips_bool.
  - now apply round_trips_number.
  - now apply round_trips_string.
  - now apply round_trips_array.
  - now apply round_trips_object.
Qed.

(** X15. Round trip of a built value: for every array or object made of
    the default Null, the Booleans, Numbers holding a well-formed number
    text, Strings holding a literal body, and non-empty arrays and
    non-empty objects of such values (keys strictly increasing, as in
    every [std::map]), [to_string] returns a text and [parse] of that
    text returns the value itself. *)
Theorem to_string_parse_round_trip (v : Value) :
  printable v ->
  isArray v || isObject v = true ->
  exists text, Value_to_string v = Ok text /\ parse text = Ok v.
Proof.
  intros Hv Hc.
  destruct (printable_round_trips v Hv) as [text [Htext [_ Hparse]]].
  exists text. split; [exact Htext | exact (Hparse Hc)].
Qed.

Lemma to_string_parse_round_trip_witness :
  let v := Value_of_Object
             [("a", Value_of_Array
                      [Value_of_type ValueType.Number (v_string "-1.5");
                       Value_of_type ValueType.String (v_string "x")]);
              ("b" ++ str1 Ch.newline, Value_default)] in
  exists text, Value_to_string v = Ok text /\ parse text = Ok v.
Proof.
  intros v. apply (to_string_parse_round_trip v); [| reflexivity].
  apply printable_object; [discriminate | reflexivity |].
  intros x [<- | [<- | []]].
  - apply printable_array; [discriminate |].
    intros y [<- | [<- | []]].
    + exact (printable_number true "1" (tail_fraction "5") eq_refl eq_refl).
    + exact (printable_string "x" eq_refl).
  - exact printable_null.
Defined.

Lemma parseArray_loop_shape (pv : cursor -> result (Value * cursor))
      (fuel : nat) :
  forall cur acc v cur',
    parseArray_loop pv fuel cur acc = Ok (v, cur') -> isArray v = true.
Proof.
  induction fuel as [|fuel IH]; intros cur acc v cur' H; [discriminate H |].
  cbn [parseArray_loop] in H.
  destruct (pv (skipWhiteSpace cur)) as [[value cur2]| | |];
    cbn [bind] in H; try discriminate H.
  destruct (Ascii.eqb (deref (skipWhiteSpace cur2)) ","); [eauto |].
  destruct (Ascii.eqb (deref (skipWhiteSpace cur2)) "]"); [| discriminate H].
  now injection H as <- _.
Qed.

Lemma parseObject_loop_shape (pv : cursor -> result (Value * cursor))
      (fuel : nat) :
  forall cur acc v cur',
    parseObject_loop pv fuel cur acc = Ok (v, cur') -> isObject v = true.
Proof.
  induction fuel as [|fuel IH]; intros cur acc v cur' H; [discriminate H |].
  cbn [parseObject_loop] in H.
  destruct (parseRawString (skipWhiteSpace cur)) as [[key cur1]| | |];
    cbn [bind] in H; try discriminate H.
  destruct (negb (Ascii.eqb (deref (skipWhiteSpace cur1)) ":"));
    [discriminate H |].
  destruct (pv (skipWhiteSpace (next (skipWhiteSpace cur1))))
    as [[value cur2]| | |]; cbn [bind] in H; try discriminate H.
  destruct (Ascii.eqb (deref (skipWhiteSpace cur2)) ","); [eauto |].
  destruct (Ascii.eqb (deref (skipWhiteSpace cur2)) "}"); [| discriminate H].
  now injection H as <- _.
Qed.

(** What [parse] returns is an array or an object. *)
Lemma parse_root_container (json_data : string) (v : Value) :
  parse json_data = Ok v -> isArray v || isObject v = true.
Proof.
  unfold parse, parseStart. intros H.
  destruct (Ascii.eqb (deref (skipWhiteSpace json_data)) "{").
  - destruct (parseObject (String.length json_data)
                          (skipWhiteSpace json_data))
      as [[ret cur']| | |] eqn:Hroot; cbn [bind] in H; try discriminate H.
    destruct (negb (Ascii.eqb (deref (skipWhiteSpace cur')) Ch.nul));
      [discriminate H |].
    injection H as <-.
    unfold parseObject, parseObject_with in Hroot.
    destruct (Ascii.eqb
                (deref (skipWhiteSpace (next (skipWhiteSpace json_data))))
                "}").
    + now injection Hroot as <- _.
    + rewrite (parseObject_loop_shape _ _ _ _ _ _ Hroot). apply orb_true_r.
  - destruct (Ascii.eqb (deref (skipWhiteSpace json_data)) "[");
      [| discriminate H].
    destruct (parseArray (String.length json_data)
                         (skipWhiteSpace json_data))
      as [[ret cur']| | |] eqn:Hroot; cbn [bind] in H; try discriminate H.
    destruct (negb (Ascii.eqb (deref (skipWhiteSpace cur')) Ch.nul));
      [discriminate H |].
    injection H as <-.
    unfold parseArray, parseArray_with in Hroot.
    destruct (Ascii.eqb
                (deref (skipWhiteSpace (next (skipWhiteSpace json_data))))
                "]").
    + now injection Hroot as <- _.
    + now rewrite (parseArray_loop_shape _ _ _ _ _ _ Hroot).
Qed.

Lemma parse_printable (json_data : string) (v : Value) :
  parse json_data = Ok v -> no_empty_container v = true -> printable v.
Proof.
  apply (parse_invariant
           (fun v => no_empty_container v = true -> printable v)).
  - intros _. exact printable_null.
  - intros b _. apply printable_bool.
  - intros neg ds t Hint Hok _. now apply printable_number.
  - intros s Hbody _. now apply printable_string.
  - intros arr Harr Hne. simpl in Hne.
    apply andb_true_iff in Hne as [Hne Hall].
    apply printable_array; [destruct arr; [discriminate Hne | discriminate] |].
    intros x Hx. rewrite Forall_forall in Harr.
    rewrite forallb_forall in Hall. auto.
  - intros obj Hs Hobj Hne. simpl in Hne.
    apply andb_true_iff in Hne as [Hne Hall].
    apply printable_object;
      [destruct obj; [discriminate Hne | discriminate] | exact Hs |].
    intros x Hx. apply in_map_iff in Hx as [kv [<- Hkv]].
    rewrite Forall_forall in Hobj. rewrite forallb_forall in Hall.
    exact (Hobj kv Hkv (Hall kv Hkv)).
Qed.

(** X16. Serializing what was parsed and parsing it again: for every
    text [parse] accepts, when the value it returns holds no empty
    array and no empty object, [to_string] returns a text for it and
    [parse] of that text returns the same value, so that this text is a
    fixed point of parsing and serializing. *)
Theorem parse_to_string_parse (json_data : string) (v : Value) :
  parse json_data = Ok v ->
  no_empty_container v = true ->
  exists text,
    Value_to_string v = Ok text
    /\ parse text = Ok v
    /\ (v' <- parse text ;; Value_to_string v') = Ok text.
Proof.
  intros Hparse Hne.
  pose proof (parse_printable json_data v Hparse Hne) as Hv.
  pose proof (parse_root_container json_data v Hparse) as Hc.
  destruct (printable_round_trips v Hv) as [text [Htext [_ Hback]]].
  exists text. split; [exact Htext |].
  split; [exact (Hback Hc) |]. now rewrite (Hback Hc).
Qed.

Lemma parse_to_string_parse_witness :
  let json_data :=
    " { " ++ q ++ "b" ++ q ++ " : [ 1e5 , true ] , "
    ++ q ++ "a" ++ bs ++ "n" ++ q ++ " : " ++ q ++ bs ++ "u00e9" ++ q ++ " } "
  in
  let v := Value_of_Object
             [("a" ++ str1 Ch.newline,
               Value_of_type ValueType.String (v_string (bs ++ "u00e9")));
              ("b", Value_of_Array
                      [Value_of_type ValueType.Number (v_string "1e5");
                       Value_of_type ValueType.Boolean (v_string "true")])]
  in
  exists text,
    Value_to_string v = Ok text
    /\ parse text = Ok v
    /\ (v' <- parse text ;; Value_to_string v') = Ok text.
Proof.
  intros json_data v.
  apply (parse_to_string_parse json_data v); reflexivity.
Defined.

(* ================================================================== *)
(** * Empty containers, error messages *)
(* ================================================================== *)

Lemma skipWhiteSpace_ws_then (ws : string) (c : ascii) (rest : string) :
  all_chars is_whitespace ws = true -> is_whitespace c = false ->
  skipWhiteSpace (ws ++ String c rest) = String c rest.
Proof.
  intros Hws Hc.
  now rewrite (skipWhiteSpace_append ws _ Hws), (skipWhiteSpace_fixed c rest Hc).
Qed.

(** X17. An opening bracket, whitespace and the matching closing
    bracket are read as the empty array and the empty object, as a
    whole document with whitespace after it as well. *)
Theorem parse_empty_container (ws ws' : string) :
  all_chars is_whitespace ws = true ->
  all_chars is_whitespace ws' = true ->
  parse ("[" ++ ws ++ "]" ++ ws') = Ok (Value_of_Array [])
  /\ parse ("{" ++ ws ++ "}" ++ ws') = Ok (Value_of_Object []).
Proof.
  intros Hws Hws'. unfold parse, parseStart. split.
  - change (skipWhiteSpace ("[" ++ ws ++ "]" ++ ws'))
      with ("[" ++ ws ++ "]" ++ ws').
    change (deref ("[" ++ ws ++ "]" ++ ws')) with "["%char.
    change (Ascii.eqb "[" "{") with false.
    change (Ascii.eqb "[" "[") with true. cbv iota.
    unfold parseArray, parseArray_with.
    change (next ("[" ++ ws ++ "]" ++ ws')) with (ws ++ String "]" ws').
    rewrite (skipWhiteSpace_ws_then ws "]" ws' Hws eq_refl).
    cbn [deref]. change (Ascii.eqb "]" "]") with true. cbv iota.
    cbn [bind]. change (next (String "]" ws')) with ws'.
    now rewrite (skipWhiteSpace_all ws' Hws').
  - change (skipWhiteSpace ("{" ++ ws ++ "}" ++ ws'))
      with ("{" ++ ws ++ "}" ++ ws').
    change (deref ("{" ++ ws ++ "}" ++ ws')) with "{"%char.
    change (Ascii.eqb "{" "{") with true. cbv iota.
    unfold parseObject, parseObject_with.
    change (next ("{" ++ ws ++ "}" ++ ws')) with (ws ++ String "}" ws').
    rewrite (skipWhiteSpace_ws_then ws "}" ws' Hws eq_refl).
    cbn [deref]. change (Ascii.eqb "}" "}") with true. cbv iota.
    cbn [bind]. change (next (String "}" ws')) with ws'.
    now rewrite (skipWhiteSpace_all ws' Hws').
Qed.

Lemma parse_empty_container_witness :
  parse ("[" ++ "  " ++ "]" ++ str1 Ch.newline) = Ok (Value_of_Array [])
  /\ parse ("{" ++ "  " ++ "}" ++ str1 Ch.newline) = Ok (Value_of_Object []).
Proof.
  apply (parse_empty_container "  " (str1 Ch.newline)); reflexivity.
Defined.

(** X18. [what()] tells the fourteen error kinds apart: two different
    kinds never have the same message. *)
Theorem errorToStr_distinct (a b : ParseError) :
  a <> b -> errorToStr a <> errorToStr b.
Proof.
  intros Hab H. apply Hab.
  destruct a, b; try reflexivity; vm_compute in H; discriminate H.
Qed.

Lemma errorToStr_distinct_witness :
  errorToStr LACK_COMMA_OR_BRACE <> errorToStr LACK_COMMA_OR_BRACKET
  /\ errorToStr BAD_KEY <> errorToStr BAD_VALUE.
Proof.
  split.
  - apply (errorToStr_distinct LACK_COMMA_OR_BRACE LACK_COMMA_OR_BRACKET).
    discriminate.
  - apply (errorToStr_distinct BAD_KEY BAD_VALUE). discriminate.
Defined.

(* ================================================================== *)
(** * Access by operator[] and erase *)
(* ================================================================== *)

Section MapOperations.
Context {V : Type}.

Lemma find_emplace_other (k k' : string) (v' : V) (m : list (string * V)) :
  k <> k' ->
  StdMap.find k (StdMap.emplace k' v' m) = StdMap.find k m.
Proof.
  intros Hk.
  assert (Hne : String.compare k k' <> Eq)
    by (intros H; now apply String.compare_eq_iff in H).
  induction m as [|[k0 v0] m IH]; simpl.
  - destruct (String.compare k k'); [congruence | reflexivity | reflexivity].
  - destruct (String.compare k' k0) eqn:Hk'; simpl.
    + reflexivity.
    + destruct (String.compare k k') eqn:Hkk; [congruence | | reflexivity].
      now rewrite (string_compare_lt_trans _ _ _ Hkk Hk').
    + destruct (String.compare k k0); auto.
Qed.

Lemma emplace_present_id (k : string) (v x : V) (m : list (string * V)) :
  StdMap.find k m = Some x -> StdMap.emplace k v m = m.
Proof.
  induction m as [|[k0 v0] m IH]; simpl; [discriminate |].
  destruct (String.compare k k0); try discriminate; [reflexivity |].
  intros H. now rewrite IH.
Qed.

Lemma StdMap_index_spec (key : string) (dflt : V) (m : list (string * V)) :
  StdMap_index key dflt m
  = (match StdMap.find key m with Some x => x | None => dflt end,
     StdMap.emplace key dflt m).
Proof.
  induction m as [|[k0 v0] m IH]; simpl; [reflexivity |].
  destruct (String.compare key k0); try reflexivity.
  now rewrite IH.
Qed.

Lemma sorted_cons (k0 : string) (v0 : V) (m : list (string * V)) :
  (forall k v, In (k, v) m -> String.compare k0 k = Lt) ->
  StdMap.sorted m = true ->
  StdMap.sorted ((k0, v0) :: m) = true.
Proof.
  intros Hlt Hs. cbn [StdMap.sorted]. rewrite Hs, andb_true_r.
  destruct m as [|[k1 v1] m]; [reflexivity |].
  now rewrite (Hlt k1 v1 (or_introl eq_refl)).
Qed.

Lemma find_above (k : string) (m : list (string * V)) :
  (forall k1 v1, In (k1, v1) m -> String.compare k k1 = Lt) ->
  StdMap.find k m = None.
Proof.
  destruct m as [|[k1 v1] m]; [reflexivity |]. intros H. simpl.
  now rewrite (H k1 v1 (or_introl eq_refl)).
Qed.

Lemma In_erase (key : string) (m : list (string * V)) (kv : string * V) :
  In kv (snd (StdMap_erase key m)) -> In kv m.
Proof.
  induction m as [|[k0 v0] m IH]; simpl; [auto |].
  destruct (String.compare key k0); simpl; auto.
  destruct (StdMap_erase key m) as [n m'']. simpl in *.
  intros [H | H]; auto.
Qed.

Lemma StdMap_erase_spec (key : string) (m : list (string * V)) :
  StdMap.sorted m = true ->
  StdMap.find key (snd (StdMap_erase key m)) = None
  /\ (forall k, k <> key ->
                StdMap.find k (snd (StdMap_erase key m)) = StdMap.find k m)
  /\ fst (StdMap_erase key m)
     = (match StdMap.find key m with Some _ => 1 | None => 0 end)
  /\ StdMap.sorted (snd (StdMap_erase key m)) = true.
Proof.
  induction m as [|[k0 v0] m IH]; intros Hs; [repeat split |].
  pose proof (sorted_head_lt k0 v0 m Hs) as Hhead.
  pose proof (sorted_tail _ _ Hs) as Hs'.
  specialize (IH Hs'). destruct IH as [IH1 [IH2 [IH3 IH4]]].
  cbn [StdMap_erase StdMap.find].
  destruct (String.compare key k0) eqn:Hk.
  - apply String.compare_eq_iff in Hk. subst k0. cbn [fst snd].
    repeat split; try assumption.
    + now apply find_above.
    + intros k Hne. destruct (String.compare k key) eqn:Hkk.
      * now apply String.compare_eq_iff in Hkk.
      * apply find_above. intros k1 v1 Hin.
        exact (string_compare_lt_trans _ _ _ Hkk (Hhead _ _ Hin)).
      * reflexivity.
  - cbn [fst snd]. repeat split; try assumption.
    cbn [StdMap.find]. now rewrite Hk.
  - destruct (StdMap_erase key m) as [n m''] eqn:He. cbn [fst snd] in *.
    repeat split; try assumption.
    + cbn [StdMap.find]. now rewrite Hk.
    + intros k Hne. cbn [StdMap.find].
      destruct (String.compare k k0); auto.
    + apply sorted_cons; [| exact IH4].
      intros k v Hin. apply (Hhead k v).
      apply (In_erase key m (k, v)). now rewrite He.
Qed.
End MapOperations.

(** X19. [operator[]] with a key on an Object value does not throw for
    a missing key, as [at] does: it inserts a Null value under the key
    and refers to it; for a key that is present it refers to the value
    [at] returns and leaves the object as it is.  In both cases the
    values under all other keys are unchanged. *)
Theorem Value_index_key_inserts (v : Value) (obj : Object) (key : string) :
  to_object v = Ok obj ->
  exists v',
    let x := match StdMap.find key obj with
             | Some x => x
             | None => Value_default
             end in
    Value_index_key v key = Ok (x, v')
    /\ Value_at_key v' key = Ok x
    /\ (forall k, k <> key -> Value_at_key v' k = Value_at_key v k)
    /\ (StdMap.find key obj <> None -> v' = v).
Proof.
  intros Hobj.
  assert (Hv : isObject v = true /\ value_data_ v = v_object_ptr (Some obj)).
  { unfold to_object, get_object in Hobj.
    destruct (isObject v); [| discriminate Hobj]. split; [reflexivity |].
    destruct (value_data_ v) as [s | p | [o|]]; try discriminate Hobj.
    now injection Hobj as ->. }
  destruct Hv as [Htag Hdata].
  exists (mkValue (type_ v)
                  (v_object_ptr (Some (StdMap.emplace key Value_default obj)))).
  cbv zeta.
  assert (Hto : forall o, to_object (mkValue (type_ v) (v_object_ptr (Some o)))
                          = Ok o).
  { intros o. unfold to_object, isObject in *. cbn [type_ value_data_].
    now rewrite Htag. }
  split; [| split; [| split]].
  - unfold Value_index_key, Object_index. rewrite Hobj. cbn [bind].
    now rewrite StdMap_index_spec.
  - unfold Value_at_key, Object_at, StdMap.at_. rewrite Hto. cbn [bind].
    now rewrite find_emplace_same.
  - intros k Hk. unfold Value_at_key, Object_at, StdMap.at_.
    rewrite Hto, Hobj. cbn [bind].
    now rewrite (find_emplace_other k key Value_default obj Hk).
  - intros Hpresent. destruct (StdMap.find key obj) as [x|] eqn:Hfind;
      [| congruence].
    rewrite (emplace_present_id key Value_default x obj Hfind).
    destruct v as [type d]. cbn [type_ value_data_] in *. now subst d.
Qed.

Lemma Value_index_key_inserts_witness :
  let v := Value_of_Object [("b", Value_of_bool true)] in
  exists v',
    let x := match StdMap.find "a" [("b", Value_of_bool true)] with
             | Some x => x
             | None => Value_default
             end in
    Value_index_key v "a" = Ok (x, v')
    /\ Value_at_key v' "a" = Ok x
    /\ (forall k, k <> "a" -> Value_at_key v' k = Value_at_key v k)
    /\ (StdMap.find "a" [("b", Value_of_bool true)] <> None -> v' = v).
Proof.
  apply (Value_index_key_inserts
           (Value_of_Object [("b", Value_of_bool true)])
           [("b", Value_of_bool true)] "a").
  reflexivity.
Defined.

(** X20. [Object::erase(key)] on an object with its keys in increasing
    order removes the entry of that key and nothing else: afterwards
    [at(key)] throws [out_of_range], every other key has the value it
    had, the keys are still in increasing order, and the count returned
    is 1 when the key was present and 0 when it was not. *)
Theorem Object_erase_removes (obj : Object) (key : string) :
  StdMap.sorted obj = true ->
  Object_at (snd (Object_erase obj key)) key = Throw out_of_range
  /\ (forall k, k <> key ->
                Object_at (snd (Object_erase obj key)) k = Object_at obj k)
  /\ fst (Object_erase obj key)
     = (match StdMap.find key obj with Some _ => 1 | None => 0 end)
  /\ StdMap.sorted (snd (Object_erase obj key)) = true.
Proof.
  intros Hs. unfold Object_erase, Object_at, StdMap.at_.
  destruct (StdMap_erase_spec key obj Hs) as [H1 [H2 [H3 H4]]].
  split; [| split; [| split]]; try assumption.
  - exact (f_equal (fun o => match o with
                             | Some v => Ok v
                             | None => Throw out_of_range
                             end) H1).
  - intros k Hk.
    exact (f_equal (fun o => match o with
                             | Some v => Ok v
                             | None => Throw out_of_range
                             end) (H2 k Hk)).
Qed.

Lemma Object_erase_removes_witness :
  let obj := [("a", Value_default); ("b", Value_of_bool true);
              ("c", Value_of_string "s")] in
  Object_at (snd (Object_erase obj "b")) "b" = Throw out_of_range
  /\ (forall k, k <> "b" ->
                Object_at (snd (Object_erase obj "b")) k = Object_at obj k)
  /\ fst (Object_erase obj "b")
     = (match StdMap.find "b" obj with Some _ => 1 | None => 0 end)
  /\ StdMap.sorted (snd (Object_erase obj "b")) = true.
Proof.
  apply (Object_erase_removes
           [("a", Value_default); ("b", Value_of_bool true);
            ("c", Value_of_string "s")] "b").
  reflexivity.
Defined.

(* ================================================================== *)
(** * Text after the root value *)
(* ================================================================== *)

Lemma at_end_app (a b : string) : at_end a = false -> at_end (a ++ b) = false.
Proof. destruct a; [discriminate | reflexivity]. Qed.

Lemma next_app (a b : string) : at_end a = false -> next (a ++ b) = next a ++ b.
Proof. destruct a; [discriminate | reflexivity]. Qed.

Lemma at_end_skipWhiteSpace (cur : cursor) :
  at_end (skipWhiteSpace cur) = false -> at_end cur = false.
Proof. destruct cur; [discriminate | reflexivity]. Qed.

Lemma skipWhiteSpace_app_nonempty (cur w : string) :
  at_end (skipWhiteSpace cur) = false ->
  skipWhiteSpace (cur ++ w) = skipWhiteSpace cur ++ w.
Proof.
  induction cur as [|c cur IH]; [discriminate |].
  cbn [append skipWhiteSpace]. destruct (is_whitespace c); auto.
Qed.

Lemma skipWhiteSpace_empty_app (cur w : string) :
  at_end (skipWhiteSpace cur) = true ->
  skipWhiteSpace (cur ++ w) = skipWhiteSpace w.
Proof.
  induction cur as [|c cur IH]; [reflexivity |].
  cbn [append skipWhiteSpace]. destruct (is_whitespace c); [exact IH |].
  discriminate.
Qed.

(** The scalar parsers look at no character after the first one they
    leave: text appended to the input is left as it is. *)
Lemma parseBoolean_app (cur : cursor) (v : Value) (rest w : string) :
  parseBoolean cur = Ok (v, rest) ->
  parseBoolean (cur ++ w) = Ok (v, rest ++ w).
Proof.
  unfold parseBoolean. cbv zeta. intros H.
  destruct (Ascii.eqb (deref cur) "t").
  - destruct (String.eqb (make_string cur 4) "true") eqn:Hw;
      [| discriminate H].
    pose proof (make_string_eqb cur "true" Hw) as Hcur.
    apply String.eqb_eq in Hw. rewrite Hw in H. injection H as <- <-.
    change (String.length "true") with 4 in Hcur.
    remember (advance 4 cur) as r eqn:Hr. clear Hr Hw. subst cur.
    reflexivity.
  - destruct (Ascii.eqb (deref cur) "f"); [| discriminate H].
    destruct (String.eqb (make_string cur 5) "false") eqn:Hw;
      [| discriminate H].
    pose proof (make_string_eqb cur "false" Hw) as Hcur.
    apply String.eqb_eq in Hw. rewrite Hw in H. injection H as <- <-.
    change (String.length "false") with 5 in Hcur.
    remember (advance 5 cur) as r eqn:Hr. clear Hr Hw. subst cur.
    reflexivity.
Qed.

Lemma parseNull_app (cur : cursor) (v : Value) (rest w : string) :
  parseNull cur = Ok (v, rest) ->
  parseNull (cur ++ w) = Ok (v, rest ++ w).
Proof.
  unfold parseNull. cbv zeta. intros H.
  destruct (String.eqb (make_string cur 4) "null") eqn:Hw;
    [| discriminate H].
  pose proof (make_string_eqb cur "null" Hw) as Hcur.
  injection H as <- <-.
  change (String.length "null") with 4 in Hcur.
  remember (advance 4 cur) as r eqn:Hr. clear Hr Hw. subst cur.
  reflexivity.
Qed.

Lemma parseRawString_app (cur : cursor) (raw : string) (rest w : string) :
  parseRawString cur = Ok (raw, rest) ->
  parseRawString (cur ++ w) = Ok (raw, rest ++ w).
Proof.
  intros H. apply parseRawString_accepts_iff in H as [-> [Hbody Hne]].
  rewrite !append_assoc.
  apply parseRawString_accepts; [exact Hbody | now apply at_end_app].
Qed.

Lemma parseString_app (cur : cursor) (v : Value) (rest w : string) :
  parseString cur = Ok (v, rest) ->
  parseString (cur ++ w) = Ok (v, rest ++ w).
Proof.
  unfold parseString. intros H.
  destruct (parseRawString cur) as [[raw cur']| | |] eqn:Hraw;
    cbn [bind] in H; try discriminate H.
  injection H as <- <-.
  now rewrite (parseRawString_app _ _ _ w Hraw).
Qed.

Lemma parseNumber_app (cur : cursor) (v : Value) (rest w : string) :
  parseNumber cur = Ok (v, rest) ->
  at_end rest = false ->
  parseNumber (cur ++ w) = Ok (v, rest ++ w).
Proof.
  intros H Hne.
  destruct (parseNumber_inv _ _ _ H)
    as [neg [ds [t [Hint [Hok [Hends [-> ->]]]]]]].
  rewrite append_assoc. apply parseNumber_accepts; try assumption.
  unfold number_ends in *. now rewrite (deref_app_nonempty rest w Hne).
Qed.

Section AppendedText.
Variable pv : cursor -> result (Value * cursor).
Hypothesis pv_app : forall cur v rest w,
    pv cur = Ok (v, rest) -> at_end rest = false ->
    pv (cur ++ w) = Ok (v, rest ++ w).
Hypothesis pv_empty : forall r, pv EmptyString <> Ok r.

Lemma pv_not_at_end (cur : cursor) (r : Value * cursor) :
  pv cur = Ok r -> at_end cur = false.
Proof.
  destruct cur; [| reflexivity]. intros H. now apply pv_empty in H.
Qed.

Lemma parseArray_loop_app (fuel : nat) :
  forall cur array_data v rest w,
    parseArray_loop pv fuel cur array_data = Ok (v, rest) ->
    parseArray_loop pv fuel (cur ++ w) array_data = Ok (v, rest ++ w).
Proof.
  induction fuel as [|fuel IH]; intros cur array_data v rest w H;
    [discriminate H |].
  cbn [parseArray_loop] in *. cbv zeta in *.
  destruct (pv (skipWhiteSpace cur)) as [[value cur1]| | |] eqn:Hval;
    cbn [bind] in H; try discriminate H.
  pose proof (pv_not_at_end _ _ Hval) as Hne0.
  rewrite (skipWhiteSpace_app_nonempty cur w Hne0).
  assert (Hne2 : at_end (skipWhiteSpace cur1) = false).
  { destruct (Ascii.eqb (deref (skipWhiteSpace cur1)) ",") eqn:Hc;
      [eapply deref_not_at_end; [exact Hc | reflexivity] |].
    destruct (Ascii.eqb (deref (skipWhiteSpace cur1)) "]") eqn:Hb;
      [eapply deref_not_at_end; [exact Hb | reflexivity] |].
    discriminate H. }
  rewrite (pv_app _ _ _ w Hval (at_end_skipWhiteSpace _ Hne2)).
  cbn [bind].
  rewrite (skipWhiteSpace_app_nonempty cur1 w Hne2).
  rewrite (deref_app_nonempty _ w Hne2), (next_app _ w Hne2).
  destruct (Ascii.eqb (deref (skipWhiteSpace cur1)) ",");
    [now apply IH |].
  destruct (Ascii.eqb (deref (skipWhiteSpace cur1)) "]");
    [| discriminate H].
  now injection H as <- <-.
Qed.

Lemma parseArray_with_app (fuel : nat) (cur : cursor) (v : Value)
      (rest w : string) :
  at_end cur = false ->
  parseArray_with pv fuel cur = Ok (v, rest) ->
  parseArray_with pv fuel (cur ++ w) = Ok (v, rest ++ w).
Proof.
  unfold parseArray_with. cbv zeta. intros Hcur H.
  rewrite (next_app cur w Hcur).
  destruct (at_end (skipWhiteSpace (next cur))) eqn:Hne.
  - destruct (skipWhiteSpace (next cur)); [| discriminate Hne].
    change (Ascii.eqb (deref EmptyString) "]") with false in H.
    cbv iota in H. destruct fuel as [|fuel]; [discriminate H |].
    cbn [parseArray_loop skipWhiteSpace] in H.
    destruct (pv EmptyString) as [r| | |];
      cbn [bind] in H; try discriminate H.
    destruct (pv_empty r eq_refl).
  - rewrite (skipWhiteSpace_app_nonempty _ w Hne).
    rewrite (deref_app_nonempty _ w Hne), (next_app _ w Hne).
    destruct (Ascii.eqb (deref (skipWhiteSpace (next cur))) "]").
    + now injection H as <- <-.
    + now apply parseArray_loop_app.
Qed.

Lemma parseObject_loop_app (fuel : nat) :
  forall cur object_data v rest w,
    parseObject_loop pv fuel cur object_data = Ok (v, rest) ->
    parseObject_loop pv fuel (cur ++ w) object_data = Ok (v, rest ++ w).
Proof.
  induction fuel as [|fuel IH]; intros cur object_data v rest w H;
    [discriminate H |].
  cbn [parseObject_loop] in *. cbv zeta in *.
  destruct (parseRawString (skipWhiteSpace cur)) as [[key cur1]| | |]
    eqn:Hkey; cbn [bind] in H; try discriminate H.
  assert (Hne0 : at_end (skipWhiteSpace cur) = false).
  { destruct (skipWhiteSpace cur); [discriminate Hkey | reflexivity]. }
  rewrite (skipWhiteSpace_app_nonempty cur w Hne0).
  rewrite (parseRawString_app _ _ _ w Hkey). cbn [bind].
  destruct (Ascii.eqb (deref (skipWhiteSpace cur1)) ":") eqn:Hcolon;
    cbn [negb] in H; [| discriminate H].
  assert (Hne1 : at_end (skipWhiteSpace cur1) = false)
    by (eapply deref_not_at_end; [exact Hcolon | reflexivity]).
  rewrite (skipWhiteSpace_app_nonempty cur1 w Hne1).
  rewrite (deref_app_nonempty _ w Hne1), Hcolon, (next_app _ w Hne1).
  cbn [negb]. cbv iota.
  destruct (pv (skipWhiteSpace (next (skipWhiteSpace cur1))))
    as [[value cur2]| | |] eqn:Hval; cbn [bind] in H; try discriminate H.
  pose proof (pv_not_at_end _ _ Hval) as Hne2.
  rewrite (skipWhiteSpace_app_nonempty _ w Hne2).
  assert (Hne3 : at_end (skipWhiteSpace cur2) = false).
  { destruct (Ascii.eqb (deref (skipWhiteSpace cur2)) ",") eqn:Hc;
      [eapply deref_not_at_end; [exact Hc | reflexivity] |].
    destruct (Ascii.eqb (deref (skipWhiteSpace cur2)) "}") eqn:Hb;
      [eapply deref_not_at_end; [exact Hb | reflexivity] |].
    discriminate H. }
  rewrite (pv_app _ _ _ w Hval (at_end_skipWhiteSpace _ Hne3)).
  cbn [bind].
  rewrite (skipWhiteSpace_app_nonempty cur2 w Hne3).
  rewrite (deref_app_nonempty _ w Hne3), (next_app _ w Hne3).
  destruct (Ascii.eqb (deref (skipWhiteSpace cur2)) ",");
    [now apply IH |].
  destruct (Ascii.eqb (deref (skipWhiteSpace cur2)) "}");
    [| discriminate H].
  now injection H as <- <-.
Qed.

Lemma parseObject_with_app (fuel : nat) (cur : cursor) (v : Value)
      (rest w : string) :
  at_end cur = false ->
  parseObject_with pv fuel cur = Ok (v, rest) ->
  parseObject_with pv fuel (cur ++ w) = Ok (v, rest ++ w).
Proof.
  unfold parseObject_with. cbv zeta. intros Hcur H.
  rewrite (next_app cur w Hcur).
  destruct (at_end (skipWhiteSpace (next cur))) eqn:Hne.
  - destruct (skipWhiteSpace (next cur)); [| discriminate Hne].
    change (Ascii.eqb (deref EmptyString) "}") with false in H.
    cbv iota in H. destruct fuel as [|fuel]; discriminate H.
  - rewrite (skipWhiteSpace_app_nonempty _ w Hne).
    rewrite (deref_app_nonempty _ w Hne), (next_app _ w Hne).
    destruct (Ascii.eqb (deref (skipWhiteSpace (next cur))) "}").
    + now injection H as <- <-.
    + now apply parseObject_loop_app.
Qed.
End AppendedText.

Lemma parseValue_empty (fuel : nat) (r : Value * cursor) :
  parseValue fuel EmptyString <> Ok r.
Proof. destruct fuel; discriminate. Qed.

(** [parseValue] looks at no character after the first one it leaves. *)
Lemma parseValue_app (fuel : nat) :
  forall cur v rest w,
    parseValue fuel cur = Ok (v, rest) -> at_end rest = false ->
    parseValue fuel (cur ++ w) = Ok (v, rest ++ w).
Proof.
  induction fuel as [|fuel IH]; intros cur v rest w H Hrest;
    [discriminate H |].
  assert (Hcur : at_end cur = false).
  { destruct cur; [| reflexivity]. now apply parseValue_empty in H. }
  cbn [parseValue] in *. cbv zeta in *.
  rewrite (deref_app_nonempty cur w Hcur).
  destruct (Ascii.eqb (deref cur) "t" || Ascii.eqb (deref cur) "f");
    [now apply parseBoolean_app |].
  destruct (Ascii.eqb (deref cur) "n"); [now apply parseNull_app |].
  destruct (Ascii.eqb (deref cur) Ch.dquote); [now apply parseString_app |].
  destruct (Ascii.eqb (deref cur) "[").
  { apply parseArray_with_app; try assumption.
    intros r. apply parseValue_empty. }
  destruct (Ascii.eqb (deref cur) "{").
  { apply parseObject_with_app; try assumption.
    intros r. apply parseValue_empty. }
  destruct (Ascii.eqb (deref cur) "-" || isdigit (deref cur));
    [now apply parseNumber_app | discriminate H].
Qed.

(** X21. Text after an accepted document does not change the result
    when, after its leading whitespace, it is at its end or at a NUL
    character: in particular whitespace after the root is accepted. *)
Theorem parse_trailing_text (json_data w : string) (v : Value) :
  Ascii.eqb (deref (skipWhiteSpace w)) Ch.nul = true ->
  parse json_data = Ok v ->
  parse (json_data ++ w) = Ok v.
Proof.
  intros Hw H. unfold parse in *.
  rewrite <- (parseStart_fuel (String.length json_data)
                              (String.length (json_data ++ w)) json_data)
    in H; [| apply le_n | rewrite length_append; lia].
  revert H. generalize (String.length (json_data ++ w)). intros fuel H.
  unfold parseStart in *. cbv zeta in *.
  set (cur := skipWhiteSpace json_data) in *.
  assert (Hroot : forall r,
             (if Ascii.eqb (deref cur) "{" then parseObject fuel cur
              else if Ascii.eqb (deref cur) "[" then parseArray fuel cur
                   else throw NOT_JSON) = Ok r ->
             at_end cur = false
             /\ (if Ascii.eqb (deref (cur ++ w)) "{"
                 then parseObject fuel (cur ++ w)
                 else if Ascii.eqb (deref (cur ++ w)) "["
                      then parseArray fuel (cur ++ w)
                      else throw NOT_JSON) = Ok (fst r, snd r ++ w)).
  { intros [ret cur'] Hr.
    assert (Hne : at_end cur = false).
    { destruct cur; [discriminate Hr | reflexivity]. }
    split; [exact Hne |]. rewrite (deref_app_nonempty cur w Hne).
    destruct (Ascii.eqb (deref cur) "{").
    - apply parseObject_with_app; try assumption.
      + intros. now apply parseValue_app.
      + intros r. apply parseValue_empty.
    - destruct (Ascii.eqb (deref cur) "["); [| discriminate Hr].
      apply parseArray_with_app; try assumption.
      + intros. now apply parseValue_app.
      + intros r. apply parseValue_empty. }
  destruct (if Ascii.eqb (deref cur) "{" then parseObject fuel cur
            else if Ascii.eqb (deref cur) "[" then parseArray fuel cur
                 else throw NOT_JSON) as [[ret cur']| | |] eqn:Hr;
    cbn [bind] in H; try discriminate H.
  destruct (Hroot _ eq_refl) as [Hne Hr'].
  subst cur. rewrite (skipWhiteSpace_app_nonempty json_data w Hne).
  rewrite Hr'. cbn [bind fst snd].
  destruct (Ascii.eqb (deref (skipWhiteSpace cur')) Ch.nul) eqn:Hend;
    cbn [negb] in H; [| discriminate H].
  injection H as <-.
  destruct (at_end (skipWhiteSpace cur')) eqn:Hcur'.
  - rewrite (skipWhiteSpace_empty_app cur' w Hcur'), Hw. reflexivity.
  - rewrite (skipWhiteSpace_app_nonempty cur' w Hcur').
    rewrite (deref_app_nonempty _ w Hcur'), Hend. reflexivity.
Qed.

Lemma parse_trailing_text_witness :
  parse ("[1]" ++ " " ++ str1 Ch.newline)
  = Ok (Value_of_Array [Value_of_type ValueType.Number (v_string "1")]).
Proof.
  apply (parse_trailing_text "[1]" (" " ++ str1 Ch.newline)).
  - reflexivity.
  - reflexivity.
Defined.
